(** * Data-compression: Huffman, arithmetic and LZW encoders of [code.py]

    A shallow embedding of the three encoders and of the library routines
    they call ([heapq], [decimal], [int], [format]), followed by the
    properties of the specification that were checked against them. *)

From Stdlib Require Import ZArith NArith QArith Ascii String DecimalString.
From Stdlib.Strings Require Import Byte.
From stdpp Require Import gmap list sorting.
From Bignums Require Import BigZ.

Local Open Scope N_scope.

(** ** Python values

    [text_bytes] is a [bytes] object; iterating over it yields the integers
    0..255.  A Python [str] is a list of characters: the only strings the
    encoders build are strings of digits. *)

Abbreviation bytes := (list Byte.byte).
Abbreviation str := (list ascii).

Definition ints (text_bytes : bytes) : list N := map Byte.to_N text_bytes.

(** ** Python dicts with integer keys

    A dict keeps its keys in insertion order, and the encoders iterate over
    their dicts, so a dict is an association list in insertion order:
    [d[k] = v] replaces the value of an existing key in place and appends a
    new key at the end. *)

Fixpoint dict_get {V : Type} (d : list (N * V)) (k : N) : option V :=
  match d with
  | [] => None
  | (k', v) :: rest => if N.eqb k' k then Some v else dict_get rest k
  end.

Fixpoint dict_set {V : Type} (d : list (N * V)) (k : N) (v : V) : list (N * V) :=
  match d with
  | [] => [(k, v)]
  | (k', v') :: rest =>
      if N.eqb k' k then (k', v) :: rest else (k', v') :: dict_set rest k v
  end.

Definition dict_keys {V : Type} (d : list (N * V)) : list N := map fst d.
Definition dict_values {V : Type} (d : list (N * V)) : list V := map snd d.

(** ** FrequencyModel

    [freq = defaultdict(int); for byte in text_bytes: freq[byte] += 1] *)

Definition freq_incr (freq : list (N * N)) (byte : N) : list (N * N) :=
  dict_set freq byte (default 0 (dict_get freq byte) + 1).

Definition count_freq (text : list N) : list (N * N) :=
  fold_left freq_incr text [].

(** ** HuffmanNode

    The class has four fields and two uses: [HuffmanNode(count, byte=byte)]
    (a leaf: [left] and [right] are [None]) and
    [HuffmanNode(l.freq + r.freq, left=l, right=r)] (an internal node:
    [byte] is [None]). *)

Inductive HuffmanNode : Type :=
| Leaf (freq : N) (byte : N)
| Internal (freq : N) (left right : HuffmanNode).

Definition node_freq (n : HuffmanNode) : N :=
  match n with
  | Leaf f _ => f
  | Internal f _ _ => f
  end.

(** [__lt__]: nodes compare by frequency only. *)
Definition node_lt (a b : HuffmanNode) : bool := node_freq a <? node_freq b.

(** ** heapq

    The list-as-heap routines of the standard library, as [heapq.py] writes
    them; [item] is the item being moved and the list has a hole at [pos]
    until the loop ends.  Indices stay in range by the loop guards; a lookup
    out of range leaves the list as it is. *)

Module heapq.

(** [_siftdown(heap, startpos, pos)]: move [item] up towards [startpos]. *)
Fixpoint siftdown_loop (fuel : nat) (heap : list HuffmanNode)
    (startpos pos : nat) (item : HuffmanNode) : list HuffmanNode :=
  match fuel with
  | O => <[pos := item]> heap
  | S fuel' =>
      if bool_decide (startpos < pos)%nat then
        let parentpos := ((pos - 1) / 2)%nat in
        match heap !! parentpos with
        | Some parent =>
            if node_lt item parent
            then siftdown_loop fuel' (<[pos := parent]> heap) startpos parentpos item
            else <[pos := item]> heap
        | None => heap
        end
      else <[pos := item]> heap
  end.

Definition siftdown (heap : list HuffmanNode) (startpos pos : nat) : list HuffmanNode :=
  match heap !! pos with
  | Some newitem => siftdown_loop pos heap startpos pos newitem
  | None => heap
  end.

(** The loop of [_siftup(heap, pos)]: bubble the smaller child up until a
    leaf is reached; returns the list (with its hole) and the leaf
    position. *)
Fixpoint siftup_loop (fuel : nat) (heap : list HuffmanNode) (pos : nat)
    : list HuffmanNode * nat :=
  match fuel with
  | O => (heap, pos)
  | S fuel' =>
      let endpos := length heap in
      let childpos := (2 * pos + 1)%nat in
      if bool_decide (childpos < endpos)%nat then
        let rightpos := (childpos + 1)%nat in
        let childpos :=
          match heap !! childpos, heap !! rightpos with
          | Some c, Some r => if negb (node_lt c r) then rightpos else childpos
          | _, _ => childpos
          end in
        match heap !! childpos with
        | Some child => siftup_loop fuel' (<[pos := child]> heap) childpos
        | None => (heap, pos)
        end
      else (heap, pos)
  end.

Definition siftup (heap : list HuffmanNode) (pos : nat) : list HuffmanNode :=
  match heap !! pos with
  | Some newitem =>
      let '(heap', pos') := siftup_loop (length heap) heap pos in
      siftdown (<[pos' := newitem]> heap') pos pos'
  | None => heap
  end.

(** [heappush(heap, item)] *)
Definition heappush (heap : list HuffmanNode) (item : HuffmanNode) : list HuffmanNode :=
  let heap := heap ++ [item] in
  siftdown heap 0 (length heap - 1).

(** [heappop(heap)]: [None] is the IndexError of an empty heap. *)
Definition heappop (heap : list HuffmanNode) : option (HuffmanNode * list HuffmanNode) :=
  match last heap with
  | None => None
  | Some lastelt =>
      let heap := removelast heap in
      match heap with
      | [] => Some (lastelt, [])
      | returnitem :: _ => Some (returnitem, siftup (<[0%nat := lastelt]> heap) 0)
      end
  end.

End heapq.

(** ** Huffman tree and code table *)

(** [for byte, count in freq.items(): heapq.heappush(heap, HuffmanNode(count, byte=byte))] *)
Definition initial_heap (freq : list (N * N)) : list HuffmanNode :=
  fold_left (fun heap '(byte, count) => heapq.heappush heap (Leaf count byte)) freq [].

(** [while len(heap) > 1: ...]; every round shortens the heap by one, so
    [length heap] rounds are enough. *)
Fixpoint merge_loop (fuel : nat) (heap : list HuffmanNode) : option (list HuffmanNode) :=
  match fuel with
  | O => Some heap
  | S fuel' =>
      if bool_decide (1 < length heap)%nat then
        '(l, heap1) ← heapq.heappop heap;
        '(r, heap2) ← heapq.heappop heap1;
        let merged := Internal (node_freq l + node_freq r) l r in
        merge_loop fuel' (heapq.heappush heap2 merged)
      else Some heap
  end.

(** [root = heapq.heappop(heap) if heap else None] *)
Definition huffman_root (freq : list (N * N)) : option (option HuffmanNode) :=
  let heap := initial_heap freq in
  heap ← merge_loop (length heap) heap;
  match heap with
  | [] => Some None
  | _ => '(root, _) ← heapq.heappop heap; Some (Some root)
  end.

(** [build_code(node, current_code)] writes into the enclosing [code_table];
    the table is threaded through the calls. *)
Fixpoint build_code (node : HuffmanNode) (current_code : str)
    (code_table : gmap N str) : gmap N str :=
  match node with
  | Leaf _ byte => <[byte := current_code]> code_table
  | Internal _ l r =>
      let code_table := build_code l (current_code ++ ["0"%char]) code_table in
      build_code r (current_code ++ ["1"%char]) code_table
  end.

(** The table [huffman_compress] ends up with: [if root: build_code(root)]. *)
Definition huffman_code_table (text_bytes : bytes) : option (gmap N str) :=
  root ← huffman_root (count_freq (ints text_bytes));
  match root with
  | Some root => Some (build_code root [] ∅)
  | None => Some ∅
  end.


(** ** BitPacker

    The three encoders end with the same lines: pad the bit string with
    ['0'] to a multiple of 8 and read every 8 characters as a binary
    number. *)

(** [int(s, 2)] on a string of digits; [None] is its ValueError (a
    character other than ['0'] and ['1'], or the empty string). *)
Definition bit_value (c : ascii) : option N :=
  if Ascii.eqb c "0" then Some 0
  else if Ascii.eqb c "1" then Some 1
  else None.

Fixpoint int2_from (acc : N) (s : str) : option N :=
  match s with
  | [] => Some acc
  | c :: s' => d ← bit_value c; int2_from (2 * acc + d) s'
  end.

Definition int2 (s : str) : option N :=
  match s with
  | [] => None
  | _ => int2_from 0 s
  end.

(** [padding = 8 - (len(bits) % 8); if padding != 8: bits += '0' * padding] *)
Definition pad_bits (bits : str) : str :=
  let padding := (8 - length bits mod 8)%nat in
  if bool_decide (padding ≠ 8%nat) then bits ++ replicate padding "0"%char else bits.

(** [range(0, stop, step)] and the slice [s[i:j]] *)
Definition range_step (stop step : nat) : list nat :=
  map (fun k => (k * step)%nat) (seq 0 ((stop + step - 1) / step)).

Definition slice (s : str) (i j : nat) : str := take (j - i) (drop i s).

(** [[int(bits[i:i+8], 2) for i in range(0, len(bits), 8)]] *)
Definition bytes_list_of (bits : str) : option (list N) :=
  mapM (fun i => int2 (slice bits i (i + 8))) (range_step (length bits) 8).

(** [f.write(bytes(bytes_list))]: [bytes] raises ValueError on a value
    outside 0..255; the result is the content of the compressed file. *)
Definition write_bin (bytes_list : list N) : option bytes :=
  mapM Byte.of_N bytes_list.

(** ** EncodeResult

    [len(bytes_list) / len(text_bytes)] is Python's true division of two
    integers, the float nearest to the quotient; the record keeps the exact
    quotient.  0 and 1 are floats, and rounding to nearest is monotone, so
    comparing the exact quotient with 0 and 1 gives what comparing the float
    gives. *)
Record EncodeResult : Type := mkResult {
  original_size : nat;
  compressed_size : nat;
  compression_ratio : Q;
  time : Z
}.

Definition encode_result (text_bytes : bytes) (bytes_list : list N) : EncodeResult :=
  {| original_size := length text_bytes;
     compressed_size := length bytes_list;
     compression_ratio :=
       match text_bytes with
       | [] => 0%Q
       | _ => (Z.of_nat (length bytes_list) # Pos.of_nat (length text_bytes))%Q
       end;
     time := 0 |}.

(** ** huffman_compress *)

(** [''.join([code_table[byte] for byte in text_bytes])]; [None] is the
    KeyError of a byte without a code. *)
Definition huffman_bits (text_bytes : bytes) : option str :=
  code_table ← huffman_code_table text_bytes;
  codes ← mapM (fun byte => code_table !! byte) (ints text_bytes);
  Some (concat codes).

(** The packed bytes and the result record.  The two text dumps written to
    [huffman_info.txt] only format the tables and are left out. *)
Definition huffman_run (text_bytes : bytes) : option (list N * bytes * EncodeResult) :=
  encoded_bits ← huffman_bits text_bytes;
  bytes_list ← bytes_list_of (pad_bits encoded_bits);
  file ← write_bin bytes_list;
  Some (bytes_list, file, encode_result text_bytes bytes_list).

Definition huffman_compress (text_bytes : bytes) : option EncodeResult :=
  snd <$> huffman_run text_bytes.

(** ** lzw_compress

    A [bytes] key of the dictionary is the list of its integers. *)

Record lzw_state : Type := mkLzw {
  dictionary : gmap (list N) N;
  next_code : N;
  s : list N;
  encoded : list N
}.

(** [{bytes([i]): i for i in range(256)}] *)
Definition lzw_initial_dictionary : gmap (list N) N :=
  list_to_map (map (fun i : nat => ([N.of_nat i], N.of_nat i)) (seq 0 256)).

Definition lzw_initial : lzw_state :=
  {| dictionary := lzw_initial_dictionary; next_code := 256; s := []; encoded := [] |}.

(** One round of [for byte in text_bytes]; [None] is the KeyError of
    [dictionary[s]]. *)
Definition lzw_step (st : lzw_state) (byte : N) : option lzw_state :=
  let sc := s st ++ [byte] in
  match dictionary st !! sc with
  | Some _ =>
      Some {| dictionary := dictionary st; next_code := next_code st;
              s := sc; encoded := encoded st |}
  | None =>
      code ← dictionary st !! s st;
      Some {| dictionary := <[sc := next_code st]> (dictionary st);
              next_code := next_code st + 1;
              s := [byte];
              encoded := encoded st ++ [code] |}
  end.

Fixpoint lzw_loop (st : lzw_state) (text : list N) : option lzw_state :=
  match text with
  | [] => Some st
  | byte :: text' => st' ← lzw_step st byte; lzw_loop st' text'
  end.

(** [if s: encoded.append(dictionary[s])] *)
Definition lzw_flush (st : lzw_state) : option lzw_state :=
  match s st with
  | [] => Some st
  | _ =>
      code ← dictionary st !! s st;
      Some {| dictionary := dictionary st; next_code := next_code st;
              s := s st; encoded := encoded st ++ [code] |}
  end.

(** The dictionary and the code sequence at the end of the loop. *)
Definition lzw_encode (text_bytes : bytes) : option lzw_state :=
  st ← lzw_loop lzw_initial (ints text_bytes);
  lzw_flush st.

(** [format(code, '012b')]: the binary digits of [code], most significant
    first, padded on the left with ['0'] to a width of at least 12. *)
Fixpoint bin_pos (p : positive) : str :=
  match p with
  | xH => ["1"%char]
  | xO q => bin_pos q ++ ["0"%char]
  | xI q => bin_pos q ++ ["1"%char]
  end.

Definition bin (code : N) : str :=
  match code with
  | N0 => ["0"%char]
  | Npos p => bin_pos p
  end.

Definition format_012b (code : N) : str :=
  let digits := bin code in
  replicate (12 - length digits) "0"%char ++ digits.

(** [''.join([format(code, '012b') for code in encoded])] *)
Definition lzw_bits_of (codes : list N) : str := concat (map format_012b codes).

Definition lzw_bits (text_bytes : bytes) : option str :=
  st ← lzw_encode text_bytes;
  Some (lzw_bits_of (encoded st)).

Definition lzw_run (text_bytes : bytes) : option (list N * bytes * EncodeResult) :=
  bits_str ← lzw_bits text_bytes;
  bytes_list ← bytes_list_of (pad_bits bits_str);
  file ← write_bin bytes_list;
  Some (bytes_list, file, encode_result text_bytes bytes_list).

Definition lzw_compress (text_bytes : bytes) : option EncodeResult :=
  snd <$> lzw_run text_bytes.

(** ** decimal

    [Decimal] numbers under the context the encoder sets:
    [getcontext().prec = 1000], the other fields at their defaults
    (rounding ROUND_HALF_EVEN, Emin = -999999, Emax = 999999, no trap on
    Underflow or Inexact).  A number is [coef * 10 ^ exp] with a signed
    coefficient.  Every operation computes the exact result and rounds it
    with the context ([fix_], the library's [_fix]).  The library may keep a
    different number of trailing zeros in a result than this model; the
    operations the encoder uses see the value of a number only.  Overflow
    above Emax needs a value of 10^999999 and is not modelled. *)

Module decimal.

Local Open Scope Z_scope.

Definition prec : Z := 1000.
Definition Emin : Z := -999999.
Definition Etiny : Z := Emin - prec + 1.

Record Decimal : Type := mk { coef : Z; exp : Z }.

(** [Decimal(n)] for an integer [n]: exact. *)
Definition of_int (n : Z) : Decimal := mk n 0.

(** [len(str(c))] for [c >= 0]: the number of decimal digits. *)
Fixpoint ndigits_loop (fuel : nat) (c : Z) : Z :=
  match fuel with
  | O => 1
  | S fuel' => if c <? 10 then 1 else 1 + ndigits_loop fuel' (c / 10)
  end.

Definition ndigits (c : Z) : Z := ndigits_loop (Z.to_nat (Z.log2 c)) c.

(** [c / 10 ^ d] rounded to the nearest integer, ties to the even one
    ([c >= 0], [d > 0]). *)
Definition round_half_even (c d : Z) : Z :=
  let p := 10 ^ d in
  let q := c / p in
  let r := c mod p in
  match 2 * r ?= p with
  | Lt => q
  | Gt => q + 1
  | Eq => if Z.even q then q else q + 1
  end.

(** [_fix]: round to at most [prec] digits, and to no exponent below
    [Etiny]. *)
Definition fix_ (x : Decimal) : Decimal :=
  let c := Z.abs (coef x) in
  if c =? 0 then mk 0 (Z.max (exp x) Etiny)
  else
    let exp_min := Z.max (ndigits c + exp x - prec) Etiny in
    if exp x <? exp_min then
      let coeff := round_half_even c (exp_min - exp x) in
      if prec <? ndigits coeff
      then mk (Z.sgn (coef x) * (coeff / 10)) (exp_min + 1)
      else mk (Z.sgn (coef x) * coeff) exp_min
    else x.

(** The exact sum, at the smaller exponent. *)
Definition add_exact (x y : Decimal) : Decimal :=
  let e := Z.min (exp x) (exp y) in
  mk (coef x * 10 ^ (exp x - e) + coef y * 10 ^ (exp y - e)) e.

Definition neg (x : Decimal) : Decimal := mk (- coef x) (exp x).

Definition add (x y : Decimal) : Decimal := fix_ (add_exact x y).
Definition sub (x y : Decimal) : Decimal := fix_ (add_exact x (neg y)).
Definition mul (x y : Decimal) : Decimal := fix_ (mk (coef x * coef y) (exp x + exp y)).

(** The loop of [__truediv__] for an exact quotient:
    [while exp < ideal_exp and coeff % 10 == 0: coeff //= 10; exp += 1] *)
Fixpoint strip_zeros (fuel : nat) (coeff e ideal_exp : Z) : Decimal :=
  match fuel with
  | O => mk coeff e
  | S fuel' =>
      if (e <? ideal_exp) && (coeff mod 10 =? 0)
      then strip_zeros fuel' (coeff / 10) (e + 1) ideal_exp
      else mk coeff e
  end.

(** [__truediv__]: a quotient of [prec + 1] or [prec + 2] digits; when the
    division is inexact its last digit is made non-zero, when it is exact
    the trailing zeros go; then [_fix].  [None] is the exception raised
    for a zero divisor. *)
Definition div (x y : Decimal) : option Decimal :=
  if coef y =? 0 then None
  else if coef x =? 0 then Some (fix_ (mk 0 (exp x - exp y)))
  else
    let a := Z.abs (coef x) in
    let b := Z.abs (coef y) in
    let shift := ndigits b - ndigits a + prec + 1 in
    let e := exp x - exp y - shift in
    let '(coeff, remainder) :=
      if 0 <=? shift then Z.div_eucl (a * 10 ^ shift) b
      else Z.div_eucl a (b * 10 ^ (- shift)) in
    let ans :=
      if remainder =? 0 then strip_zeros (Z.to_nat shift) coeff e (exp x - exp y)
      else mk (if coeff mod 5 =? 0 then coeff + 1 else coeff) e in
    Some (fix_ (mk (Z.sgn (coef x) * Z.sgn (coef y) * coef ans) (exp ans))).

(** [int(x)]: truncation towards zero. *)
Definition to_int (x : Decimal) : Z :=
  if 0 <=? exp x then coef x * 10 ^ exp x
  else Z.quot (coef x) (10 ^ (- exp x)).

(** [x == 0] *)
Definition is_zero (x : Decimal) : bool := coef x =? 0.

(** The order of the values: [x <= y] and [x < y] of the library compare
    values exactly. *)
Definition le (x y : Decimal) : Prop :=
  let e := Z.min (exp x) (exp y) in
  coef x * 10 ^ (exp x - e) <= coef y * 10 ^ (exp y - e).

Definition lt (x y : Decimal) : Prop :=
  let e := Z.min (exp x) (exp y) in
  coef x * 10 ^ (exp x - e) < coef y * 10 ^ (exp y - e).

(** The value as a rational number. *)
Definition value (x : Decimal) : Q :=
  if 0 <=? exp x then inject_Z (coef x * 10 ^ exp x)
  else (coef x # Z.to_pos (10 ^ (- exp x)))%Q.

End decimal.

Import decimal (Decimal).

(** ** arithmetic_compress *)

(** The loop over [sorted(freq.keys())] that fills [cum_prob]; [current]
    is the running cursor.  The keys are distinct integers, for which any
    sorting function returns what [sorted] returns; [None] is a KeyError or
    a division by zero. *)
Fixpoint cum_prob_loop (freq : list (N * N)) (total : N) (keys : list N)
    (current : Decimal) (cum_prob : list (N * (Decimal * Decimal)))
    : option (list (N * (Decimal * Decimal))) :=
  match keys with
  | [] => Some cum_prob
  | byte :: keys' =>
      count ← dict_get freq byte;
      prob ← decimal.div (decimal.of_int (Z.of_N count)) (decimal.of_int (Z.of_N total));
      let cum_prob := dict_set cum_prob byte (current, decimal.add current prob) in
      cum_prob_loop freq total keys' (decimal.add current prob) cum_prob
  end.

Definition sorted_keys (freq : list (N * N)) : list N :=
  merge_sort N.le (dict_keys freq).

Definition build_cum_prob (freq : list (N * N)) : option (list (N * (Decimal * Decimal))) :=
  let total := foldr N.add 0 (dict_values freq) in
  cum_prob_loop freq total (sorted_keys freq) (decimal.of_int 0) [].

(** One round of [for byte in text_bytes]: both updates read the [low] of
    before the round. *)
Definition narrow_step (cum_prob : list (N * (Decimal * Decimal)))
    (st : Decimal * Decimal) (byte : N) : option (Decimal * Decimal) :=
  let '(low, high) := st in
  '(char_low, char_high) ← dict_get cum_prob byte;
  let range_size := decimal.sub high low in
  let high' := decimal.add low (decimal.mul range_size char_high) in
  let low' := decimal.add low (decimal.mul range_size char_low) in
  Some (low', high').

Fixpoint narrow_loop (cum_prob : list (N * (Decimal * Decimal)))
    (st : Decimal * Decimal) (text : list N) : option (Decimal * Decimal) :=
  match text with
  | [] => Some st
  | byte :: text' => st' ← narrow_step cum_prob st byte; narrow_loop cum_prob st' text'
  end.

Definition narrow_initial : Decimal * Decimal := (decimal.of_int 0, decimal.of_int 1).

(** The interval [(low, high)] after the narrowing loop. *)
Definition arithmetic_interval (text_bytes : bytes) : option (Decimal * Decimal) :=
  cum_prob ← build_cum_prob (count_freq (ints text_bytes));
  narrow_loop cum_prob narrow_initial (ints text_bytes).

(** [str(bit)] for a Python integer. *)
Definition str_of_int (n : Z) : str :=
  list_ascii_of_string (NilZero.string_of_int (Z.to_int n)).

(** [for _ in range(1024): value *= 2; bit = int(value); ...; if value == 0: break] *)
Fixpoint binary_loop (rounds : nat) (value : Decimal) (binary_str : list str) : list str :=
  match rounds with
  | O => binary_str
  | S rounds' =>
      let value := decimal.mul value (decimal.of_int 2) in
      let bit := decimal.to_int value in
      let binary_str := binary_str ++ [str_of_int bit] in
      let value := decimal.sub value (decimal.of_int bit) in
      if decimal.is_zero value then binary_str
      else binary_loop rounds' value binary_str
  end.

Definition arithmetic_bits (text_bytes : bytes) : option str :=
  '(low, high) ← arithmetic_interval text_bytes;
  Some (concat (binary_loop 1024 low [])).

(** The packed bytes and the result record; the dump written to
    [arithmetic_info.txt] only formats the table and is left out. *)
Definition arithmetic_run (text_bytes : bytes) : option (list N * bytes * EncodeResult) :=
  binary_str ← arithmetic_bits text_bytes;
  bytes_list ← bytes_list_of (pad_bits binary_str);
  file ← write_bin bytes_list;
  Some (bytes_list, file, encode_result text_bytes bytes_list).

Definition arithmetic_compress (text_bytes : bytes) : option EncodeResult :=
  snd <$> arithmetic_run text_bytes.

(** ** The arithmetic encoder on machine integers

    The interval computation once more, with the coefficients held as
    Bignums integers, which [vm_compute] evaluates on inputs of a thousand
    bytes.  Every function is the one of the same name above with the
    integer operations replaced; [fast.to_model] maps its values back. *)

Module fast.

Record Decimal : Type := mk { coef : bigZ; exp : Z }.

Definition to_model (x : Decimal) : decimal.Decimal :=
  decimal.mk (BigZ.to_Z (coef x)) (exp x).

Definition to_model2 (st : Decimal * Decimal) : decimal.Decimal * decimal.Decimal :=
  (to_model st.1, to_model st.2).

Definition to_table (cum_prob : list (N * (Decimal * Decimal)))
    : list (N * (decimal.Decimal * decimal.Decimal)) :=
  map (fun kv => (kv.1, to_model2 kv.2)) cum_prob.

Definition pow10 (k : Z) : bigZ := BigZ.pow 10 (BigZ.of_Z k).

Definition of_int (n : Z) : Decimal := mk (BigZ.of_Z n) 0.

(** The number of digits, guessed from the binary logarithm and checked
    against the powers of ten around it. *)
Definition ndigits (c : bigZ) : Z :=
  let k := (BigZ.to_Z (BigZ.log2 c) * 1233 / 4096 + 1)%Z in
  let p := pow10 (k - 1) in
  let p' := BigZ.mul p 10 in
  if BigZ.leb p c && BigZ.ltb c p' then k
  else if BigZ.leb p' c && BigZ.ltb c (BigZ.mul p' 10) then (k + 1)%Z
  else decimal.ndigits (BigZ.to_Z c).

Definition round_half_even (c : bigZ) (d : Z) : bigZ :=
  let p := pow10 d in
  let q := BigZ.div c p in
  let r := BigZ.modulo c p in
  match BigZ.compare (BigZ.mul 2 r) p with
  | Lt => q
  | Gt => BigZ.add q 1
  | Eq => if BigZ.even q then q else BigZ.add q 1
  end.

Definition fix_ (x : Decimal) : Decimal :=
  let c := BigZ.abs (coef x) in
  if BigZ.eqb c 0 then mk 0 (Z.max (exp x) decimal.Etiny)
  else
    let exp_min := Z.max (ndigits c + exp x - decimal.prec) decimal.Etiny in
    if (exp x <? exp_min)%Z then
      let coeff := round_half_even c (exp_min - exp x) in
      if (decimal.prec <? ndigits coeff)%Z
      then mk (BigZ.mul (BigZ.sgn (coef x)) (BigZ.div coeff 10)) (exp_min + 1)
      else mk (BigZ.mul (BigZ.sgn (coef x)) coeff) exp_min
    else x.

Definition add_exact (x y : Decimal) : Decimal :=
  let e := Z.min (exp x) (exp y) in
  mk (BigZ.add (BigZ.mul (coef x) (pow10 (exp x - e)))
               (BigZ.mul (coef y) (pow10 (exp y - e)))) e.

Definition neg (x : Decimal) : Decimal := mk (BigZ.opp (coef x)) (exp x).

Definition add (x y : Decimal) : Decimal := fix_ (add_exact x y).
Definition sub (x y : Decimal) : Decimal := fix_ (add_exact x (neg y)).
Definition mul (x y : Decimal) : Decimal :=
  fix_ (mk (BigZ.mul (coef x) (coef y)) (exp x + exp y)).

Fixpoint strip_zeros (fuel : nat) (coeff : bigZ) (e ideal_exp : Z) : Decimal :=
  match fuel with
  | O => mk coeff e
  | S fuel' =>
      if (e <? ideal_exp)%Z && BigZ.eqb (BigZ.modulo coeff 10) 0
      then strip_zeros fuel' (BigZ.div coeff 10) (e + 1) ideal_exp
      else mk coeff e
  end.

Definition div (x y : Decimal) : option Decimal :=
  if BigZ.eqb (coef y) 0 then None
  else if BigZ.eqb (coef x) 0 then Some (fix_ (mk 0 (exp x - exp y)))
  else
    let a := BigZ.abs (coef x) in
    let b := BigZ.abs (coef y) in
    let shift := (ndigits b - ndigits a + decimal.prec + 1)%Z in
    let e := (exp x - exp y - shift)%Z in
    let '(coeff, remainder) :=
      if (0 <=? shift)%Z then BigZ.div_eucl (BigZ.mul a (pow10 shift)) b
      else BigZ.div_eucl a (BigZ.mul b (pow10 (- shift))) in
    let ans :=
      if BigZ.eqb remainder 0 then strip_zeros (Z.to_nat shift) coeff e (exp x - exp y)
      else mk (if BigZ.eqb (BigZ.modulo coeff 5) 0 then BigZ.add coeff 1 else coeff) e in
    Some (fix_ (mk (BigZ.mul (BigZ.mul (BigZ.sgn (coef x)) (BigZ.sgn (coef y))) (coef ans))
                   (exp ans))).

Fixpoint cum_prob_loop (freq : list (N * N)) (total : N) (keys : list N)
    (current : Decimal) (cum_prob : list (N * (Decimal * Decimal)))
    : option (list (N * (Decimal * Decimal))) :=
  match keys with
  | [] => Some cum_prob
  | byte :: keys' =>
      count ← dict_get freq byte;
      prob ← div (of_int (Z.of_N count)) (of_int (Z.of_N total));
      let cum_prob := dict_set cum_prob byte (current, add current prob) in
      cum_prob_loop freq total keys' (add current prob) cum_prob
  end.

Definition build_cum_prob (freq : list (N * N)) : option (list (N * (Decimal * Decimal))) :=
  let total := foldr N.add 0%N (dict_values freq) in
  cum_prob_loop freq total (sorted_keys freq) (of_int 0) [].

Definition narrow_step (cum_prob : list (N * (Decimal * Decimal)))
    (st : Decimal * Decimal) (byte : N) : option (Decimal * Decimal) :=
  let '(low, high) := st in
  '(char_low, char_high) ← dict_get cum_prob byte;
  let range_size := sub high low in
  let high' := add low (mul range_size char_high) in
  let low' := add low (mul range_size char_low) in
  Some (low', high').

Fixpoint narrow_loop (cum_prob : list (N * (Decimal * Decimal)))
    (st : Decimal * Decimal) (text : list N) : option (Decimal * Decimal) :=
  match text with
  | [] => Some st
  | byte :: text' => st' ← narrow_step cum_prob st byte; narrow_loop cum_prob st' text'
  end.

Definition arithmetic_interval (text_bytes : bytes) : option (Decimal * Decimal) :=
  cum_prob ← build_cum_prob (count_freq (ints text_bytes));
  narrow_loop cum_prob (of_int 0, of_int 1) (ints text_bytes).

End fast.

(** ** Auxiliary definitions for the statements *)

(** The bytes at the leaves of a tree, left to right, and of a heap of
    trees. *)
Fixpoint leaf_bytes (node : HuffmanNode) : list N :=
  match node with
  | Leaf _ byte => [byte]
  | Internal _ l r => leaf_bytes l ++ leaf_bytes r
  end.

Definition forest_bytes (heap : list HuffmanNode) : list N := heap ≫= leaf_bytes.

(** The (byte, code) pairs in the order in which [build_code] writes them. *)
Fixpoint tree_codes (node : HuffmanNode) (current_code : str) : list (N * str) :=
  match node with
  | Leaf _ byte => [(byte, current_code)]
  | Internal _ l r =>
      tree_codes l (current_code ++ ["0"%char]) ++ tree_codes r (current_code ++ ["1"%char])
  end.

(** BitPacker as the specification words it.  A bit string is a string of
    ['0'] and ['1']; [bit_at bits j] is the bit at position [j]; the byte
    at index [i] of the packed output has the place value of the eight bits
    from position [8 * i] on, the first of them the most significant. *)
Definition is_bit (c : ascii) : Prop := c = "0"%char ∨ c = "1"%char.

Definition bit_at (bits : str) (j : nat) : N :=
  if decide (bits !! j = Some "1"%char) then 1 else 0.

Definition place_value (bits : str) (i : nat) : N :=
  128 * bit_at bits (8 * i) + 64 * bit_at bits (8 * i + 1)
  + 32 * bit_at bits (8 * i + 2) + 16 * bit_at bits (8 * i + 3)
  + 8 * bit_at bits (8 * i + 4) + 4 * bit_at bits (8 * i + 5)
  + 2 * bit_at bits (8 * i + 6) + bit_at bits (8 * i + 7).

(** [bytes_list] is the packing of [bits]: fewer than eight ['0'] are
    appended at the end, to a length that is a multiple of 8, and every
    byte is the place value of its eight bits. *)
Definition is_packing (bits : str) (bytes_list : list N) : Prop :=
  ∃ padding : nat,
    (padding < 8)%nat ∧
    (length (bits ++ replicate padding "0"%char) = 8 * length bytes_list)%nat ∧
    ∀ i, (i < length bytes_list)%nat →
         bytes_list !! i = Some (place_value (bits ++ replicate padding "0"%char) i).

(** The strings that [dictionary] maps to the codes of a code sequence, one
    per code: what mapping every code back through the dictionary gives. *)
Definition lzw_decodes (dictionary : gmap (list N) N) (codes : list N)
    (strings : list (list N)) : Prop :=
  Forall2 (fun code string => dictionary !! string = Some code) codes strings.

(** The loop invariant of [lzw_compress] after the bytes [processed]. *)
Record lzw_inv (st : lzw_state) (processed : list N) : Prop := {
  lzw_inv_single : ∀ i, i < 256 → dictionary st !! [i] = Some i;
  lzw_inv_current : s st ≠ [] → is_Some (dictionary st !! s st);
  lzw_inv_bound : ∀ k c, dictionary st !! k = Some c → c < next_code st;
  lzw_inv_inj : ∀ k1 k2 c,
      dictionary st !! k1 = Some c → dictionary st !! k2 = Some c → k1 = k2;
  lzw_inv_decode : ∃ strings,
      lzw_decodes (dictionary st) (encoded st) strings ∧
      concat strings ++ s st = processed
}.

(** An input on which [lzw_compress] emits the code 4096: thirty blocks
    [i, 64, i, 65, ..., i, 127] for [i = 0, ..., 29], in which no pair of
    neighbours repeats, so that every byte adds a dictionary entry, and then
    [30, 64, 30, 64], whose first pair gets the code 4096 and whose second
    pair is emitted as that code. *)
Definition byte_of (n : nat) : Byte.byte := default "000"%byte (Byte.of_nat n).

Definition lzw_overflow_input : bytes :=
  (i ← seq 0 30; j ← seq 64 64; [byte_of i; byte_of j])
  ++ [byte_of 30; byte_of 64; byte_of 30; byte_of 64].


(** Eighteen byte values, once each: probability 1/18. *)
Definition letters18 : bytes :=
  ["a"; "b"; "c"; "d"; "e"; "f"; "g"; "h"; "i"; "j"; "k"; "l"; "m"; "n"; "o"; "p";
   "q"; "r"]%byte.

(** [b"9" * 1001 + b"012345678" * 1001]: ten byte values of equal count,
    the largest of them first. *)
Definition nines10010 : bytes :=
  replicate 1001 "9"%byte
  ++ concat (replicate 1001 ["0"; "1"; "2"; "3"; "4"; "5"; "6"; "7"; "8"]%byte).

(** Rounding seen on integers.  With every number written in units of
    [10 ^ E], [_fix] maps the integer [V] to [rnd E V]: it rounds [V] to a
    multiple of [10 ^ (g - E)], where [g], the exponent of the last digit
    kept, depends on the number of digits of [V] only. *)
Module rounding.
Local Open Scope Z_scope.

Definition scaled (E : Z) (x : Decimal) : Z := decimal.coef x * 10 ^ (decimal.exp x - E).

Definition grid (E V : Z) : Z :=
  Z.max (decimal.ndigits V + E - decimal.prec) decimal.Etiny.

Definition round_to (E g V : Z) : Z :=
  if E <? g then decimal.round_half_even V (g - E) * 10 ^ (g - E) else V.

Definition rnd (E V : Z) : Z := if V =? 0 then 0 else round_to E (grid E V) V.

(** A number the context leaves as it is. *)
Definition is_rounded (x : Decimal) : Prop := 0 ≤ decimal.coef x ∧ decimal.fix_ x = x.

End rounding.

(** The table of [arithmetic_compress] as a chain of intervals: every entry
    starts where the cursor stands, [start] for the first, and ends at the
    cursor plus the quotient of the count of its byte value by the total,
    both computed with the context. *)
Fixpoint interval_chain (freq : list (N * N)) (total : N) (start : Decimal)
    (table : list (N * (Decimal * Decimal))) : Prop :=
  match table with
  | [] => True
  | (byte, (low, high)) :: rest =>
      low = start ∧
      (∃ count prob,
          dict_get freq byte = Some count ∧
          decimal.div (decimal.of_int (Z.of_N count)) (decimal.of_int (Z.of_N total))
            = Some prob ∧
          high = decimal.add low prob) ∧
      interval_chain freq total high rest
  end.

(** The state of the narrowing loop is an interval of non-negative
    numbers. *)
Definition interval_ok (st : Decimal * Decimal) : Prop :=
  (0 ≤ decimal.coef st.1)%Z ∧ (0 ≤ decimal.coef st.2)%Z ∧ decimal.le st.1 st.2.

(** The interval after [rounds] rounds of the narrowing loop; after
    [len(text_bytes)] rounds it is the interval the output is taken from. *)
Definition arithmetic_interval_after (rounds : nat) (text_bytes : bytes)
    : option (Decimal * Decimal) :=
  cum_prob ← build_cum_prob (count_freq (ints text_bytes));
  narrow_loop cum_prob narrow_initial (take rounds (ints text_bytes)).


(** ** Auxiliary definitions: the heap, the tree, the code sequences *)

(** The invariant of [heapq]: no item is smaller than its parent, the item
    at [(i - 1) // 2]. *)
Definition heap_ordered (heap : list HuffmanNode) : Prop :=
  ∀ i parent child,
    (0 < i)%nat → heap !! ((i - 1) / 2)%nat = Some parent → heap !! i = Some child →
    node_freq parent ≤ node_freq child.

(** The list of [_siftdown] while [item] is on its way up: the order holds
    everywhere but between [pos] and its parent, the items below [pos] are
    not smaller than the item above it, and [item] is not larger than what
    stands at [pos]. *)
Record up_inv (heap : list HuffmanNode) (pos : nat) (item : HuffmanNode) : Prop := {
  up_pos : (pos < length heap)%nat;
  up_order : ∀ i parent child,
      (0 < i)%nat → i ≠ pos →
      heap !! ((i - 1) / 2)%nat = Some parent → heap !! i = Some child →
      node_freq parent ≤ node_freq child;
  up_skip : ∀ i above child,
      (0 < pos)%nat → (0 < i)%nat → ((i - 1) / 2)%nat = pos →
      heap !! ((pos - 1) / 2)%nat = Some above → heap !! i = Some child →
      node_freq above ≤ node_freq child;
  up_item : ∀ v, heap !! pos = Some v → node_freq item ≤ node_freq v
}.

(** The list of [_siftup] while the hole at [pos] is on its way down: the
    order holds wherever [pos] is neither the item nor its parent, and the
    items below [pos] are not smaller than the item above it. *)
Record down_inv (heap : list HuffmanNode) (pos : nat) : Prop := {
  down_order : ∀ i parent child,
      (0 < i)%nat → i ≠ pos → ((i - 1) / 2)%nat ≠ pos →
      heap !! ((i - 1) / 2)%nat = Some parent → heap !! i = Some child →
      node_freq parent ≤ node_freq child;
  down_skip : ∀ i above child,
      (0 < pos)%nat → (0 < i)%nat → ((i - 1) / 2)%nat = pos →
      heap !! ((pos - 1) / 2)%nat = Some above → heap !! i = Some child →
      node_freq above ≤ node_freq child
}.

(** The frequencies in a tree agree with the frequency table: a leaf
    carries the count of its byte value, an internal node the sum of its
    two subtrees. *)
Fixpoint weights_ok (freq : list (N * N)) (node : HuffmanNode) : Prop :=
  match node with
  | Leaf f byte => dict_get freq byte = Some f
  | Internal f l r =>
      f = node_freq l + node_freq r ∧ weights_ok freq l ∧ weights_ok freq r
  end.

(** At every internal node the left subtree, which gets the bit ['0'], is
    not heavier than the right one. *)
Fixpoint lighter_left (node : HuffmanNode) : Prop :=
  match node with
  | Leaf _ _ => True
  | Internal _ l r => node_freq l ≤ node_freq r ∧ lighter_left l ∧ lighter_left r
  end.

(** [freq[byte]], 0 for a byte value that does not occur. *)
Definition leaf_count (freq : list (N * N)) (byte : N) : N := default 0 (dict_get freq byte).

(** The share of one entry of the frequency table in a sum over the input:
    its count times what one occurrence of the byte value costs. *)
Definition weighted (f : N → nat) (entry : N * N) : nat :=
  (N.to_nat entry.2 * f entry.1)%nat.

(** What the loop of [lzw_compress] keeps about sizes after the bytes
    [processed]: one dictionary string per code below [next_code], one new
    code per emitted code, every emitted code below the [next_code] of its
    time, and no more codes than bytes. *)
Record lzw_size_inv (st : lzw_state) (processed : list N) : Prop := {
  lzw_size_next : next_code st = 256 + N.of_nat (length (encoded st));
  lzw_size_dict : size (dictionary st) = N.to_nat (next_code st);
  lzw_size_codes : ∀ i c, encoded st !! i = Some c → c < 256 + N.of_nat i;
  lzw_size_current : processed ≠ [] → s st ≠ [];
  lzw_size_length : (length (encoded st) + length (s st) ≤ length processed)%nat
}.

(** A decoder for the code sequence of [lzw_compress], which has none of
    its own: it rebuilds the strings of the dictionary from the codes.
    [table] holds the strings of the codes from 256 on, [previous] the
    string of the last code read, [output] the bytes decoded so far. *)
Record lzw_decoder : Type := mkDecoder {
  table : list (list N);
  previous : list N;
  output : list N
}.

Definition lzw_decoder_initial : lzw_decoder :=
  {| table := []; previous := []; output := [] |}.

(** The strings known once [string] is read after [previous]: the new one
    is [previous] and the first byte of [string]. *)
Definition lzw_entries (d : lzw_decoder) (string : list N) : list (list N) :=
  match previous d, string with
  | _ :: _, first :: _ => table d ++ [previous d ++ [first]]
  | _, _ => table d
  end.

(** The string of a code: a single byte, a string of the table, or, for
    the code that is about to be defined, [previous] and its own first
    byte. *)
Definition lzw_decode_code (d : lzw_decoder) (code : N) : option (list N) :=
  if code <? 256 then Some [code]
  else
    match table d !! N.to_nat (code - 256) with
    | Some string => Some string
    | None =>
        match previous d with
        | first :: _ =>
            if code =? 256 + N.of_nat (length (table d))
            then Some (previous d ++ [first]) else None
        | [] => None
        end
    end.

Definition lzw_decode_step (d : lzw_decoder) (code : N) : option lzw_decoder :=
  string ← lzw_decode_code d code;
  Some {| table := lzw_entries d string; previous := string;
          output := output d ++ string |}.

Definition lzw_decode_loop (d : lzw_decoder) (codes : list N) : option lzw_decoder :=
  fold_left (fun d code => d ≫= fun d => lzw_decode_step d code) codes (Some d).

Definition lzw_decode (codes : list N) : option (list N) :=
  output <$> lzw_decode_loop lzw_decoder_initial codes.

(** The encoder after the bytes [processed] and the decoder after the
    codes emitted so far: the decoder has every byte but the current match
    [s], and the dictionary holds the single bytes and the strings the
    decoder knows once it has read the code of [s]. *)
Record lzw_sync (st : lzw_state) (processed : list N) (d : lzw_decoder) : Prop := {
  lzw_sync_decoded : lzw_decode_loop lzw_decoder_initial (encoded st) = Some d;
  lzw_sync_output : output d ++ s st = processed;
  lzw_sync_first : previous d = [] → table d = [];
  lzw_sync_current : previous d ≠ [] → s st ≠ [];
  lzw_sync_next : next_code st = 256 + N.of_nat (length (lzw_entries d (s st)));
  lzw_sync_dictionary : ∀ k c,
      dictionary st !! k = Some c ↔
      (c < 256 ∧ k = [c]) ∨
      (256 ≤ c ∧ lzw_entries d (s st) !! N.to_nat (c - 256) = Some k)
}.

(** What the loop of [lzw_compress] keeps about the strings of the
    dictionary after the bytes [processed]: none is empty, every non-empty
    prefix of a string is a string, a string of two or more bytes occurs in
    the input read so far, and the current match is the end of that
    input. *)
Record lzw_strings_inv (st : lzw_state) (processed : list N) : Prop := {
  lzw_strings_nonempty : dictionary st !! [] = None;
  lzw_strings_prefix : ∀ k k',
      is_Some (dictionary st !! k) → k' `prefix_of` k → k' ≠ [] →
      is_Some (dictionary st !! k');
  lzw_strings_infix : ∀ k,
      is_Some (dictionary st !! k) → (2 ≤ length k)%nat →
      ∃ before after, processed = before ++ k ++ after;
  lzw_strings_current : s st `suffix_of` processed
}.
(** Code lengths against weights.  A list of pairs gives each weight a
    code length: [pair_cost] is the number of bits the weights cost, and
    [kraft M] of the lengths is Kraft's sum scaled by [2 ^ M], which for
    the lengths of a prefix-free code is at most [2 ^ M]. *)
Definition pair_cost (pairs : list (N * nat)) : N :=
  foldr N.add 0 ((fun pair : N * nat => pair.1 * N.of_nat pair.2) <$> pairs).

Definition kraft (M : nat) (lengths : list nat) : N :=
  foldr N.add 0 ((fun len : nat => 2 ^ N.of_nat (M - len)) <$> lengths).

(** The frequencies of the internal nodes of a tree, added up: the number
    of bits the tree spends on its leaves. *)
Fixpoint internal_sum (node : HuffmanNode) : N :=
  match node with
  | Leaf _ _ => 0
  | Internal f l r => f + internal_sum l + internal_sum r
  end.

Definition forest_internal (heap : list HuffmanNode) : N :=
  foldr N.add 0 (internal_sum <$> heap).

(** A list of codes none of which is a prefix of another. *)
Fixpoint prefix_free (codes : list str) : Prop :=
  match codes with
  | [] => True
  | code :: codes' =>
      (∀ code', code' ∈ codes' → ¬ code `prefix_of` code' ∧ ¬ code' `prefix_of` code) ∧
      prefix_free codes'
  end.

(** The codes that start with the bit [bit], without it. *)
Definition codes_after (bit : ascii) (codes : list str) : list str :=
  omap (fun code : str =>
          match code with
          | first :: code' => if decide (first = bit) then Some code' else None
          | [] => None
          end) codes.

(** * Properties *)

(** ** Dicts and the frequency table *)

Section dict.
Context {V : Type}.
Implicit Types (d : list (N * V)) (k : N) (v : V).

Lemma dict_get_set_eq d k v : dict_get (dict_set d k v) k = Some v.
Proof.
  induction d as [|[k' v'] d IH]; simpl.
  - by rewrite N.eqb_refl.
  - destruct (N.eqb_spec k' k) as [->|Hne]; simpl.
    + by rewrite N.eqb_refl.
    + by destruct (N.eqb_spec k' k).
Qed.

Lemma dict_get_set_ne d k k' v :
  k ≠ k' → dict_get (dict_set d k v) k' = dict_get d k'.
Proof.
  intros Hne. induction d as [|[k0 v0] d IH]; simpl.
  - by destruct (N.eqb_spec k k').
  - destruct (N.eqb_spec k0 k) as [->|Hne0]; simpl.
    + by destruct (N.eqb_spec k k').
    + by rewrite IH.
Qed.

Lemma dict_get_Some_elem d k v : dict_get d k = Some v → (k, v) ∈ d.
Proof.
  induction d as [|[k0 v0] d IH]; simpl; [done|].
  destruct (N.eqb_spec k0 k) as [->|Hne].
  - intros [= ->]. left.
  - intros H. right. by apply IH.
Qed.

Lemma dict_get_is_Some d k : is_Some (dict_get d k) ↔ k ∈ dict_keys d.
Proof.
  unfold dict_keys. induction d as [|[k0 v0] d IH]; simpl.
  - split; [by intros [? ?]|by intros ?%elem_of_nil].
  - destruct (N.eqb_spec k0 k) as [->|Hne].
    + split; [intros _; left|by eauto].
    + rewrite IH. split; [by right|].
      intros [?|?]%elem_of_cons; [congruence|done].
Qed.

Lemma dict_get_None d k : dict_get d k = None ↔ k ∉ dict_keys d.
Proof. rewrite <-dict_get_is_Some, eq_None_not_Some. done. Qed.

Lemma dict_keys_set_old d k v :
  k ∈ dict_keys d → dict_keys (dict_set d k v) = dict_keys d.
Proof.
  unfold dict_keys. induction d as [|[k0 v0] d IH]; simpl.
  - by intros ?%elem_of_nil.
  - destruct (N.eqb_spec k0 k) as [->|Hne]; [done|].
    intros [?|?]%elem_of_cons; [congruence|]. simpl. by rewrite IH.
Qed.

Lemma dict_keys_set_new d k v :
  k ∉ dict_keys d → dict_keys (dict_set d k v) = dict_keys d ++ [k].
Proof.
  unfold dict_keys. induction d as [|[k0 v0] d IH]; simpl; [done|].
  intros Hk. destruct (N.eqb_spec k0 k) as [->|Hne].
  - exfalso. apply Hk. left.
  - simpl. rewrite IH; [done|]. intros ?. apply Hk. by right.
Qed.

Lemma dict_set_new d k v : k ∉ dict_keys d → dict_set d k v = d ++ [(k, v)].
Proof.
  unfold dict_keys. induction d as [|[k0 v0] d IH]; simpl; [done|].
  intros Hk. destruct (N.eqb_spec k0 k) as [->|Hne].
  - exfalso. apply Hk. left.
  - rewrite IH; [done|]. intros ?. apply Hk. by right.
Qed.

Lemma dict_keys_set_elem d k k' v :
  k' ∈ dict_keys (dict_set d k v) ↔ k' = k ∨ k' ∈ dict_keys d.
Proof.
  destruct (decide (k ∈ dict_keys d)) as [Hin|Hout].
  - rewrite dict_keys_set_old by done. split; [by right|]. by intros [->|?].
  - rewrite dict_keys_set_new by done. rewrite elem_of_app, list_elem_of_singleton. tauto.
Qed.

Lemma dict_keys_set_NoDup d k v :
  NoDup (dict_keys d) → NoDup (dict_keys (dict_set d k v)).
Proof.
  intros Hd. destruct (decide (k ∈ dict_keys d)) as [Hin|Hout].
  - by rewrite dict_keys_set_old.
  - rewrite dict_keys_set_new by done. apply NoDup_app. split_and!; [done| |apply NoDup_singleton].
    intros x Hx ->%list_elem_of_singleton. done.
Qed.
End dict.

Lemma count_freq_snoc text byte :
  count_freq (text ++ [byte]) = freq_incr (count_freq text) byte.
Proof. unfold count_freq. by rewrite fold_left_app. Qed.

Lemma count_freq_keys_NoDup text : NoDup (dict_keys (count_freq text)).
Proof.
  induction text as [|b text IH] using rev_ind; [apply NoDup_nil_2|].
  rewrite count_freq_snoc. by apply dict_keys_set_NoDup.
Qed.

Lemma count_freq_keys_elem text k : k ∈ dict_keys (count_freq text) ↔ k ∈ text.
Proof.
  induction text as [|b text IH] using rev_ind.
  - split; by intros ?%elem_of_nil.
  - rewrite count_freq_snoc. unfold freq_incr.
    rewrite dict_keys_set_elem, elem_of_app, list_elem_of_singleton, IH. tauto.
Qed.

Lemma count_freq_nil_inv text : count_freq text = [] → text = [].
Proof.
  destruct text as [|b text]; [done|]. intros H.
  assert (b ∈ dict_keys (count_freq (b :: text))) as Hb by (apply count_freq_keys_elem; left).
  rewrite H in Hb. by apply elem_of_nil in Hb.
Qed.

(** ** heapq keeps the items of the heap

    What the Huffman claims need from the heap is independent of the order
    in which it hands out its items: pushing adds the item, popping removes
    one, nothing else changes. *)

Module heapq_facts.
Import heapq.

Section insert_perm.
Context {A : Type}.
Implicit Types (l : list A) (x y : A).

Lemma insert_cons_perm l j x y :
  (j < length l)%nat → x :: <[j := y]> l ≡ₚ y :: <[j := x]> l.
Proof.
  revert j. induction l as [|a l IH]; intros [|j] Hj; simpl in *; try lia.
  - apply perm_swap.
  - rewrite perm_swap, IH by lia. apply perm_swap.
Qed.

(** Writing [y], the item at [i], to [j] and then [x] to [i] is writing
    [x] to [j], up to the order. *)
Lemma insert_swap_perm l i j x y :
  l !! i = Some y → i ≠ j → (j < length l)%nat →
  <[i := x]> (<[j := y]> l) ≡ₚ <[j := x]> l.
Proof.
  revert i j. induction l as [|a l IH]; intros [|i] [|j] Hi Hne Hj;
    simpl in *; try done; try lia.
  - injection Hi as ->. apply insert_cons_perm. lia.
  - rewrite <-(list_insert_id l i y) at 2 by done.
    apply insert_cons_perm. by eapply lookup_lt_Some.
  - f_equiv. apply IH; [done|congruence|lia].
Qed.
End insert_perm.

Lemma siftdown_loop_perm fuel heap startpos pos item :
  (pos < length heap)%nat →
  siftdown_loop fuel heap startpos pos item ≡ₚ <[pos := item]> heap.
Proof.
  revert heap pos. induction fuel as [|fuel IH]; intros heap pos Hpos;
    cbn [siftdown_loop]; [done|].
  case_bool_decide as Hlt; [|done].
  assert ((pos - 1) / 2 < pos)%nat as Hparent.
  { apply Nat.Div0.div_lt_upper_bound; lia. }
  destruct (heap !! ((pos - 1) / 2)%nat) as [parent|] eqn:Hp.
  - destruct (node_lt item parent); [|done].
    rewrite IH by (rewrite length_insert; lia).
    apply insert_swap_perm; [done|lia|done].
  - apply lookup_ge_None in Hp. lia.
Qed.

Lemma siftdown_perm heap startpos pos : siftdown heap startpos pos ≡ₚ heap.
Proof.
  unfold siftdown. destruct (heap !! pos) as [newitem|] eqn:Hp; [|done].
  rewrite siftdown_loop_perm by (by eapply lookup_lt_Some).
  by rewrite list_insert_id.
Qed.

Lemma siftup_loop_perm fuel heap pos item heap' pos' :
  (pos < length heap)%nat →
  siftup_loop fuel heap pos = (heap', pos') →
  (pos' < length heap')%nat ∧ <[pos' := item]> heap' ≡ₚ <[pos := item]> heap.
Proof.
  revert heap pos. induction fuel as [|fuel IH]; intros heap pos Hpos;
    cbn [siftup_loop].
  { by intros [= <- <-]. }
  case_bool_decide as Hlt; [|by intros [= <- <-]].
  set (childpos := match heap !! (2 * pos + 1)%nat, heap !! (2 * pos + 1 + 1)%nat with
                   | Some c, Some r =>
                       if negb (node_lt c r) then (2 * pos + 1 + 1)%nat else (2 * pos + 1)%nat
                   | _, _ => (2 * pos + 1)%nat
                   end).
  assert (pos < childpos)%nat as Hchild.
  { unfold childpos. repeat case_match; lia. }
  destruct (heap !! childpos) as [child|] eqn:Hc; [|by intros [= <- <-]].
  intros Hrec. apply IH in Hrec as [Hlen Hperm].
  - split; [done|]. rewrite Hperm.
    apply insert_swap_perm; [done|lia|done].
  - rewrite length_insert. by eapply lookup_lt_Some.
Qed.

Lemma siftup_perm heap pos : siftup heap pos ≡ₚ heap.
Proof.
  unfold siftup. destruct (heap !! pos) as [newitem|] eqn:Hp; [|done].
  destruct (siftup_loop (length heap) heap pos) as [heap' pos'] eqn:Hloop.
  eapply (siftup_loop_perm _ _ _ newitem) in Hloop as [_ Hperm];
    [|by eapply lookup_lt_Some].
  by rewrite siftdown_perm, Hperm, list_insert_id.
Qed.

Lemma heappush_perm heap item : heappush heap item ≡ₚ item :: heap.
Proof.
  unfold heappush. rewrite siftdown_perm. by rewrite Permutation_app_comm.
Qed.

Lemma heappop_perm heap item heap' :
  heappop heap = Some (item, heap') → heap ≡ₚ item :: heap'.
Proof.
  unfold heappop. destruct (last heap) as [lastelt|] eqn:Hlast; [|done].
  apply last_Some in Hlast as [rest ->].
  rewrite removelast_last. destruct rest as [|returnitem rest].
  - by intros [= <- <-].
  - intros [= <- <-]. rewrite siftup_perm. simpl.
    f_equiv. apply Permutation_app_comm.
Qed.

Lemma heappop_is_Some heap : heap ≠ [] → is_Some (heappop heap).
Proof.
  intros Hne. unfold heappop.
  destruct (last heap) as [lastelt|] eqn:Hlast.
  - destruct (removelast heap); eauto.
  - by apply last_None in Hlast.
Qed.

Lemma heappush_length heap item : length (heappush heap item) = S (length heap).
Proof. by rewrite heappush_perm. Qed.

Lemma heappop_length heap item heap' :
  heappop heap = Some (item, heap') → length heap = S (length heap').
Proof. intros H%heappop_perm. by rewrite H. Qed.

End heapq_facts.

(** ** The Huffman tree and its code table *)

Lemma forest_bytes_cons node heap :
  forest_bytes (node :: heap) = leaf_bytes node ++ forest_bytes heap.
Proof. done. Qed.

Lemma forest_bytes_perm heap heap' :
  heap ≡ₚ heap' → forest_bytes heap ≡ₚ forest_bytes heap'.
Proof. unfold forest_bytes. by intros ->. Qed.

Lemma initial_heap_from freq heap :
  let heap' := fold_left (fun heap '(byte, count) => heapq.heappush heap (Leaf count byte))
                 freq heap in
  forest_bytes heap' ≡ₚ forest_bytes heap ++ dict_keys freq ∧
  length heap' = (length heap + length freq)%nat.
Proof.
  revert heap. induction freq as [|[byte count] freq IH]; intros heap; simpl.
  - rewrite app_nil_r. split; [done|lia].
  - destruct (IH (heapq.heappush heap (Leaf count byte))) as [Hperm Hlen].
    split.
    + rewrite Hperm, (forest_bytes_perm _ _ (heapq_facts.heappush_perm _ _)).
      rewrite forest_bytes_cons. simpl. apply Permutation_middle.
    + rewrite Hlen, heapq_facts.heappush_length. lia.
Qed.

Lemma initial_heap_bytes freq : forest_bytes (initial_heap freq) ≡ₚ dict_keys freq.
Proof. by destruct (initial_heap_from freq []) as [H _]. Qed.

Lemma initial_heap_length freq : length (initial_heap freq) = length freq.
Proof. by destruct (initial_heap_from freq []) as [_ H]. Qed.

(** The loop ends within its fuel, with at most one tree, which carries the
    bytes of the whole heap. *)
Lemma merge_loop_spec fuel heap :
  (length heap ≤ fuel)%nat →
  ∃ heap', merge_loop fuel heap = Some heap' ∧
           forest_bytes heap' ≡ₚ forest_bytes heap ∧
           length heap' = (length heap `min` 1)%nat.
Proof.
  revert heap. induction fuel as [|fuel IH]; intros heap Hlen; cbn [merge_loop].
  - exists heap. destruct heap; simpl in *; [done|lia].
  - case_bool_decide as Hlt.
    + destruct (heapq_facts.heappop_is_Some heap) as [[l heap1] Hpop1].
      { intros ->. simpl in Hlt. lia. }
      pose proof (heapq_facts.heappop_perm _ _ _ Hpop1) as Hperm1.
      pose proof (heapq_facts.heappop_length _ _ _ Hpop1) as Hlen1.
      destruct (heapq_facts.heappop_is_Some heap1) as [[r heap2] Hpop2].
      { intros ->. simpl in Hlen1. lia. }
      pose proof (heapq_facts.heappop_perm _ _ _ Hpop2) as Hperm2.
      pose proof (heapq_facts.heappop_length _ _ _ Hpop2) as Hlen2.
      rewrite Hpop1. simpl. rewrite Hpop2. simpl.
      set (merged := Internal (node_freq l + node_freq r) l r).
      destruct (IH (heapq.heappush heap2 merged)) as (heap' & Hrun & Hbytes & Hlen').
      { rewrite heapq_facts.heappush_length. lia. }
      exists heap'. split_and!; [done| |].
      * rewrite Hbytes, (forest_bytes_perm _ _ (heapq_facts.heappush_perm _ _)).
        rewrite (forest_bytes_perm _ _ Hperm1), !forest_bytes_cons.
        rewrite (forest_bytes_perm _ _ Hperm2), !forest_bytes_cons.
        simpl. by rewrite (assoc app).
      * rewrite Hlen', heapq_facts.heappush_length. lia.
    + exists heap. split_and!; [done..|]. lia.
Qed.

Lemma huffman_root_nil : huffman_root [] = Some None.
Proof. done. Qed.

Lemma huffman_root_spec freq :
  freq ≠ [] →
  ∃ root, huffman_root freq = Some (Some root) ∧ leaf_bytes root ≡ₚ dict_keys freq.
Proof.
  intros Hne. unfold huffman_root.
  destruct (merge_loop_spec (length (initial_heap freq)) (initial_heap freq))
    as (heap & -> & Hbytes & Hlen); [done|].
  rewrite initial_heap_length in Hlen. rewrite initial_heap_bytes in Hbytes.
  destruct freq as [|kv freq]; [done|]. simpl in Hlen.
  destruct heap as [|root [|??]]; simpl in Hlen; try lia.
  exists root. split; [done|].
  rewrite <-Hbytes, forest_bytes_cons. by rewrite app_nil_r.
Qed.

Lemma tree_codes_keys node current_code :
  (tree_codes node current_code).*1 = leaf_bytes node.
Proof.
  revert current_code. induction node as [|f l IHl r IHr]; intros current_code; simpl; [done|].
  by rewrite fmap_app, IHl, IHr.
Qed.

Lemma tree_codes_prefix node current_code byte code :
  (byte, code) ∈ tree_codes node current_code → current_code `prefix_of` code.
Proof.
  revert current_code. induction node as [|f l IHl r IHr]; intros current_code; simpl.
  - by intros [= _ ->]%list_elem_of_singleton.
  - intros [H%IHl|H%IHr]%elem_of_app; by eapply prefix_app_l.
Qed.

Lemma tree_codes_leaf node current_code byte code :
  (byte, code) ∈ tree_codes node current_code → byte ∈ leaf_bytes node.
Proof.
  intros H. rewrite <-(tree_codes_keys node current_code).
  by apply (list_elem_of_fmap_2 fst) in H.
Qed.

(** In one tree no code is a prefix of the code of another leaf. *)
Lemma tree_codes_prefix_free node current_code b1 c1 b2 c2 :
  NoDup (leaf_bytes node) →
  (b1, c1) ∈ tree_codes node current_code →
  (b2, c2) ∈ tree_codes node current_code →
  c1 `prefix_of` c2 → b1 = b2.
Proof.
  assert (∀ (pre c c' : str) x y, x ≠ y →
            pre ++ [x] `prefix_of` c → pre ++ [y] `prefix_of` c' → ¬ c `prefix_of` c') as Hsplit.
  { intros pre c c' x y Hxy Hc Hc' Hcc'.
    assert (pre ++ [x] `prefix_of` c') as Hx by (by etrans).
    destruct (prefix_weak_total _ _ _ Hx Hc') as [H|H];
      apply prefix_app_inv, prefix_cons_inv_1 in H; congruence. }
  revert current_code. induction node as [|f l IHl r IHr]; intros current_code Hnd; simpl.
  - by intros [= -> _]%list_elem_of_singleton [= -> _]%list_elem_of_singleton.
  - simpl in Hnd. apply NoDup_app in Hnd as (Hl & Hlr & Hr).
    intros [H1|H1]%elem_of_app [H2|H2]%elem_of_app Hpre.
    + by eapply IHl.
    + exfalso. apply tree_codes_prefix in H1, H2.
      by eapply (Hsplit current_code c1 c2 "0"%char "1"%char).
    + exfalso. apply tree_codes_prefix in H1, H2.
      by eapply (Hsplit current_code c1 c2 "1"%char "0"%char).
    + by eapply IHr.
Qed.

Lemma build_code_lookup_other node current_code code_table byte :
  byte ∉ leaf_bytes node →
  build_code node current_code code_table !! byte = code_table !! byte.
Proof.
  revert current_code code_table.
  induction node as [|f l IHl r IHr]; intros current_code code_table; simpl.
  - intros H. apply lookup_insert_ne. intros ->. apply H. left.
  - intros H. rewrite IHr, IHl; [done|..]; intros ?; apply H, elem_of_app; auto.
Qed.

Lemma build_code_lookup node current_code code_table byte code :
  NoDup (leaf_bytes node) →
  (byte, code) ∈ tree_codes node current_code →
  build_code node current_code code_table !! byte = Some code.
Proof.
  revert current_code code_table.
  induction node as [|f l IHl r IHr]; intros current_code code_table; simpl.
  - intros _ [= -> ->]%list_elem_of_singleton. apply lookup_insert_eq.
  - intros (Hl & Hlr & Hr)%NoDup_app [H|H]%elem_of_app.
    + rewrite build_code_lookup_other; [by apply IHl|].
      apply Hlr. by eapply tree_codes_leaf.
    + by apply IHr.
Qed.

Lemma build_code_lookup_inv node current_code byte code :
  NoDup (leaf_bytes node) →
  build_code node current_code ∅ !! byte = Some code →
  (byte, code) ∈ tree_codes node current_code.
Proof.
  intros Hnd Hlook. destruct (decide (byte ∈ leaf_bytes node)) as [Hin|Hout].
  - rewrite <-(tree_codes_keys node current_code) in Hin.
    apply list_elem_of_fmap in Hin as ([b c] & -> & Hin). simpl in *.
    by rewrite (build_code_lookup _ _ _ _ _ Hnd Hin) in Hlook; injection Hlook as ->.
  - by rewrite build_code_lookup_other in Hlook.
Qed.

(** The table of a non-empty input is the table of a tree whose leaves are
    the byte values of the input, each once. *)
Lemma huffman_code_table_tree (text_bytes : bytes) :
  text_bytes ≠ [] →
  ∃ root, huffman_code_table text_bytes = Some (build_code root [] ∅) ∧
          NoDup (leaf_bytes root) ∧
          ∀ byte, byte ∈ leaf_bytes root ↔ byte ∈ ints text_bytes.
Proof.
  intros Hne. unfold huffman_code_table.
  destruct (huffman_root_spec (count_freq (ints text_bytes))) as (root & -> & Hbytes).
  { intros H%count_freq_nil_inv. by destruct text_bytes. }
  exists root. split_and!; [done| |].
  - rewrite Hbytes. apply count_freq_keys_NoDup.
  - intros byte. by rewrite Hbytes, count_freq_keys_elem.
Qed.

Lemma huffman_code_table_nil : huffman_code_table [] = Some ∅.
Proof. done. Qed.

(** C1. For every non-empty input the code table is built, gives a code to
    exactly the byte values of the input, and is prefix-free: the code of
    one byte value is never a prefix of the code of another. *)
Theorem huffman_code_table_prefix_free (text_bytes : bytes) :
  text_bytes ≠ [] →
  ∃ code_table,
    huffman_code_table text_bytes = Some code_table ∧
    (∀ byte, byte ∈ ints text_bytes ↔ is_Some (code_table !! byte)) ∧
    (∀ b1 b2 c1 c2,
       b1 ∈ ints text_bytes → b2 ∈ ints text_bytes → b1 ≠ b2 →
       code_table !! b1 = Some c1 → code_table !! b2 = Some c2 →
       ¬ c1 `prefix_of` c2).
Proof.
  intros Hne.
  destruct (huffman_code_table_tree text_bytes Hne) as (root & -> & Hnd & Hbytes).
  eexists. split; [done|]. split.
  - intros byte. rewrite <-Hbytes. split.
    + rewrite <-(tree_codes_keys root []).
      intros ([b c] & -> & Hin)%list_elem_of_fmap. simpl.
      by rewrite (build_code_lookup _ _ _ _ _ Hnd Hin).
    + intros [code Hcode]. by eapply tree_codes_leaf, build_code_lookup_inv.
  - intros b1 b2 c1 c2 _ _ Hb H1 H2 Hpre. apply Hb.
    apply build_code_lookup_inv in H1, H2; [|done..].
    by eapply tree_codes_prefix_free.
Qed.

Lemma huffman_code_table_prefix_free_witness :
  ∃ code_table,
    huffman_code_table ["A"; "A"; "A"; "A"; "A"; "B"; "B"; "B"; "C"; "C"]%byte
      = Some code_table ∧
    (∀ byte, byte ∈ ints ["A"; "A"; "A"; "A"; "A"; "B"; "B"; "B"; "C"; "C"]%byte
             ↔ is_Some (code_table !! byte)) ∧
    (∀ b1 b2 c1 c2,
       b1 ∈ ints ["A"; "A"; "A"; "A"; "A"; "B"; "B"; "B"; "C"; "C"]%byte →
       b2 ∈ ints ["A"; "A"; "A"; "A"; "A"; "B"; "B"; "B"; "C"; "C"]%byte → b1 ≠ b2 →
       code_table !! b1 = Some c1 → code_table !! b2 = Some c2 →
       ¬ c1 `prefix_of` c2).
Proof.
  apply (huffman_code_table_prefix_free
           ["A"; "A"; "A"; "A"; "A"; "B"; "B"; "B"; "C"; "C"]%byte).
  discriminate.
Defined.

(** ** BitPacker *)

Lemma is_bit_value c : is_bit c → bit_value c = Some (if decide (c = "1"%char) then 1 else 0).
Proof. by intros [-> | ->]. Qed.

Lemma bit_value_is_bit c : is_Some (bit_value c) → is_bit c.
Proof.
  unfold bit_value, is_bit.
  destruct (Ascii.eqb_spec c "0"); [by left|].
  destruct (Ascii.eqb_spec c "1"); [by right|]. by intros [? ?].
Qed.

Lemma int2_from_is_bit acc s : is_Some (int2_from acc s) → Forall is_bit s.
Proof.
  revert acc. induction s as [|c s IH]; intros acc; simpl; [by constructor|].
  destruct (bit_value c) as [d|] eqn:Hc; simpl; [|by intros [? ?]].
  intros H. constructor; [by apply bit_value_is_bit; eauto|by eapply IH].
Qed.

Lemma pad_bits_spec bits :
  ∃ padding : nat,
    (padding < 8)%nat ∧ pad_bits bits = bits ++ replicate padding "0"%char ∧
    (length (pad_bits bits) mod 8 = 0)%nat.
Proof.
  unfold pad_bits.
  pose proof (Nat.mod_upper_bound (length bits) 8 ltac:(lia)) as Hr.
  pose proof (Nat.div_mod_eq (length bits) 8) as Hdiv.
  case_bool_decide as Hpad.
  - exists (8 - length bits mod 8)%nat. split_and!; [lia|done|].
    rewrite length_app, length_replicate.
    replace (length bits + (8 - length bits mod 8))%nat
      with ((1 + length bits / 8) * 8)%nat by lia.
    apply Nat.Div0.mod_mul.
  - exists 0%nat. cbn [replicate]. rewrite app_nil_r. split_and!; [lia|done|lia].
Qed.

Lemma pad_bits_is_bit bits : Forall is_bit bits → Forall is_bit (pad_bits bits).
Proof.
  intros H. destruct (pad_bits_spec bits) as (k & _ & -> & _).
  apply Forall_app. split; [done|]. apply Forall_replicate. by left.
Qed.

Lemma range_step_8 m : range_step (8 * m) 8 = map (fun k => (k * 8)%nat) (seq 0 m).
Proof.
  unfold range_step. do 2 f_equal.
  replace (8 * m + 8 - 1)%nat with (7 + m * 8)%nat by lia.
  by rewrite Nat.div_add.
Qed.

(** The eight characters of a slice. *)
Lemma slice_8 (s : str) i :
  (i + 8 ≤ length s)%nat →
  ∃ c0 c1 c2 c3 c4 c5 c6 c7,
    slice s i (i + 8) = [c0; c1; c2; c3; c4; c5; c6; c7] ∧
    s !! i = Some c0 ∧ s !! (i + 1)%nat = Some c1 ∧ s !! (i + 2)%nat = Some c2 ∧
    s !! (i + 3)%nat = Some c3 ∧ s !! (i + 4)%nat = Some c4 ∧ s !! (i + 5)%nat = Some c5 ∧
    s !! (i + 6)%nat = Some c6 ∧ s !! (i + 7)%nat = Some c7.
Proof.
  intros Hlen. unfold slice. replace (i + 8 - i)%nat with 8%nat by lia.
  pose proof (length_drop s i) as Hd.
  assert (∀ j, drop i s !! j = s !! (i + j)%nat) as Hlook by (intros; apply lookup_drop).
  destruct (drop i s) as [|c0 [|c1 [|c2 [|c3 [|c4 [|c5 [|c6 [|c7 t]]]]]]]];
    simpl in Hd; try lia.
  exists c0, c1, c2, c3, c4, c5, c6, c7. split; [done|].
  pose proof (Hlook 0%nat) as Hlook0. rewrite Nat.add_0_r in Hlook0.
  by rewrite <-Hlook0, <-(Hlook 1%nat), <-(Hlook 2%nat), <-(Hlook 3%nat),
    <-(Hlook 4%nat), <-(Hlook 5%nat), <-(Hlook 6%nat), <-(Hlook 7%nat).
Qed.

Lemma bit_at_lookup (s : str) j c :
  s !! j = Some c → bit_at s j = if decide (c = "1"%char) then 1 else 0.
Proof.
  intros H. unfold bit_at. rewrite H.
  destruct (decide (c = "1"%char)) as [->|Hne]; [by rewrite decide_True|].
  rewrite decide_False; [done|]. by intros [= ?].
Qed.

Lemma int2_slice (s : str) k :
  Forall is_bit s → (8 * k + 8 ≤ length s)%nat →
  int2 (slice s (k * 8) (k * 8 + 8)) = Some (place_value s k).
Proof.
  intros Hbits Hlen.
  destruct (slice_8 s (k * 8)) as
    (c0 & c1 & c2 & c3 & c4 & c5 & c6 & c7 & -> & H0 & H1 & H2 & H3 & H4 & H5 & H6 & H7);
    [lia|].
  unfold place_value. replace (8 * k)%nat with (k * 8)%nat by lia.
  rewrite (bit_at_lookup _ _ _ H0), (bit_at_lookup _ _ _ H1), (bit_at_lookup _ _ _ H2),
    (bit_at_lookup _ _ _ H3), (bit_at_lookup _ _ _ H4), (bit_at_lookup _ _ _ H5),
    (bit_at_lookup _ _ _ H6), (bit_at_lookup _ _ _ H7).
  rewrite Forall_lookup in Hbits.
  apply Hbits, is_bit_value in H0, H1, H2, H3, H4, H5, H6, H7.
  unfold int2. cbn [int2_from].
  rewrite H0, H1, H2, H3, H4, H5, H6, H7. cbn [mbind option_bind]. f_equal. lia.
Qed.

Lemma place_value_lt bits i : place_value bits i < 256.
Proof. unfold place_value, bit_at. repeat case_decide; lia. Qed.

(** The packing lines of the encoders, on a bit string. *)
Lemma bytes_list_of_pad bits :
  Forall is_bit bits →
  ∃ bytes_list, bytes_list_of (pad_bits bits) = Some bytes_list ∧ is_packing bits bytes_list.
Proof.
  intros Hbits. pose proof (pad_bits_is_bit _ Hbits) as Hpbits.
  destruct (pad_bits_spec bits) as (padding & Hpad & Heq & Hmod).
  apply Nat.Div0.div_exact in Hmod. set (m := (length (pad_bits bits) / 8)%nat) in *.
  exists (map (place_value (pad_bits bits)) (seq 0 m)). split.
  - unfold bytes_list_of. rewrite Hmod, range_step_8. apply mapM_Some.
    apply Forall2_fmap, Forall_Forall2_diag, Forall_forall.
    intros k [_ Hk]%elem_of_seq. simpl. apply int2_slice; [done|lia].
  - exists padding. rewrite <-Heq, length_map, length_seq. split_and!; [done..|].
    intros i Hi. rewrite list_lookup_fmap, lookup_seq_lt by done. done.
Qed.

(** Conversely the packing lines fail on a string that has another
    character. *)
Lemma bytes_list_of_pad_is_bit bits :
  is_Some (bytes_list_of (pad_bits bits)) → Forall is_bit bits.
Proof.
  intros [bytes_list Hsome].
  destruct (pad_bits_spec bits) as (padding & Hpad & Heq & Hmod).
  apply Nat.Div0.div_exact in Hmod. set (m := (length (pad_bits bits) / 8)%nat) in *.
  unfold bytes_list_of in Hsome. rewrite Hmod, range_step_8 in Hsome.
  apply mapM_Some in Hsome.
  assert (Forall is_bit (pad_bits bits)) as Hall.
  { apply Forall_lookup. intros j c Hj.
    pose proof (lookup_lt_Some _ _ _ Hj) as Hlt.
    assert (j / 8 < m)%nat as Hk by (apply Nat.Div0.div_lt_upper_bound; lia).
    apply Forall2_fmap_l in Hsome.
    destruct (Forall2_lookup_l _ _ _ (j / 8)%nat (j / 8)%nat Hsome) as (v & _ & Hv).
    { by apply lookup_seq_lt. }
    unfold compose, int2 in Hv.
    destruct (slice_8 (pad_bits bits) (j / 8 * 8)) as
      (c0 & c1 & c2 & c3 & c4 & c5 & c6 & c7 & Hs & H0 & H1 & H2 & H3 & H4 & H5 & H6 & H7);
      [lia|].
    rewrite Hs in Hv.
    assert (Forall is_bit [c0; c1; c2; c3; c4; c5; c6; c7]) as Hchunk.
    { apply (int2_from_is_bit 0). by rewrite Hv. }
    pose proof (Nat.div_mod_eq j 8) as Hdm.
    pose proof (Nat.mod_upper_bound j 8 ltac:(lia)) as Hr.
    assert (∃ r, (r < 8)%nat ∧ j = (j / 8 * 8 + r)%nat) as (r & Hr8 & Hjr)
      by (exists (j mod 8)%nat; lia).
    rewrite Hjr in Hj.
    repeat (apply Forall_cons in Hchunk as [? Hchunk]).
    destruct r as [|[|[|[|[|[|[|[|r]]]]]]]]; try lia;
      rewrite ?Nat.add_0_r in Hj; congruence. }
  rewrite Heq in Hall. by apply Forall_app in Hall as [? _].
Qed.

Lemma write_bin_packing bits bytes_list :
  is_packing bits bytes_list → is_Some (write_bin bytes_list).
Proof.
  intros (padding & _ & _ & Hval). unfold write_bin.
  apply mapM_is_Some, Forall_lookup. intros i n Hi. simpl.
  rewrite (Hval i) in Hi by (by eapply lookup_lt_Some). injection Hi as <-.
  pose proof (place_value_lt (bits ++ replicate padding "0"%char) i) as Hlt.
  destruct (Byte.of_N _) eqn:Hb; [done|].
  apply Byte.of_N_None_iff in Hb. lia.
Qed.

(** ** huffman_compress runs to its end *)

Lemma tree_codes_is_bit node current_code byte code :
  Forall is_bit current_code →
  (byte, code) ∈ tree_codes node current_code → Forall is_bit code.
Proof.
  revert current_code. induction node as [|f l IHl r IHr]; intros current_code Hpre; simpl.
  - by intros [= _ ->]%list_elem_of_singleton.
  - intros [H|H]%elem_of_app.
    + eapply IHl; [|done]. apply Forall_app. split; [done|].
      apply Forall_singleton. by left.
    + eapply IHr; [|done]. apply Forall_app. split; [done|].
      apply Forall_singleton. by right.
Qed.

Lemma mapM_Forall {A B : Type} (f : A → option B) (P : B → Prop) (l : list A) :
  Forall (fun x => ∃ y, f x = Some y ∧ P y) l →
  ∃ k, mapM f l = Some k ∧ Forall P k.
Proof.
  induction 1 as [|x l (y & Hy & HP) _ (k & Hk & HPk)].
  - by exists [].
  - exists (y :: k). split; [|by constructor].
    apply mapM_Some. constructor; [done|]. by apply mapM_Some.
Qed.

Lemma mapM_replicate {A B : Type} (f : A → option B) (x : A) (y : B) (n : nat) :
  f x = Some y → mapM f (replicate n x) = Some (replicate n y).
Proof.
  intros Hxy. apply mapM_Some. induction n as [|n IH]; simpl; by constructor.
Qed.

Lemma concat_replicate_nil {A : Type} (n : nat) : concat (replicate n (@nil A)) = [].
Proof. induction n as [|n IH]; simpl; done. Qed.

(** Every byte of the input has a code, and the codes are bit strings. *)
Lemma huffman_bits_spec (text_bytes : bytes) :
  ∃ encoded_bits, huffman_bits text_bytes = Some encoded_bits ∧ Forall is_bit encoded_bits.
Proof.
  unfold huffman_bits. destruct text_bytes as [|b0 text].
  { exists []. by rewrite huffman_code_table_nil. }
  destruct (huffman_code_table_tree (b0 :: text)) as (root & -> & Hnd & Hbytes); [done|].
  cbn [mbind option_bind].
  assert (Forall (fun byte => ∃ code, build_code root [] ∅ !! byte = Some code ∧
                                      Forall is_bit code) (ints (b0 :: text))) as Hall.
  { apply Forall_forall. intros byte Hin. apply Hbytes in Hin.
    rewrite <-(tree_codes_keys root []) in Hin.
    apply list_elem_of_fmap in Hin as ([b c] & -> & Hin). exists c. split.
    - by apply build_code_lookup.
    - by eapply tree_codes_is_bit. }
  destruct (mapM_Forall _ _ _ Hall) as (codes & -> & Hcodes).
  exists (concat codes). split; [done|]. by apply Forall_concat.
Qed.

Lemma huffman_run_spec (text_bytes : bytes) :
  ∃ encoded_bits bytes_list file,
    huffman_bits text_bytes = Some encoded_bits ∧
    huffman_run text_bytes = Some (bytes_list, file, encode_result text_bytes bytes_list) ∧
    is_packing encoded_bits bytes_list.
Proof.
  destruct (huffman_bits_spec text_bytes) as (bits & Hbits & Hbit).
  destruct (bytes_list_of_pad bits Hbit) as (bytes_list & Hlist & Hpack).
  destruct (write_bin_packing _ _ Hpack) as [file Hfile].
  exists bits, bytes_list, file. split_and!; [done| |done].
  unfold huffman_run. rewrite Hbits. cbn [mbind option_bind].
  rewrite Hlist. cbn [mbind option_bind]. by rewrite Hfile.
Qed.

Lemma ints_replicate n byte : ints (replicate n byte) = replicate n (Byte.to_N byte).
Proof. induction n as [|n IH]; simpl; [done|]. by rewrite <-IH. Qed.

Lemma count_freq_replicate n k :
  count_freq (replicate (S n) k) = [(k, N.of_nat (S n))].
Proof.
  induction n as [|n IH]; [done|].
  rewrite replicate_S_end, count_freq_snoc, IH. unfold freq_incr. simpl.
  rewrite N.eqb_refl. simpl. do 2 f_equal. lia.
Qed.

Lemma huffman_root_single k c : huffman_root [(k, c)] = Some (Some (Leaf c k)).
Proof. reflexivity. Qed.

(** C6. On an input that repeats one byte value the only code is the empty
    string: [huffman_compress] runs to its end and writes no byte at all,
    so [compressed_size] is 0, not at least 1. *)
Theorem huffman_single_symbol_empty_output (byte : Byte.byte) (n : nat) :
  huffman_run (replicate (S n) byte)
  = Some ([], [], {| original_size := S n; compressed_size := 0;
                     compression_ratio := (0 # Pos.of_nat (S n))%Q; time := 0 |}).
Proof.
  assert (huffman_bits (replicate (S n) byte) = Some []) as Hbits.
  { unfold huffman_bits, huffman_code_table.
    rewrite ints_replicate, count_freq_replicate, huffman_root_single.
    cbn [mbind option_bind build_code].
    rewrite (mapM_replicate _ _ []) by apply lookup_insert_eq.
    cbn [mbind option_bind]. by rewrite concat_replicate_nil. }
  unfold huffman_run. rewrite Hbits. cbn.
  unfold encode_result. cbn [length]. rewrite length_replicate. done.
Qed.

(** The table of [b"ZZZZ"] gives Z the empty code. *)
Example huffman_ZZZZ :
  huffman_code_table ["Z"; "Z"; "Z"; "Z"]%byte = Some {[ 90 := [] ]} ∧
  huffman_compress ["Z"; "Z"; "Z"; "Z"]%byte
  = Some {| original_size := 4; compressed_size := 0;
            compression_ratio := (0 # 4)%Q; time := 0 |}.
Proof. split; reflexivity. Qed.

(** ** lzw_compress *)

Lemma ints_bounded (text_bytes : bytes) : Forall (fun i => i < 256) (ints text_bytes).
Proof.
  apply Forall_forall. intros i (b & -> & _)%list_elem_of_fmap.
  pose proof (Byte.to_N_bounded b). lia.
Qed.

Lemma lzw_initial_dictionary_lookup k c :
  lzw_initial_dictionary !! k = Some c ↔ k = [c] ∧ c < 256.
Proof.
  unfold lzw_initial_dictionary. split.
  - intros H%elem_of_list_to_map_2.
    apply list_elem_of_fmap in H as (i & [= -> ->] & Hi%elem_of_seq). split; [done|lia].
  - intros [-> Hc]. apply elem_of_list_to_map_1.
    + change (NoDup ((fun i : nat => [N.of_nat i]) <$> seq 0 256)).
      apply NoDup_fmap_2; [|apply NoDup_seq].
      intros i j [= H]. lia.
    + apply list_elem_of_fmap. exists (N.to_nat c). rewrite N2Nat.id. split; [done|].
      apply elem_of_seq. lia.
Qed.

Lemma lzw_inv_initial : lzw_inv lzw_initial [].
Proof.
  split; unfold lzw_initial; cbn [dictionary next_code s encoded].
  - intros i Hi. by apply lzw_initial_dictionary_lookup.
  - done.
  - intros k c [_ ?]%lzw_initial_dictionary_lookup. lia.
  - intros k1 k2 c [-> _]%lzw_initial_dictionary_lookup [-> _]%lzw_initial_dictionary_lookup.
    done.
  - exists []. split; [constructor|done].
Qed.

Lemma lzw_decodes_insert dictionary codes strings k c :
  dictionary !! k = None →
  lzw_decodes dictionary codes strings →
  lzw_decodes (<[k := c]> dictionary) codes strings.
Proof.
  intros Hk Hdec. eapply Forall2_impl; [exact Hdec|]. intros code string Hlook. simpl.
  rewrite lookup_insert_ne; [done|]. intros ->. congruence.
Qed.

Lemma lzw_step_inv st processed byte :
  lzw_inv st processed → byte < 256 →
  ∃ st', lzw_step st byte = Some st' ∧ lzw_inv st' (processed ++ [byte]).
Proof.
  intros [Hsingle Hcur Hbound Hinj (strings & Hdec & Hcat)] Hbyte. unfold lzw_step.
  destruct (dictionary st !! (s st ++ [byte])) as [c|] eqn:Hsc.
  - eexists. split; [done|]. split; simpl; [done|by rewrite Hsc|done|done|].
    exists strings. split; [done|]. by rewrite <-Hcat, (assoc app).
  - destruct (Hcur) as [code Hcode].
    { intros Hs. rewrite Hs in Hsc. simpl in Hsc. by rewrite Hsingle in Hsc. }
    rewrite Hcode. cbn [mbind option_bind].
    eexists. split; [done|]. split; simpl.
    + intros i Hi. rewrite lookup_insert_ne; [by apply Hsingle|].
      intros Heq. rewrite Heq, Hsingle in Hsc; done.
    + intros _. rewrite lookup_insert_ne; [rewrite Hsingle; by eauto|].
      intros Heq. rewrite Heq, Hsingle in Hsc; done.
    + intros k c. rewrite lookup_insert. case_decide as Hk.
      * intros [= <-]. lia.
      * intros H%Hbound. lia.
    + intros k1 k2 c. rewrite !lookup_insert.
      destruct (decide (s st ++ [byte] = k1)) as [<-|H1],
               (decide (s st ++ [byte] = k2)) as [<-|H2]; try done.
      * intros [= <-] H%Hbound. lia.
      * intros H%Hbound [= <-]. lia.
      * apply Hinj.
    + exists (strings ++ [s st]). split.
      * apply Forall2_app; [by apply lzw_decodes_insert|].
        constructor; [|constructor].
        rewrite lookup_insert_ne; [done|]. intros Heq. congruence.
      * rewrite concat_app. simpl. by rewrite app_nil_r, <-Hcat.
Qed.

Lemma lzw_loop_inv st processed text :
  lzw_inv st processed → Forall (fun i => i < 256) text →
  ∃ st', lzw_loop st text = Some st' ∧ lzw_inv st' (processed ++ text).
Proof.
  intros Hinv Htext. revert st processed Hinv.
  induction Htext as [|byte text Hbyte _ IH]; intros st processed Hinv; simpl.
  - exists st. by rewrite app_nil_r.
  - destruct (lzw_step_inv st processed byte Hinv Hbyte) as (st1 & -> & Hinv1).
    cbn [mbind option_bind]. destruct (IH _ _ Hinv1) as (st' & Hst' & Hinv').
    exists st'. split; [done|]. by rewrite <-(assoc app) in Hinv'.
Qed.

(** The end of the encoder: the invariant with every input byte emitted. *)
Lemma lzw_encode_spec (text_bytes : bytes) :
  ∃ st, lzw_encode text_bytes = Some st ∧
        (∀ k1 k2 c,
            dictionary st !! k1 = Some c → dictionary st !! k2 = Some c → k1 = k2) ∧
        ∃ strings, lzw_decodes (dictionary st) (encoded st) strings ∧
                   concat strings = ints text_bytes.
Proof.
  unfold lzw_encode.
  destruct (lzw_loop_inv lzw_initial [] (ints text_bytes) lzw_inv_initial
              (ints_bounded text_bytes))
    as (st & -> & [Hsingle Hcur Hbound Hinj (strings & Hdec & Hcat)]).
  cbn [mbind option_bind]. unfold lzw_flush. simpl in Hcat.
  destruct (s st) as [|b0 rest] eqn:Hs.
  - exists st. split; [done|]. split; [done|]. exists strings.
    by rewrite app_nil_r in Hcat.
  - destruct Hcur as [code Hcode]; [done|]. rewrite Hcode. cbn [mbind option_bind].
    eexists. split; [done|]. simpl. split; [done|].
    exists (strings ++ [b0 :: rest]). split.
    + apply Forall2_app; [done|]. by repeat constructor.
    + rewrite concat_app. simpl. by rewrite app_nil_r.
Qed.

(** C3. The codes [lzw_compress] emits decode through the dictionary it
    built: no two strings share a code, every emitted code is the code of a
    dictionary string, and the strings of the emitted codes, concatenated
    in emission order, are the input. *)
Theorem lzw_codes_decode_to_input (text_bytes : bytes) :
  ∃ st,
    lzw_encode text_bytes = Some st ∧
    (∃ strings, lzw_decodes (dictionary st) (encoded st) strings) ∧
    (∀ strings,
       lzw_decodes (dictionary st) (encoded st) strings →
       concat strings = ints text_bytes).
Proof.
  destruct (lzw_encode_spec text_bytes) as (st & Hst & Hinj & strings & Hdec & Hcat).
  exists st. split_and!; [done|by exists strings|].
  intros strings' Hdec'. rewrite <-Hcat. f_equal.
  unfold lzw_decodes in *. clear Hcat Hst.
  revert strings' Hdec'.
  induction Hdec as [|code string codes strings Hlook _ IH]; intros strings' Hdec'.
  - by apply Forall2_nil_inv_l in Hdec'.
  - apply Forall2_cons_inv_l in Hdec' as (string' & rest' & Hlook' & Hrest & ->).
    f_equal; [by eapply Hinj|by apply IH].
Qed.

(** ** The code fields of lzw_compress *)

Lemma bin_pos_length p : length (bin_pos p) = Pos.size_nat p.
Proof. induction p as [p IH|p IH|]; simpl; rewrite ?length_app, ?IH; simpl; lia. Qed.

Lemma size_nat_lt p (n : nat) : (Pos.to_nat p < 2 ^ n)%nat → (Pos.size_nat p ≤ n)%nat.
Proof.
  revert n. induction p as [p IH|p IH|]; intros [|n] H; simpl in *; try lia.
  - specialize (IH n). lia.
  - specialize (IH n). lia.
Qed.

(** A code below 4096 takes twelve characters. *)
Lemma format_012b_length code : code < 4096 → length (format_012b code) = 12%nat.
Proof.
  intros Hcode. unfold format_012b. rewrite length_app, length_replicate.
  assert (length (bin code) ≤ 12)%nat; [|lia].
  destruct code as [|p]; simpl; [lia|].
  rewrite bin_pos_length. apply size_nat_lt. change (2 ^ 12)%nat with 4096%nat. lia.
Qed.

Lemma bin_pos_is_bit p : Forall is_bit (bin_pos p).
Proof.
  induction p as [p IH|p IH|]; simpl.
  - apply Forall_app. split; [done|]. apply Forall_singleton. by right.
  - apply Forall_app. split; [done|]. apply Forall_singleton. by left.
  - apply Forall_singleton. by right.
Qed.

Lemma format_012b_is_bit code : Forall is_bit (format_012b code).
Proof.
  unfold format_012b. apply Forall_app. split.
  - apply Forall_replicate. by left.
  - destruct code; simpl; [|apply bin_pos_is_bit]. apply Forall_singleton. by left.
Qed.

Lemma lzw_bits_of_is_bit codes : Forall is_bit (lzw_bits_of codes).
Proof.
  unfold lzw_bits_of. apply Forall_concat, Forall_fmap, Forall_forall.
  intros code _. apply format_012b_is_bit.
Qed.

(** While every emitted code is below 4096 the bit string has twelve
    characters per code. *)
Lemma lzw_bits_of_length codes :
  Forall (fun code => code < 4096) codes →
  length (lzw_bits_of codes) = (12 * length codes)%nat.
Proof.
  unfold lzw_bits_of. induction 1 as [|code codes Hcode _ IH]; [done|].
  cbn [map concat length]. rewrite length_app, IH, format_012b_length by done. lia.
Qed.

Lemma lzw_run_spec (text_bytes : bytes) :
  ∃ bits_str bytes_list file,
    lzw_bits text_bytes = Some bits_str ∧
    lzw_run text_bytes = Some (bytes_list, file, encode_result text_bytes bytes_list) ∧
    is_packing bits_str bytes_list.
Proof.
  destruct (lzw_encode_spec text_bytes) as (st & Hst & _).
  pose proof (lzw_bits_of_is_bit (encoded st)) as Hbit.
  destruct (bytes_list_of_pad _ Hbit) as (bytes_list & Hlist & Hpack).
  destruct (write_bin_packing _ _ Hpack) as [file Hfile].
  exists (lzw_bits_of (encoded st)), bytes_list, file.
  unfold lzw_run, lzw_bits. rewrite Hst. cbn [mbind option_bind].
  rewrite Hlist. cbn [mbind option_bind]. by rewrite Hfile.
Qed.

(** C4. On [lzw_overflow_input] the encoder emits 3843 codes, the last of
    them 4096, which [format(code, '012b')] writes with 13 characters: the
    bit string before padding has 46117 characters, one more than 12 times
    the number of codes. *)
Theorem lzw_code_wider_than_12_bits :
  (fun st => (length (encoded st), last (encoded st))) <$> lzw_encode lzw_overflow_input
    = Some (3843%nat, Some 4096) ∧
  length (format_012b 4096) = 13%nat ∧
  (fun bits_str => N.of_nat (length bits_str)) <$> lzw_bits lzw_overflow_input
    = Some 46117 ∧
  46117 = 12 * 3843 + 1.
Proof. split_and!; [by vm_compute..|done]. Qed.

(** ** decimal: the number of digits *)

Module decimal_facts.
Import decimal.
Local Open Scope Z_scope.

Lemma prec_pos : 0 < prec.
Proof. done. Qed.

Lemma ndigits_loop_spec fuel c :
  0 < c → Z.log2 c ≤ Z.of_nat fuel →
  1 ≤ ndigits_loop fuel c ∧
  10 ^ (ndigits_loop fuel c - 1) ≤ c < 10 ^ ndigits_loop fuel c.
Proof.
  revert c. induction fuel as [|fuel IH]; intros c Hc Hlog; cbn [ndigits_loop].
  - assert (c = 1) as ->; [|done].
    destruct (Z.log2_null c) as [H _]. pose proof (Z.log2_nonneg c). lia.
  - destruct (Z.ltb_spec c 10) as [Hlt|Hge]; [simpl; lia|].
    assert (0 < c / 10) as Hq by (apply Z.div_str_pos; lia).
    destruct (IH (c / 10) Hq) as (H1 & Hlo & Hhi).
    { assert (Z.log2 (c / 10) < Z.log2 c); [|lia].
      apply Z.le_lt_trans with (Z.log2 (c / 2)).
      - apply Z.log2_le_mono. apply Z.div_le_compat_l; lia.
      - rewrite <-Z.div2_div, Z.div2_spec, Z.log2_shiftr by lia.
        pose proof (Z.log2_pos c). lia. }
    set (n := ndigits_loop fuel (c / 10)) in *.
    split; [lia|]. replace (1 + n - 1) with (Z.succ (n - 1)) by lia.
    replace (1 + n) with (Z.succ n) by lia.
    rewrite !Z.pow_succ_r by lia.
    pose proof (Z.div_mod c 10 ltac:(lia)). pose proof (Z.mod_pos_bound c 10 ltac:(lia)).
    lia.
Qed.

Lemma ndigits_spec c :
  0 < c → 1 ≤ ndigits c ∧ 10 ^ (ndigits c - 1) ≤ c < 10 ^ ndigits c.
Proof.
  intros Hc. apply ndigits_loop_spec; [done|].
  rewrite Z2Nat.id; [lia|apply Z.log2_nonneg].
Qed.

Lemma ndigits_unique c k :
  10 ^ (k - 1) ≤ c < 10 ^ k → 1 ≤ k → ndigits c = k.
Proof.
  intros [Hlo Hhi] Hk.
  assert (0 < c) as Hc.
  { apply Z.lt_le_trans with (10 ^ (k - 1)); [apply Z.pow_pos_nonneg; lia|done]. }
  destruct (ndigits_spec c Hc) as (H1 & Hlo' & Hhi').
  destruct (Z.lt_trichotomy (ndigits c) k) as [Hlt|[Heq|Hgt]]; [|done|].
  - assert (10 ^ ndigits c ≤ 10 ^ (k - 1)) by (apply Z.pow_le_mono_r; lia). lia.
  - assert (10 ^ k ≤ 10 ^ (ndigits c - 1)) by (apply Z.pow_le_mono_r; lia). lia.
Qed.

Lemma ndigits_pos c : 1 ≤ ndigits c.
Proof.
  destruct (Z.lt_ge_cases 0 c) as [Hc|Hc]; [by apply ndigits_spec|].
  unfold ndigits. rewrite Z.log2_nonpos by done. done.
Qed.

Lemma ndigits_mono c1 c2 : 0 < c1 → c1 ≤ c2 → ndigits c1 ≤ ndigits c2.
Proof.
  intros H1 H12.
  destruct (ndigits_spec c1 H1) as (_ & Hlo & _).
  destruct (ndigits_spec c2 ltac:(lia)) as (_ & _ & Hhi).
  assert (ndigits c1 - 1 < ndigits c2); [|lia].
  apply (Z.pow_lt_mono_r_iff 10); [lia|pose proof (ndigits_pos c2); lia|lia].
Qed.

Lemma ndigits_scale c k : 0 < c → 0 ≤ k → ndigits (c * 10 ^ k) = ndigits c + k.
Proof.
  intros Hc Hk. destruct (ndigits_spec c Hc) as (H1 & Hlo & Hhi).
  assert (0 < 10 ^ k) by (apply Z.pow_pos_nonneg; lia).
  apply ndigits_unique; [|lia]. split.
  - replace (ndigits c + k - 1) with (ndigits c - 1 + k) by lia.
    rewrite Z.pow_add_r by lia. nia.
  - rewrite Z.pow_add_r by lia. nia.
Qed.

Lemma ndigits_pow10 k : 0 ≤ k → ndigits (10 ^ k) = k + 1.
Proof.
  intros Hk. apply ndigits_unique; [|lia]. replace (k + 1 - 1) with k by lia.
  split; [lia|]. apply Z.pow_lt_mono_r; lia.
Qed.

(** *** Rounding to nearest, ties to even *)

Section round_half_even.
Context (d : Z) (Hd : 0 < d).

Lemma pow10_pos k : 0 ≤ k → 0 < 10 ^ k.
Proof. intros. apply Z.pow_pos_nonneg; lia. Qed.

Lemma round_half_even_bounds c :
  c / 10 ^ d ≤ round_half_even c d ≤ c / 10 ^ d + 1.
Proof.
  unfold round_half_even. destruct (2 * (c mod 10 ^ d) ?= 10 ^ d); [|lia..].
  destruct (Z.even _); lia.
Qed.

Lemma round_half_even_mono c1 c2 :
  c1 ≤ c2 → round_half_even c1 d ≤ round_half_even c2 d.
Proof.
  intros H12. pose proof (pow10_pos d ltac:(lia)) as Hp.
  assert (c1 / 10 ^ d ≤ c2 / 10 ^ d) as Hq by (apply Z.div_le_mono; lia).
  destruct (Z.eq_dec (c1 / 10 ^ d) (c2 / 10 ^ d)) as [Heq|Hne].
  - pose proof (Z.div_mod c1 (10 ^ d) ltac:(lia)) as E1.
    pose proof (Z.div_mod c2 (10 ^ d) ltac:(lia)) as E2.
    unfold round_half_even. rewrite <-Heq.
    destruct (Z.compare_spec (2 * (c1 mod 10 ^ d)) (10 ^ d));
      destruct (Z.compare_spec (2 * (c2 mod 10 ^ d)) (10 ^ d));
      destruct (Z.even (c1 / 10 ^ d)); lia.
  - pose proof (round_half_even_bounds c1). pose proof (round_half_even_bounds c2). lia.
Qed.

Lemma round_half_even_exact m : round_half_even (m * 10 ^ d) d = m.
Proof.
  pose proof (pow10_pos d ltac:(lia)) as Hp. unfold round_half_even.
  rewrite Z.mod_mul, Z.div_mul by lia. change (2 * 0) with 0.
  by destruct (Z.compare_spec 0 (10 ^ d)); try lia.
Qed.

Lemma round_half_even_scale c k :
  0 ≤ k → round_half_even (c * 10 ^ k) (d + k) = round_half_even c d.
Proof.
  intros Hk. pose proof (pow10_pos d ltac:(lia)) as Hp.
  pose proof (pow10_pos k Hk) as Hpk. unfold round_half_even.
  rewrite Z.pow_add_r by lia.
  rewrite Z.div_mul_cancel_r, Z.mul_mod_distr_r by lia.
  rewrite Z.mul_assoc, <-Zmult_compare_compat_r by lia. done.
Qed.

Lemma round_half_even_nonneg c : 0 ≤ c → 0 ≤ round_half_even c d.
Proof.
  intros Hc. pose proof (pow10_pos d ltac:(lia)) as Hp.
  pose proof (round_half_even_bounds c). pose proof (Z.div_pos c (10 ^ d)). lia.
Qed.

End round_half_even.

End decimal_facts.

(** ** decimal: rounding is monotone *)

Module rounding_facts.
Import decimal rounding decimal_facts.
Local Open Scope Z_scope.

Lemma pow10_pred k : 0 < k → 10 ^ k = 10 ^ (k - 1) * 10.
Proof.
  intros Hk. replace k with (Z.succ (k - 1)) at 1 by lia.
  rewrite Z.pow_succ_r by lia. lia.
Qed.

Lemma pow10_div10 k : 0 < k → 10 ^ k / 10 = 10 ^ (k - 1).
Proof. intros Hk. rewrite (pow10_pred k Hk). apply Z.div_mul. lia. Qed.

Lemma round_to_mono E g V1 V2 : V1 ≤ V2 → round_to E g V1 ≤ round_to E g V2.
Proof.
  intros H12. unfold round_to. destruct (Z.ltb_spec E g) as [Hg|Hg]; [|done].
  pose proof (pow10_pos (g - E) ltac:(lia)).
  pose proof (round_half_even_mono (g - E) ltac:(lia) V1 V2 H12). nia.
Qed.

Lemma round_to_multiple E g m k :
  g - E ≤ k → round_to E g (m * 10 ^ k) = m * 10 ^ k.
Proof.
  intros Hk. unfold round_to. destruct (Z.ltb_spec E g) as [Hg|Hg]; [|done].
  replace k with (k - (g - E) + (g - E)) by lia.
  rewrite Z.pow_add_r, Z.mul_assoc by lia.
  by rewrite round_half_even_exact by lia.
Qed.

Lemma round_to_nonneg E g V : 0 ≤ V → 0 ≤ round_to E g V.
Proof.
  intros HV. unfold round_to. destruct (Z.ltb_spec E g) as [Hg|Hg]; [|done].
  pose proof (pow10_pos (g - E) ltac:(lia)).
  pose proof (round_half_even_nonneg (g - E) ltac:(lia) V HV). nia.
Qed.

Lemma rnd_nonneg E V : 0 ≤ V → 0 ≤ rnd E V.
Proof.
  intros HV. unfold rnd. destruct (V =? 0); [done|]. by apply round_to_nonneg.
Qed.

(** The rounding of [_fix] is monotone, also across a change of the number
    of digits: a power of ten lies between, and it is on both grids. *)
Lemma rnd_mono E V1 V2 : 0 ≤ V1 → V1 ≤ V2 → rnd E V1 ≤ rnd E V2.
Proof.
  intros H1 H12. unfold rnd.
  destruct (Z.eqb_spec V1 0) as [->|Hne1].
  { destruct (Z.eqb_spec V2 0); [done|]. apply round_to_nonneg. lia. }
  destruct (Z.eqb_spec V2 0) as [->|Hne2]; [lia|].
  pose proof (ndigits_mono V1 V2 ltac:(lia) H12) as Hnd.
  destruct (ndigits_spec V1 ltac:(lia)) as (Hn1 & _ & Hhi1).
  destruct (ndigits_spec V2 ltac:(lia)) as (Hn2 & Hlo2 & _).
  destruct (Z.eq_dec (grid E V1) (grid E V2)) as [Heq|Hlt].
  - rewrite Heq. by apply round_to_mono.
  - assert (grid E V1 < grid E V2 ∧ ndigits V1 < ndigits V2) as [Hg Hnd']
      by (unfold grid in *; lia).
    assert (10 ^ ndigits V1 ≤ 10 ^ (ndigits V2 - 1)) as Hpow
      by (apply Z.pow_le_mono_r; lia).
    pose proof prec_pos as Hprec.
    etrans; [apply (round_to_mono E _ V1 (1 * 10 ^ (ndigits V2 - 1))); lia|].
    rewrite round_to_multiple by (unfold grid in *; lia).
    rewrite <-(round_to_multiple E (grid E V2) 1 (ndigits V2 - 1))
      by (unfold grid in *; lia).
    apply round_to_mono. lia.
Qed.

Lemma scaled_nonneg E x : 0 ≤ coef x → E ≤ exp x → 0 ≤ scaled E x.
Proof.
  intros Hc He. unfold scaled. pose proof (pow10_pos (exp x - E) ltac:(lia)). nia.
Qed.

(** The coefficient [_fix] keeps has at most [prec] digits, or is
    [10 ^ prec]. *)
Lemma round_half_even_le_pow c d :
  0 < c → 0 < d → ndigits c - prec ≤ d → round_half_even c d ≤ 10 ^ prec.
Proof.
  intros Hc Hd Hnd. destruct (ndigits_spec c Hc) as (_ & _ & Hhi).
  pose proof prec_pos as Hprec.
  assert (c / 10 ^ d < 10 ^ prec).
  { apply Z.div_lt_upper_bound; [by apply pow10_pos; lia|].
    rewrite <-Z.pow_add_r by lia.
    assert (10 ^ ndigits c ≤ 10 ^ (d + prec)) by (apply Z.pow_le_mono_r; lia). lia. }
  pose proof (round_half_even_bounds d c). lia.
Qed.

Lemma ndigits_gt_prec coeff :
  0 ≤ coeff → coeff ≤ 10 ^ prec → prec < ndigits coeff → coeff = 10 ^ prec.
Proof.
  intros H0 Hle Hnd. destruct (Z.eq_dec coeff 0) as [->|Hne].
  { by compute in Hnd. }
  destruct (ndigits_spec coeff ltac:(lia)) as (_ & Hlo & _).
  assert (10 ^ prec ≤ 10 ^ (ndigits coeff - 1)) by (apply Z.pow_le_mono_r; lia). lia.
Qed.

(** [_fix] on a non-negative number, in units of [10 ^ E]. *)
Lemma fix_scaled E x :
  0 ≤ coef x → E ≤ exp x → scaled E (fix_ x) = rnd E (scaled E x).
Proof.
  destruct x as [c e]. cbn [coef exp]. intros Hc He.
  unfold fix_, rnd, scaled. cbn [coef exp]. rewrite Z.abs_eq by done.
  pose proof (pow10_pos (e - E) ltac:(lia)) as Hpe.
  destruct (Z.eqb_spec c 0) as [->|Hne].
  { cbn [coef exp]. by rewrite !Z.mul_0_l. }
  destruct (Z.eqb_spec (c * 10 ^ (e - E)) 0) as [H0|_]; [nia|].
  unfold grid. rewrite ndigits_scale by lia.
  replace (ndigits c + (e - E) + E - prec) with (ndigits c + e - prec) by lia.
  set (g := Z.max (ndigits c + e - prec) Etiny).
  rewrite Z.sgn_pos by lia.
  destruct (Z.ltb_spec e g) as [Hlt|Hge].
  - unfold round_to. destruct (Z.ltb_spec E g) as [_|?]; [|lia].
    replace (g - E) with (g - e + (e - E)) at 1 by lia.
    rewrite round_half_even_scale by lia.
    set (coeff := round_half_even c (g - e)).
    assert (0 ≤ coeff) as Hcoeff0 by (apply round_half_even_nonneg; lia).
    assert (coeff ≤ 10 ^ prec) as Hcoeff
      by (apply round_half_even_le_pow; unfold g; lia).
    destruct (Z.ltb_spec prec (ndigits coeff)) as [Hbig|_]; cbn [coef exp]; [|lia].
    rewrite (ndigits_gt_prec coeff Hcoeff0 Hcoeff Hbig).
    pose proof prec_pos.
    rewrite pow10_div10 by lia.
    rewrite (pow10_pred (g + 1 - E)), (pow10_pred prec) by lia.
    replace (g + 1 - E - 1) with (g - E) by lia. ring.
  - cbn [coef exp]. symmetry. apply round_to_multiple. lia.
Qed.

Lemma fix_exp_ge x : exp x ≤ exp (fix_ x).
Proof.
  unfold fix_. destruct (Z.abs (coef x) =? 0); cbn [exp]; [lia|].
  destruct (Z.ltb_spec (exp x) (Z.max (ndigits (Z.abs (coef x)) + exp x - prec) Etiny));
    [|lia].
  destruct (prec <? _); cbn [exp]; lia.
Qed.

Lemma fix_nonneg x : 0 ≤ coef x → 0 ≤ coef (fix_ x).
Proof.
  intros Hc. unfold fix_. rewrite Z.abs_eq by done.
  destruct (Z.eqb_spec (coef x) 0); cbn [coef]; [lia|].
  rewrite Z.sgn_pos by lia.
  set (g := Z.max _ _). destruct (Z.ltb_spec (exp x) g) as [Hlt|Hge]; [|done].
  pose proof (round_half_even_nonneg (g - exp x) ltac:(lia) (coef x) Hc) as Hr.
  destruct (prec <? _); cbn [coef]; [|lia].
  pose proof (Z.div_pos (round_half_even (coef x) (g - exp x)) 10). lia.
Qed.

(** What [_fix] returns, [_fix] leaves as it is. *)
Lemma fix_idem x : 0 ≤ coef x → fix_ (fix_ x) = fix_ x.
Proof.
  destruct x as [c e]. cbn [coef]. intros Hc.
  remember (fix_ (mk c e)) as r eqn:Hr.
  unfold fix_ in Hr. cbn [coef exp] in Hr. rewrite Z.abs_eq in Hr by done.
  pose proof prec_pos as Hprec.
  destruct (Z.eqb_spec c 0) as [->|Hne].
  { subst r. unfold fix_. cbn [coef exp]. change (Z.abs 0 =? 0) with true. cbn match.
    f_equal. lia. }
  rewrite Z.sgn_pos in Hr by lia.
  set (g := Z.max (ndigits c + e - prec) Etiny) in *.
  destruct (Z.ltb_spec e g) as [Hlt|Hge].
  - set (coeff := round_half_even c (g - e)) in *.
    assert (0 ≤ coeff) as Hcoeff0 by (apply round_half_even_nonneg; lia).
    assert (coeff ≤ 10 ^ prec) as Hcoeff
      by (apply round_half_even_le_pow; unfold g; lia).
    destruct (Z.ltb_spec prec (ndigits coeff)) as [Hbig|Hsmall].
    + rewrite (ndigits_gt_prec coeff Hcoeff0 Hcoeff Hbig) in Hr.
      rewrite Z.mul_1_l, pow10_div10 in Hr by lia.
      pose proof (pow10_pos (prec - 1) ltac:(lia)) as Hpos.
      subst r. unfold fix_. cbn [coef exp]. rewrite Z.abs_eq by lia.
      destruct (Z.eqb_spec (10 ^ (prec - 1)) 0); [lia|].
      rewrite (ndigits_pow10 (prec - 1)) by lia.
      destruct (Z.ltb_spec (g + 1) (Z.max (prec - 1 + 1 + (g + 1) - prec) Etiny));
        [unfold g in *; lia|done].
    + rewrite Z.mul_1_l in Hr. subst r.
      unfold fix_. cbn [coef exp]. rewrite Z.abs_eq by lia.
      destruct (Z.eqb_spec coeff 0) as [->|Hne0].
      { f_equal. unfold g. lia. }
      destruct (Z.ltb_spec g (Z.max (ndigits coeff + g - prec) Etiny));
        [unfold g in *; lia|done].
  - subst r. unfold fix_. cbn [coef exp]. rewrite Z.abs_eq by lia.
    destruct (Z.eqb_spec c 0); [done|]. fold g.
    by destruct (Z.ltb_spec e g); [lia|].
Qed.

Lemma is_rounded_fix x : 0 ≤ coef x → is_rounded (fix_ x).
Proof. intros Hc. split; [by apply fix_nonneg|by apply fix_idem]. Qed.

(** *** The order of the values *)

Lemma scaled_shift E E' x :
  E' ≤ E → E ≤ exp x → scaled E' x = scaled E x * 10 ^ (E - E').
Proof.
  intros H1 H2. unfold scaled. rewrite <-Z.mul_assoc, <-Z.pow_add_r by lia.
  do 2 f_equal. lia.
Qed.

Lemma le_scaled E x y :
  E ≤ exp x → E ≤ exp y → le x y ↔ scaled E x ≤ scaled E y.
Proof.
  intros Hx Hy. unfold le. fold (scaled (Z.min (exp x) (exp y)) x).
  fold (scaled (Z.min (exp x) (exp y)) y).
  rewrite (scaled_shift (Z.min (exp x) (exp y)) E x),
    (scaled_shift (Z.min (exp x) (exp y)) E y) by lia.
  pose proof (pow10_pos (Z.min (exp x) (exp y) - E) ltac:(lia)).
  split; [nia|]. intros H'. apply Z.mul_le_mono_pos_r in H'; done.
Qed.

Lemma lt_scaled E x y :
  E ≤ exp x → E ≤ exp y → lt x y ↔ scaled E x < scaled E y.
Proof.
  intros Hx Hy. unfold lt. fold (scaled (Z.min (exp x) (exp y)) x).
  fold (scaled (Z.min (exp x) (exp y)) y).
  rewrite (scaled_shift (Z.min (exp x) (exp y)) E x),
    (scaled_shift (Z.min (exp x) (exp y)) E y) by lia.
  pose proof (pow10_pos (Z.min (exp x) (exp y) - E) ltac:(lia)).
  split; [nia|]. intros H'. apply Z.mul_lt_mono_pos_r in H'; done.
Qed.

Lemma le_refl x : le x x.
Proof. unfold le. lia. Qed.


Lemma le_trans x y z : le x y → le y z → le x z.
Proof.
  set (E := Z.min (exp x) (Z.min (exp y) (exp z))).
  rewrite (le_scaled E x y), (le_scaled E y z), (le_scaled E x z) by lia. lia.
Qed.

Lemma lt_le_incl x y : lt x y → le x y.
Proof. unfold lt, le. lia. Qed.

Lemma le_not_lt x y : le x y → ¬ lt y x.
Proof.
  set (E := Z.min (exp x) (exp y)).
  rewrite (le_scaled E x y), (lt_scaled E y x) by lia. lia.
Qed.

Lemma le_nonneg x y : 0 ≤ coef x → le x y → 0 ≤ coef y.
Proof.
  intros Hx. unfold le.
  pose proof (pow10_pos (exp x - Z.min (exp x) (exp y)) ltac:(lia)).
  pose proof (pow10_pos (exp y - Z.min (exp x) (exp y)) ltac:(lia)). nia.
Qed.

(** Rounding keeps the order. *)
Lemma fix_mono x y : 0 ≤ coef x → le x y → le (fix_ x) (fix_ y).
Proof.
  intros Hx Hle. pose proof (le_nonneg x y Hx Hle) as Hy.
  set (E := Z.min (exp x) (exp y)).
  pose proof (fix_exp_ge x). pose proof (fix_exp_ge y).
  apply (le_scaled E); [lia..|].
  rewrite !fix_scaled by lia.
  apply rnd_mono; [apply scaled_nonneg; lia|].
  apply (le_scaled E); [lia..|done].
Qed.

End rounding_facts.

(** ** decimal: the operations on non-negative numbers *)

Module decimal_ops.
Import decimal rounding decimal_facts rounding_facts.
Local Open Scope Z_scope.

Lemma add_exact_scaled E x y :
  E ≤ exp x → E ≤ exp y → scaled E (add_exact x y) = scaled E x + scaled E y.
Proof.
  intros Hx Hy. unfold scaled, add_exact. cbn [coef exp].
  set (m := Z.min (exp x) (exp y)).
  rewrite Z.mul_add_distr_r, <-!Z.mul_assoc, <-!Z.pow_add_r by lia.
  by replace (exp x - m + (m - E)) with (exp x - E) by lia;
     replace (exp y - m + (m - E)) with (exp y - E) by lia.
Qed.

Lemma add_exact_exp x y : exp (add_exact x y) = Z.min (exp x) (exp y).
Proof. done. Qed.

Lemma add_exact_nonneg x y : 0 ≤ coef x → 0 ≤ coef y → 0 ≤ coef (add_exact x y).
Proof.
  intros Hx Hy. unfold add_exact. cbn [coef].
  pose proof (pow10_pos (exp x - Z.min (exp x) (exp y)) ltac:(lia)).
  pose proof (pow10_pos (exp y - Z.min (exp x) (exp y)) ltac:(lia)). nia.
Qed.

Lemma add_nonneg x y : 0 ≤ coef x → 0 ≤ coef y → 0 ≤ coef (add x y).
Proof. intros. by apply fix_nonneg, add_exact_nonneg. Qed.

Lemma add_is_rounded x y : 0 ≤ coef x → 0 ≤ coef y → is_rounded (add x y).
Proof. intros. by apply is_rounded_fix, add_exact_nonneg. Qed.

Lemma add_mono_r x y1 y2 :
  0 ≤ coef x → 0 ≤ coef y1 → le y1 y2 → le (add x y1) (add x y2).
Proof.
  intros Hx Hy1 Hle. apply fix_mono; [by apply add_exact_nonneg|].
  set (E := Z.min (exp x) (Z.min (exp y1) (exp y2))).
  apply (le_scaled E); [rewrite add_exact_exp; lia..|].
  rewrite !add_exact_scaled by lia.
  apply (le_scaled E) in Hle; lia.
Qed.

Lemma add_ge_l x y : is_rounded x → 0 ≤ coef y → le x (add x y).
Proof.
  intros [Hx Hfix] Hy. rewrite <-Hfix at 1. apply fix_mono; [done|].
  set (E := Z.min (exp x) (exp y)).
  apply (le_scaled E); [rewrite ?add_exact_exp; lia..|].
  rewrite add_exact_scaled by lia.
  pose proof (scaled_nonneg E y Hy ltac:(lia)). lia.
Qed.

Lemma mul_nonneg x y : 0 ≤ coef x → 0 ≤ coef y → 0 ≤ coef (mul x y).
Proof. intros. apply fix_nonneg. cbn [coef]. nia. Qed.

Lemma mul_mono_r x y1 y2 :
  0 ≤ coef x → 0 ≤ coef y1 → le y1 y2 → le (mul x y1) (mul x y2).
Proof.
  intros Hx Hy1 Hle. apply fix_mono; [cbn [coef]; nia|].
  unfold le in *. cbn [coef exp].
  rewrite Z.add_min_distr_l.
  replace (exp x + exp y1 - (exp x + Z.min (exp y1) (exp y2)))
    with (exp y1 - Z.min (exp y1) (exp y2)) by lia.
  replace (exp x + exp y2 - (exp x + Z.min (exp y1) (exp y2)))
    with (exp y2 - Z.min (exp y1) (exp y2)) by lia.
  rewrite <-!Z.mul_assoc. by apply Z.mul_le_mono_nonneg_l.
Qed.

Lemma sub_nonneg x y : le y x → 0 ≤ coef (sub x y).
Proof.
  intros Hle. apply fix_nonneg. unfold le in Hle. unfold add_exact, neg. cbn [coef exp].
  rewrite (Z.min_comm (exp x) (exp y)). lia.
Qed.

Lemma strip_zeros_nonneg fuel coeff e ideal_exp :
  0 ≤ coeff → 0 ≤ coef (strip_zeros fuel coeff e ideal_exp).
Proof.
  revert coeff e. induction fuel as [|fuel IH]; intros coeff e Hc; cbn [strip_zeros]; [done|].
  destruct (_ && _); [|done]. apply IH. apply Z.div_pos; lia.
Qed.

Lemma div_eucl_nonneg a b q r : 0 ≤ a → 0 < b → Z.div_eucl a b = (q, r) → 0 ≤ q.
Proof.
  intros Ha Hb H. assert (q = a / b) as -> by (unfold Z.div; by rewrite H).
  apply Z.div_pos; lia.
Qed.

(** A quotient of a non-negative by a positive number exists, is not
    negative, and is left as it is by the context. *)
Lemma div_is_rounded x y :
  0 ≤ coef x → 0 < coef y → ∃ r, div x y = Some r ∧ is_rounded r.
Proof.
  intros Hx Hy. unfold div.
  destruct (Z.eqb_spec (coef y) 0) as [?|_]; [lia|].
  destruct (Z.eqb_spec (coef x) 0) as [_|Hne].
  { eexists. split; [done|]. by apply is_rounded_fix. }
  rewrite !Z.abs_eq, !Z.sgn_pos by lia.
  set (shift := ndigits (coef y) - ndigits (coef x) + prec + 1).
  assert (∀ a b, 0 ≤ a → 0 < b →
            let '(coeff, remainder) := Z.div_eucl a b in 0 ≤ coeff) as Hq.
  { intros a b Ha Hb. destruct (Z.div_eucl a b) as [q r] eqn:Hd.
    by eapply div_eucl_nonneg. }
  destruct (Z.leb_spec 0 shift) as [Hs|Hs].
  - pose proof (pow10_pos shift Hs).
    specialize (Hq (coef x * 10 ^ shift) (coef y) ltac:(nia) Hy).
    destruct (Z.div_eucl _ _) as [coeff remainder].
    eexists. split; [done|]. apply is_rounded_fix. cbn [coef].
    destruct (remainder =? 0).
    + pose proof (strip_zeros_nonneg (Z.to_nat shift) coeff
                    (exp x - exp y - shift) (exp x - exp y) Hq). lia.
    + cbn [coef]. destruct (coeff mod 5 =? 0); lia.
  - pose proof (pow10_pos (- shift) ltac:(lia)).
    specialize (Hq (coef x) (coef y * 10 ^ (- shift)) Hx ltac:(nia)).
    destruct (Z.div_eucl _ _) as [coeff remainder].
    eexists. split; [done|]. apply is_rounded_fix. cbn [coef].
    destruct (remainder =? 0).
    + pose proof (strip_zeros_nonneg (Z.to_nat shift) coeff
                    (exp x - exp y - shift) (exp x - exp y) Hq). lia.
    + cbn [coef]. destruct (coeff mod 5 =? 0); lia.
Qed.

Lemma is_rounded_zero : is_rounded (of_int 0).
Proof. split; [done|by vm_compute]. Qed.

Lemma is_rounded_one : is_rounded (of_int 1).
Proof. split; [done|by vm_compute]. Qed.

End decimal_ops.

(** ** The machine-integer encoder computes the model *)

Module fast_facts.
Local Open Scope Z_scope.

Lemma fast_pow10_spec k : BigZ.to_Z (fast.pow10 k) = 10 ^ k.
Proof. unfold fast.pow10. by rewrite BigZ.spec_pow, BigZ.spec_of_Z. Qed.

Lemma fast_of_int_spec n : fast.to_model (fast.of_int n) = decimal.of_int n.
Proof. unfold fast.of_int, fast.to_model, decimal.of_int. simpl. by rewrite BigZ.spec_of_Z. Qed.

Lemma fast_ndigits_spec c : fast.ndigits c = decimal.ndigits (BigZ.to_Z c).
Proof.
  unfold fast.ndigits.
  set (k := BigZ.to_Z (BigZ.log2 c) * 1233 / 4096 + 1).
  assert (1 ≤ k) as Hk.
  { unfold k. rewrite BigZ.spec_log2.
    pose proof (Z.log2_nonneg (BigZ.to_Z c)).
    assert (0 ≤ Z.log2 (BigZ.to_Z c) * 1233 / 4096) by (apply Z.div_pos; lia). lia. }
  rewrite !BigZ.spec_leb, !BigZ.spec_ltb, !BigZ.spec_mul, fast_pow10_spec.
  change (BigZ.to_Z 10) with 10.
  assert ((if (10 ^ (k - 1) * 10 <=? BigZ.to_Z c)
               && (BigZ.to_Z c <? 10 ^ (k - 1) * 10 * 10)
           then k + 1 else decimal.ndigits (BigZ.to_Z c))
          = decimal.ndigits (BigZ.to_Z c)) as Hsecond.
  { destruct (Z.leb_spec (10 ^ (k - 1) * 10) (BigZ.to_Z c)) as [H1|H1];
      destruct (Z.ltb_spec (BigZ.to_Z c) (10 ^ (k - 1) * 10 * 10)) as [H2|H2];
      cbn [andb]; try done.
    symmetry. apply decimal_facts.ndigits_unique; [|lia].
    replace (k + 1 - 1) with (Z.succ (k - 1)) by lia.
    replace (k + 1) with (Z.succ (Z.succ (k - 1))) by lia.
    rewrite !Z.pow_succ_r by lia. lia. }
  destruct (Z.leb_spec (10 ^ (k - 1)) (BigZ.to_Z c)) as [H1|H1];
    destruct (Z.ltb_spec (BigZ.to_Z c) (10 ^ (k - 1) * 10)) as [H2|H2];
    cbn [andb]; try done.
  symmetry. apply decimal_facts.ndigits_unique; [|done].
  replace k with (Z.succ (k - 1)) at 2 by lia. rewrite Z.pow_succ_r by lia. lia.
Qed.

Lemma fast_round_half_even_spec c d :
  BigZ.to_Z (fast.round_half_even c d) = decimal.round_half_even (BigZ.to_Z c) d.
Proof.
  unfold fast.round_half_even, decimal.round_half_even.
  rewrite BigZ.spec_compare, BigZ.spec_mul, BigZ.spec_modulo, fast_pow10_spec, BigZ.spec_even,
    BigZ.spec_div, fast_pow10_spec.
  change (BigZ.to_Z 2) with 2.
  destruct (2 * (BigZ.to_Z c mod 10 ^ d) ?= 10 ^ d).
  - destruct (Z.even _); rewrite ?BigZ.spec_add, ?BigZ.spec_div, ?fast_pow10_spec; done.
  - by rewrite ?BigZ.spec_div, ?fast_pow10_spec.
  - by rewrite BigZ.spec_add, ?BigZ.spec_div, ?fast_pow10_spec.
Qed.

Lemma fast_fix_spec x : fast.to_model (fast.fix_ x) = decimal.fix_ (fast.to_model x).
Proof.
  destruct x as [c e]. unfold fast.fix_, decimal.fix_, fast.to_model.
  cbn [fast.coef fast.exp decimal.coef decimal.exp].
  rewrite BigZ.spec_eqb, BigZ.spec_abs, fast_ndigits_spec, BigZ.spec_abs.
  change (BigZ.to_Z 0) with 0.
  destruct (Z.abs (BigZ.to_Z c) =? 0); [done|].
  destruct (e <? _); [|done].
  rewrite fast_ndigits_spec, fast_round_half_even_spec, BigZ.spec_abs.
  destruct (decimal.prec <? _); cbn [fast.coef fast.exp];
    rewrite BigZ.spec_mul, BigZ.spec_sgn, ?BigZ.spec_div, fast_round_half_even_spec,
      BigZ.spec_abs; done.
Qed.

Lemma fast_add_exact_spec x y :
  fast.to_model (fast.add_exact x y) = decimal.add_exact (fast.to_model x) (fast.to_model y).
Proof.
  unfold fast.add_exact, decimal.add_exact, fast.to_model. cbn [fast.coef fast.exp decimal.coef decimal.exp].
  by rewrite BigZ.spec_add, !BigZ.spec_mul, !fast_pow10_spec.
Qed.

Lemma fast_neg_spec x : fast.to_model (fast.neg x) = decimal.neg (fast.to_model x).
Proof. unfold fast.neg, decimal.neg, fast.to_model. simpl. by rewrite BigZ.spec_opp. Qed.

Lemma fast_add_spec x y : fast.to_model (fast.add x y) = decimal.add (fast.to_model x) (fast.to_model y).
Proof. unfold fast.add, decimal.add. by rewrite fast_fix_spec, fast_add_exact_spec. Qed.

Lemma fast_sub_spec x y : fast.to_model (fast.sub x y) = decimal.sub (fast.to_model x) (fast.to_model y).
Proof. unfold fast.sub, decimal.sub. by rewrite fast_fix_spec, fast_add_exact_spec, fast_neg_spec. Qed.

Lemma fast_mul_spec x y : fast.to_model (fast.mul x y) = decimal.mul (fast.to_model x) (fast.to_model y).
Proof.
  unfold fast.mul, decimal.mul. rewrite fast_fix_spec. unfold fast.to_model.
  cbn [fast.coef fast.exp decimal.coef decimal.exp]. by rewrite BigZ.spec_mul.
Qed.

Lemma fast_strip_zeros_spec fuel coeff e ideal_exp :
  fast.to_model (fast.strip_zeros fuel coeff e ideal_exp)
  = decimal.strip_zeros fuel (BigZ.to_Z coeff) e ideal_exp.
Proof.
  revert coeff e. induction fuel as [|fuel IH]; intros coeff e; [done|].
  cbn [fast.strip_zeros decimal.strip_zeros].
  rewrite BigZ.spec_eqb, BigZ.spec_modulo.
  change (BigZ.to_Z 10) with 10. change (BigZ.to_Z 0) with 0.
  destruct ((e <? ideal_exp) && (BigZ.to_Z coeff mod 10 =? 0)); [|done].
  rewrite IH, BigZ.spec_div. done.
Qed.

Lemma fast_div_spec x y :
  fast.to_model <$> fast.div x y = decimal.div (fast.to_model x) (fast.to_model y).
Proof.
  destruct x as [a ea], y as [b eb]. unfold fast.div, decimal.div.
  set (F := fmap (M := option) fast.to_model). unfold fast.to_model.
  cbn [fast.coef fast.exp decimal.coef decimal.exp].
  rewrite !BigZ.spec_eqb. change (BigZ.to_Z 0) with 0.
  destruct (BigZ.to_Z b =? 0); [done|].
  destruct (BigZ.to_Z a =? 0).
  { change (decimal.mk 0 (ea - eb)) with (fast.to_model (fast.mk 0 (ea - eb))).
    by rewrite <-fast_fix_spec. }
  subst F.
  rewrite !fast_ndigits_spec, !BigZ.spec_abs.
  set (shift := decimal.ndigits (Z.abs (BigZ.to_Z b))
                - decimal.ndigits (Z.abs (BigZ.to_Z a)) + decimal.prec + 1).
  assert (∀ u v : bigZ, ∀ (e ideal : Z) (sx sy : bigZ) (fuel : nat),
            let '(coeff, remainder) := BigZ.div_eucl u v in
            fast.to_model
              (fast.fix_ (fast.mk (BigZ.mul (BigZ.mul sx sy)
                           (fast.coef (if BigZ.eqb remainder 0
                                  then fast.strip_zeros fuel coeff e ideal
                                  else fast.mk (if BigZ.eqb (BigZ.modulo coeff 5) 0
                                           then BigZ.add coeff 1 else coeff) e)))
                        (fast.exp (if BigZ.eqb remainder 0
                              then fast.strip_zeros fuel coeff e ideal
                              else fast.mk (if BigZ.eqb (BigZ.modulo coeff 5) 0
                                       then BigZ.add coeff 1 else coeff) e))))
            = let '(coeff, remainder) := Z.div_eucl (BigZ.to_Z u) (BigZ.to_Z v) in
              decimal.fix_
                (decimal.mk
                   (BigZ.to_Z sx * BigZ.to_Z sy
                    * decimal.coef (if remainder =? 0
                                    then decimal.strip_zeros fuel coeff e ideal
                                    else decimal.mk (if coeff mod 5 =? 0
                                                     then coeff + 1 else coeff) e))
                   (decimal.exp (if remainder =? 0
                                 then decimal.strip_zeros fuel coeff e ideal
                                 else decimal.mk (if coeff mod 5 =? 0
                                                  then coeff + 1 else coeff) e))))
    as Hcore.
  { intros u v e ideal sx sy fuel.
    pose proof (BigZ.spec_div_eucl u v) as Hdiv.
    destruct (BigZ.div_eucl u v) as [q r].
    destruct (Z.div_eucl (BigZ.to_Z u) (BigZ.to_Z v)) as [q' r'].
    injection Hdiv as <- <-.
    rewrite fast_fix_spec. unfold fast.to_model at 1. cbn [fast.coef fast.exp].
    rewrite !BigZ.spec_mul, !BigZ.spec_eqb, BigZ.spec_modulo.
    change (BigZ.to_Z 0) with 0. change (BigZ.to_Z 5) with 5.
    destruct (BigZ.to_Z r =? 0).
    - rewrite <-fast_strip_zeros_spec. by destruct (fast.strip_zeros fuel q e ideal).
    - cbn [fast.coef fast.exp decimal.coef decimal.exp].
      destruct (BigZ.to_Z q mod 5 =? 0); by rewrite ?BigZ.spec_add. }
  destruct (0 <=? shift).
  - specialize (Hcore (BigZ.mul (BigZ.abs a) (fast.pow10 shift)) (BigZ.abs b)
                  (ea - eb - shift) (ea - eb) (BigZ.sgn a) (BigZ.sgn b) (Z.to_nat shift)).
    rewrite BigZ.spec_mul, fast_pow10_spec, !BigZ.spec_abs, !BigZ.spec_sgn in Hcore.
    destruct (BigZ.div_eucl _ _) as [q r].
    destruct (Z.div_eucl _ _) as [q' r'].
    by rewrite <-Hcore.
  - specialize (Hcore (BigZ.abs a) (BigZ.mul (BigZ.abs b) (fast.pow10 (- shift)))
                  (ea - eb - shift) (ea - eb) (BigZ.sgn a) (BigZ.sgn b) (Z.to_nat shift)).
    rewrite BigZ.spec_mul, fast_pow10_spec, !BigZ.spec_abs, !BigZ.spec_sgn in Hcore.
    destruct (BigZ.div_eucl _ _) as [q r].
    destruct (Z.div_eucl _ _) as [q' r'].
    by rewrite <-Hcore.
Qed.

Lemma fast_dict_get_to_table cum_prob k :
  dict_get (fast.to_table cum_prob) k = fast.to_model2 <$> dict_get cum_prob k.
Proof.
  induction cum_prob as [|[k' v] cum_prob IH]; simpl; [done|].
  by destruct (N.eqb k' k).
Qed.

Lemma fast_dict_set_to_table cum_prob k v :
  dict_set (fast.to_table cum_prob) k (fast.to_model2 v) = fast.to_table (dict_set cum_prob k v).
Proof.
  induction cum_prob as [|[k' v'] cum_prob IH]; simpl; [done|].
  destruct (N.eqb k' k); simpl; [done|]. by rewrite IH.
Qed.

Lemma fast_cum_prob_loop_spec freq total keys current cum_prob :
  fast.to_table <$> fast.cum_prob_loop freq total keys current cum_prob
  = cum_prob_loop freq total keys (fast.to_model current) (fast.to_table cum_prob).
Proof.
  revert current cum_prob. induction keys as [|byte keys IH]; intros current cum_prob;
    [done|].
  cbn [fast.cum_prob_loop cum_prob_loop].
  destruct (dict_get freq byte) as [count|]; [|done]. cbn [mbind option_bind].
  rewrite <-!fast_of_int_spec, <-fast_div_spec.
  destruct (fast.div _ _) as [prob|]; [|done].
  cbn [fmap option_fmap option_map mbind option_bind].
  rewrite IH, <-fast_add_spec. by rewrite <-fast_dict_set_to_table.
Qed.

Lemma fast_build_cum_prob_spec freq :
  fast.to_table <$> fast.build_cum_prob freq = build_cum_prob freq.
Proof.
  unfold fast.build_cum_prob, build_cum_prob.
  by rewrite fast_cum_prob_loop_spec, fast_of_int_spec.
Qed.

Lemma fast_narrow_step_spec cum_prob st byte :
  fast.to_model2 <$> fast.narrow_step cum_prob st byte
  = narrow_step (fast.to_table cum_prob) (fast.to_model2 st) byte.
Proof.
  destruct st as [low high]. unfold fast.narrow_step, narrow_step, fast.to_model2 at 2.
  cbn [fst snd]. rewrite fast_dict_get_to_table.
  destruct (dict_get cum_prob byte) as [[char_low char_high]|]; [|done].
  cbn [fmap option_fmap option_map mbind option_bind fast.to_model2 fst snd].
  unfold fast.to_model2. cbn [fst snd].
  by rewrite !fast_add_spec, !fast_mul_spec, !fast_sub_spec.
Qed.

Lemma fast_narrow_loop_spec cum_prob st text :
  fast.to_model2 <$> fast.narrow_loop cum_prob st text
  = narrow_loop (fast.to_table cum_prob) (fast.to_model2 st) text.
Proof.
  revert st. induction text as [|byte text IH]; intros st; [done|].
  cbn [fast.narrow_loop narrow_loop]. rewrite <-fast_narrow_step_spec.
  destruct (fast.narrow_step cum_prob st byte) as [st'|]; [|done].
  cbn [fmap option_fmap option_map mbind option_bind]. apply IH.
Qed.

(** The interval of the model is the interval the machine integers give. *)
Lemma fast_arithmetic_interval_spec text_bytes :
  fast.to_model2 <$> fast.arithmetic_interval text_bytes = arithmetic_interval text_bytes.
Proof.
  unfold fast.arithmetic_interval, arithmetic_interval.
  rewrite <-fast_build_cum_prob_spec.
  destruct (fast.build_cum_prob _) as [cum_prob|]; [|done].
  cbn [fmap option_fmap option_map mbind option_bind].
  by rewrite fast_narrow_loop_spec.
Qed.

Lemma fast_narrow_loop_app cum_prob st text1 text2 :
  fast.narrow_loop cum_prob st (text1 ++ text2)
  = fast.narrow_loop cum_prob st text1 ≫= fun st' => fast.narrow_loop cum_prob st' text2.
Proof.
  revert st. induction text1 as [|b text1 IH]; intros st; [done|].
  cbn [app fast.narrow_loop].
  destruct (fast.narrow_step cum_prob st b) as [st1|]; [|done]. apply IH.
Qed.

(** A block of input that leaves the interval as it is does so however
    often it is repeated. *)
Lemma fast_narrow_loop_fixed cum_prob st block n :
  fast.narrow_loop cum_prob st block = Some st →
  fast.narrow_loop cum_prob st (concat (replicate n block)) = Some st.
Proof.
  intros Hblock. induction n as [|n IH]; [done|].
  cbn [replicate concat]. by rewrite fast_narrow_loop_app, Hblock.
Qed.

End fast_facts.

(** ** arithmetic_compress: the interval table *)

Lemma dict_values_set_sum (freq : list (N * N)) byte :
  foldr N.add 0 (dict_values (freq_incr freq byte)) = foldr N.add 0 (dict_values freq) + 1.
Proof.
  unfold freq_incr, dict_values. induction freq as [|[k c] freq IH]; simpl; [done|].
  destruct (N.eqb_spec k byte) as [->|Hne]; simpl.
  - lia.
  - destruct (N.eqb_spec k byte); [done|]. simpl in IH. rewrite IH. lia.
Qed.

(** FrequencyTable: the counts add up to the length of the input. *)
Lemma count_freq_total text :
  foldr N.add 0 (dict_values (count_freq text)) = N.of_nat (length text).
Proof.
  induction text as [|b text IH] using rev_ind; [done|].
  rewrite count_freq_snoc, dict_values_set_sum, IH, length_app. simpl. lia.
Qed.

Lemma sorted_keys_perm freq : sorted_keys freq ≡ₚ dict_keys freq.
Proof. apply merge_sort_Permutation. Qed.

Lemma sorted_keys_sorted freq :
  NoDup (dict_keys freq) → StronglySorted N.lt (sorted_keys freq).
Proof.
  intros Hnd. rewrite <-sorted_keys_perm in Hnd.
  pose proof (StronglySorted_merge_sort N.le (dict_keys freq)) as Hs.
  fold (sorted_keys freq) in Hs. induction Hs as [|k keys Hs IH Hall]; [constructor|].
  apply NoDup_cons in Hnd as [Hk Hnd]. constructor; [by apply IH|].
  apply Forall_forall. intros k' Hk'. rewrite Forall_forall in Hall.
  specialize (Hall k' Hk'). assert (k ≠ k') by (by intros ->). lia.
Qed.

Section table.
Context (freq : list (N * N)) (total : N) (Htotal : 0 < total).

Lemma prob_is_rounded count :
  ∃ prob, decimal.div (decimal.of_int (Z.of_N count)) (decimal.of_int (Z.of_N total))
          = Some prob ∧ rounding.is_rounded prob.
Proof. apply decimal_ops.div_is_rounded; cbn; lia. Qed.

Lemma cum_prob_loop_spec keys current cum_prob :
  NoDup keys →
  (∀ k, k ∈ keys → k ∉ dict_keys cum_prob) →
  (∀ k, k ∈ keys → is_Some (dict_get freq k)) →
  ∃ new, cum_prob_loop freq total keys current cum_prob = Some (cum_prob ++ new) ∧
         dict_keys new = keys ∧ interval_chain freq total current new.
Proof.
  revert current cum_prob.
  induction keys as [|byte keys IH]; intros current cum_prob Hnd Hfresh Hfreq.
  { exists []. by rewrite app_nil_r. }
  apply NoDup_cons in Hnd as [Hbyte Hnd]. cbn [cum_prob_loop].
  destruct (Hfreq byte) as [count Hcount]; [left|]. rewrite Hcount.
  destruct (prob_is_rounded count) as (prob & Hprob & _).
  cbn [mbind option_bind]. rewrite Hprob. cbn [mbind option_bind].
  rewrite dict_set_new by (apply Hfresh; left).
  destruct (IH (decimal.add current prob)
              (cum_prob ++ [(byte, (current, decimal.add current prob))]) Hnd)
    as (new & -> & Hkeys & Hchain).
  - intros k Hk. unfold dict_keys. rewrite map_app, elem_of_app. simpl.
    intros [Hin|Hin%list_elem_of_singleton].
    + apply (Hfresh k); [by right|done].
    + by subst.
  - intros k Hk. apply Hfreq. by right.
  - exists ((byte, (current, decimal.add current prob)) :: new).
    rewrite <-(assoc app). split_and!; [done|by simpl; rewrite Hkeys|].
    simpl. split_and!; [done| |done]. by exists count, prob.
Qed.

(** Along a chain that starts at a rounded number the bounds never
    decrease. *)
Lemma interval_chain_le start table :
  rounding.is_rounded start → interval_chain freq total start table →
  Forall (fun entry => rounding.is_rounded entry.2.1 ∧ rounding.is_rounded entry.2.2 ∧
                       decimal.le start entry.2.1 ∧ decimal.le entry.2.1 entry.2.2) table.
Proof.
  revert start. induction table as [|[byte [low high]] table IH]; intros start Hstart;
    simpl; [constructor|].
  intros (-> & (count & prob & Hcount & Hprob & ->) & Hchain).
  destruct (prob_is_rounded count) as (prob' & Hprob' & [Hp0 _]).
  rewrite Hprob in Hprob'. injection Hprob' as <-.
  assert (rounding.is_rounded (decimal.add start prob)) as Hhigh
    by (apply decimal_ops.add_is_rounded; [apply Hstart|done]).
  assert (decimal.le start (decimal.add start prob)) as Hle
    by (by apply decimal_ops.add_ge_l).
  constructor.
  - simpl. split_and!; [done..|apply rounding_facts.le_refl|done].
  - eapply Forall_impl; [by apply IH|]. intros [k [lo hi]]. simpl.
    intros (? & ? & ? & ?). split_and!; try done.
    by eapply rounding_facts.le_trans.
Qed.

Lemma interval_chain_first start byte low high table :
  interval_chain freq total start ((byte, (low, high)) :: table) → low = start.
Proof. by intros [-> _]. Qed.

Lemma interval_chain_next start table i k lo hi k' lo' hi' :
  interval_chain freq total start table →
  table !! i = Some (k, (lo, hi)) → table !! S i = Some (k', (lo', hi')) → lo' = hi.
Proof.
  revert start i. induction table as [|[byte [low high]] table IH]; intros start i; [done|].
  intros (_ & _ & Hchain). destruct i as [|i]; simpl.
  - intros [= -> -> ->]. destruct table as [|[byte' [low' high']] table]; [done|].
    intros [= -> -> ->]. by destruct Hchain as [-> _].
  - by apply (IH high).
Qed.



End table.

(** ** arithmetic_compress: the narrowing loop *)

Lemma ints_length (text_bytes : bytes) : length (ints text_bytes) = length text_bytes.
Proof. apply length_map. Qed.

(** The table of an input: its keys are the byte values of the input in
    ascending order, its intervals a chain from 0. *)
Lemma build_cum_prob_text (text_bytes : bytes) :
  let freq := count_freq (ints text_bytes) in
  ∃ cum_prob,
    build_cum_prob freq = Some cum_prob ∧
    dict_keys cum_prob = sorted_keys freq ∧
    interval_chain freq (N.of_nat (length text_bytes)) (decimal.of_int 0) cum_prob.
Proof.
  intros freq. unfold build_cum_prob. subst freq. cbv zeta.
  rewrite (count_freq_total (ints text_bytes)), ints_length.
  set (freq := count_freq (ints text_bytes)).
  destruct text_bytes as [|b0 text].
  { by exists []. }
  destruct (cum_prob_loop_spec freq (N.of_nat (length (b0 :: text))) ltac:(simpl; lia)
              (sorted_keys freq) (decimal.of_int 0) [])
    as (new & Hnew & Hkeys & Hchain).
  - rewrite sorted_keys_perm. apply count_freq_keys_NoDup.
  - intros k _ ?%elem_of_nil. done.
  - intros k Hk. rewrite sorted_keys_perm in Hk. by apply dict_get_is_Some.
  - by exists new.
Qed.

Lemma cum_prob_keys (text_bytes : bytes)
    (cum_prob : list (N * (Decimal * Decimal))) byte :
  dict_keys cum_prob = sorted_keys (count_freq (ints text_bytes)) →
  byte ∈ dict_keys cum_prob ↔ byte ∈ ints text_bytes.
Proof. intros ->. by rewrite sorted_keys_perm, count_freq_keys_elem. Qed.

(** The intervals of the table are intervals of non-negative numbers. *)
Lemma cum_prob_interval_ok freq total cum_prob byte char_low char_high :
  0 < total →
  interval_chain freq total (decimal.of_int 0) cum_prob →
  dict_get cum_prob byte = Some (char_low, char_high) →
  interval_ok (char_low, char_high).
Proof.
  intros Htotal Hchain Hget%dict_get_Some_elem.
  pose proof (interval_chain_le freq total Htotal _ _ decimal_ops.is_rounded_zero Hchain)
    as Hall.
  rewrite Forall_forall in Hall.
  destruct (Hall _ Hget) as ([? _] & [? _] & _ & ?). by split_and!.
Qed.

Lemma narrow_step_ok cum_prob st byte char_low char_high :
  interval_ok st → interval_ok (char_low, char_high) →
  dict_get cum_prob byte = Some (char_low, char_high) →
  ∃ st', narrow_step cum_prob st byte = Some st' ∧ interval_ok st'.
Proof.
  destruct st as [low high]. intros (Hlow & Hhigh & Hle) (Hcl & Hch & Hclh) Hget.
  unfold narrow_step. rewrite Hget. cbn [mbind option_bind]. simpl in *.
  eexists. split; [done|].
  pose proof (decimal_ops.sub_nonneg high low Hle) as Hrange.
  split_and!; simpl.
  - by apply decimal_ops.add_nonneg, decimal_ops.mul_nonneg.
  - by apply decimal_ops.add_nonneg, decimal_ops.mul_nonneg.
  - apply decimal_ops.add_mono_r; [done|by apply decimal_ops.mul_nonneg|].
    by apply decimal_ops.mul_mono_r.
Qed.

Lemma narrow_loop_ok freq total cum_prob st text :
  0 < total →
  interval_chain freq total (decimal.of_int 0) cum_prob →
  interval_ok st → Forall (fun byte => byte ∈ dict_keys cum_prob) text →
  ∃ st', narrow_loop cum_prob st text = Some st' ∧ interval_ok st'.
Proof.
  intros Htotal Hchain Hst Htext. revert st Hst.
  induction Htext as [|byte text Hbyte _ IH]; intros st Hst; simpl.
  { by exists st. }
  apply dict_get_is_Some in Hbyte as [[char_low char_high] Hget].
  destruct (narrow_step_ok cum_prob st byte char_low char_high Hst) as (st1 & -> & Hst1);
    [by eapply cum_prob_interval_ok|done|].
  cbn [mbind option_bind]. by apply IH.
Qed.

Lemma narrow_loop_snoc cum_prob st text byte :
  narrow_loop cum_prob st (text ++ [byte])
  = narrow_loop cum_prob st text ≫= fun st' => narrow_step cum_prob st' byte.
Proof.
  revert st. induction text as [|b text IH]; intros st; simpl.
  - by destruct (narrow_step cum_prob st byte).
  - destruct (narrow_step cum_prob st b) as [st1|]; [|done]. apply IH.
Qed.

Lemma interval_ok_initial : interval_ok narrow_initial.
Proof. split_and!; [done..|]. by vm_compute. Qed.

(** The loop runs to its end from every prefix of the input. *)
Lemma narrow_prefix_ok (text_bytes : bytes)
    (cum_prob : list (N * (Decimal * Decimal))) i :
  dict_keys cum_prob = sorted_keys (count_freq (ints text_bytes)) →
  interval_chain (count_freq (ints text_bytes)) (N.of_nat (length text_bytes))
    (decimal.of_int 0) cum_prob →
  ∃ st, narrow_loop cum_prob narrow_initial (take i (ints text_bytes)) = Some st ∧
        interval_ok st.
Proof.
  intros Hkeys Hchain. destruct text_bytes as [|b0 text].
  { change (ints []) with (@nil N). rewrite take_nil.
    eexists. split; [done|apply interval_ok_initial]. }
  eapply narrow_loop_ok; [|done|apply interval_ok_initial|].
  - simpl. lia.
  - apply Forall_forall. intros byte (j & Hj & _)%elem_of_take.
    apply (cum_prob_keys (b0 :: text)); [done|]. by eapply list_elem_of_lookup_2.
Qed.

(** ** arithmetic_compress: the claims *)

Lemma arithmetic_interval_after_all (text_bytes : bytes) :
  arithmetic_interval_after (length text_bytes) text_bytes = arithmetic_interval text_bytes.
Proof.
  unfold arithmetic_interval_after, arithmetic_interval.
  by rewrite <-ints_length, firstn_all.
Qed.

Lemma build_cum_prob_nil cum_prob :
  build_cum_prob (count_freq (ints [])) = Some cum_prob → cum_prob = [].
Proof. by intros [= <-]. Qed.

(** C2, as the code has it.  The table gives every byte value of the input,
    in ascending order, an interval that starts where the previous one ends,
    the first at 0 (the running cursor); the loop starts from [(0, 1)] and
    in round [i] replaces [(low, high)] by
    [(low + (high - low) * char_low, low + (high - low) * char_high)], both
    from the [low] of before the round, where [(char_low, char_high)] is the
    interval of the [i]-th byte.  Every operation is rounded by the context;
    the intervals need not stay below 1. *)
Theorem arithmetic_cursor_and_narrowing (text_bytes : bytes) :
  ∃ cum_prob,
    build_cum_prob (count_freq (ints text_bytes)) = Some cum_prob ∧
    StronglySorted N.lt (dict_keys cum_prob) ∧
    (∀ byte, byte ∈ dict_keys cum_prob ↔ byte ∈ ints text_bytes) ∧
    (∀ byte low high,
       cum_prob !! 0%nat = Some (byte, (low, high)) → low = decimal.of_int 0) ∧
    (∀ i byte low high byte' low' high',
       cum_prob !! i = Some (byte, (low, high)) →
       cum_prob !! S i = Some (byte', (low', high')) → low' = high) ∧
    (∀ i byte low high,
       cum_prob !! i = Some (byte, (low, high)) →
       decimal.le (decimal.of_int 0) low ∧ decimal.le low high) ∧
    arithmetic_interval_after 0 text_bytes = Some (decimal.of_int 0, decimal.of_int 1) ∧
    (∀ i byte,
       ints text_bytes !! i = Some byte →
       ∃ low high char_low char_high,
         arithmetic_interval_after i text_bytes = Some (low, high) ∧
         dict_get cum_prob byte = Some (char_low, char_high) ∧
         arithmetic_interval_after (S i) text_bytes
         = Some (decimal.add low (decimal.mul (decimal.sub high low) char_low),
                 decimal.add low (decimal.mul (decimal.sub high low) char_high))) ∧
    arithmetic_interval text_bytes = arithmetic_interval_after (length text_bytes) text_bytes.
Proof.
  destruct (build_cum_prob_text text_bytes) as (cum_prob & Hbuild & Hkeys & Hchain).
  exists cum_prob. unfold arithmetic_interval_after. rewrite Hbuild. cbn [mbind option_bind].
  split_and!.
  - done.
  - rewrite Hkeys. apply sorted_keys_sorted, count_freq_keys_NoDup.
  - intros byte. by apply cum_prob_keys.
  - intros byte low high Hfirst. destruct cum_prob as [|[? [? ?]] ?]; [done|].
    injection Hfirst as -> -> ->. by eapply interval_chain_first.
  - intros i byte low high byte' low' high'. by eapply interval_chain_next.
  - intros i byte low high Hi.
    destruct text_bytes as [|b0 text].
    { by rewrite (build_cum_prob_nil _ Hbuild) in Hi. }
    assert (0 < N.of_nat (length (b0 :: text))) as Htotal by (simpl; lia).
    pose proof (interval_chain_le _ _ Htotal _ _ decimal_ops.is_rounded_zero Hchain)
      as Hall.
    rewrite Forall_lookup in Hall. by destruct (Hall _ _ Hi) as (_ & _ & ? & ?).
  - by rewrite take_0.
  - intros i byte Hi.
    destruct (narrow_prefix_ok text_bytes cum_prob i Hkeys Hchain)
      as ([low high] & Hpre & Hok).
    assert (byte ∈ dict_keys cum_prob) as Hin.
    { apply (cum_prob_keys text_bytes); [done|]. by eapply list_elem_of_lookup_2. }
    apply dict_get_is_Some in Hin as [[char_low char_high] Hget].
    exists low, high, char_low, char_high. split_and!; [done..|].
    rewrite (take_S_r _ _ _ Hi), narrow_loop_snoc, Hpre. cbn [mbind option_bind].
    unfold narrow_step. by rewrite Hget.
  - rewrite <-(arithmetic_interval_after_all text_bytes).
    unfold arithmetic_interval_after. by rewrite Hbuild.
Qed.




(** C2 fails as stated: with eighteen byte values of probability 1/18 the
    cursor ends above 1, so the interval of the last byte value is not
    inside [0, 1). *)
Lemma cumulative_interval_above_one :
  ∃ cum_prob low high,
    build_cum_prob (count_freq (ints letters18)) = Some cum_prob ∧
    dict_get cum_prob 114 = Some (low, high) ∧
    decimal.lt (decimal.of_int 1) high.
Proof.
  let r := eval vm_compute in (fast.build_cum_prob (count_freq (ints letters18))) in
  lazymatch r with
  | Some ?t =>
      assert (fast.build_cum_prob (count_freq (ints letters18)) = Some t) as Hfast
        by (vm_compute; reflexivity);
      exists (fast.to_table t);
      let e := eval vm_compute in (dict_get t 114) in
      lazymatch e with
      | Some (?lo, ?hi) =>
          assert (dict_get t 114 = Some (lo, hi)) as Hget by (vm_compute; reflexivity);
          exists (fast.to_model lo), (fast.to_model hi)
      end
  end.
  split_and!.
  - by rewrite <-fast_facts.fast_build_cum_prob_spec, Hfast.
  - by rewrite fast_facts.fast_dict_get_to_table, Hget.
  - vm_compute. reflexivity.
Qed.


(** ** The result records and the packed outputs *)

Lemma write_bin_ints bytes_list file : write_bin bytes_list = Some file → ints file = bytes_list.
Proof.
  unfold write_bin. intros H%mapM_Some. unfold ints.
  induction H as [|n b l file Hb _ IH]; simpl; [done|].
  by rewrite IH, (Byte.to_of_N _ Hb).
Qed.

(** The interval exists for every input. *)
Lemma arithmetic_interval_total (text_bytes : bytes) :
  ∃ low high, arithmetic_interval text_bytes = Some (low, high).
Proof.
  destruct (build_cum_prob_text text_bytes) as (cum_prob & Hbuild & Hkeys & Hchain).
  destruct (narrow_prefix_ok text_bytes cum_prob (length text_bytes) Hkeys Hchain)
    as ([low high] & Hpre & _).
  exists low, high. rewrite <-arithmetic_interval_after_all.
  unfold arithmetic_interval_after. by rewrite Hbuild.
Qed.

Lemma arithmetic_bits_total (text_bytes : bytes) :
  ∃ binary_str, arithmetic_bits text_bytes = Some binary_str.
Proof.
  destruct (arithmetic_interval_total text_bytes) as (low & high & Hint).
  unfold arithmetic_bits. rewrite Hint. by eexists.
Qed.

(** C9. In each encoder the packed output is the packing of the encoder's
    bit string: fewer than eight ['0'] appended at the end, to a length that
    is a multiple of 8 and eight times the number of bytes, and every byte
    the place value of its eight bits, the first the most significant; the
    bytes written to the file are these bytes.  [huffman_compress] and
    [lzw_compress] always get there; [arithmetic_compress] does whenever its
    string has only the digits 0 and 1, and raises otherwise. *)
Theorem packed_output_is_padded_bits (text_bytes : bytes) :
  (∃ encoded_bits bytes_list file,
      huffman_bits text_bytes = Some encoded_bits ∧
      huffman_run text_bytes = Some (bytes_list, file, encode_result text_bytes bytes_list) ∧
      is_packing encoded_bits bytes_list ∧ ints file = bytes_list) ∧
  (∃ bits_str bytes_list file,
      lzw_bits text_bytes = Some bits_str ∧
      lzw_run text_bytes = Some (bytes_list, file, encode_result text_bytes bytes_list) ∧
      is_packing bits_str bytes_list ∧ ints file = bytes_list) ∧
  (∃ binary_str,
      arithmetic_bits text_bytes = Some binary_str ∧
      ((Forall is_bit binary_str ∧
        ∃ bytes_list file,
          arithmetic_run text_bytes
          = Some (bytes_list, file, encode_result text_bytes bytes_list) ∧
          is_packing binary_str bytes_list ∧ ints file = bytes_list) ∨
       (¬ Forall is_bit binary_str ∧ arithmetic_run text_bytes = None))).
Proof.
  split_and!.
  - destruct (huffman_run_spec text_bytes) as (bits & bytes_list & file & Hbits & Hrun & Hpack).
    exists bits, bytes_list, file. split_and!; [done..|].
    unfold huffman_run in Hrun. rewrite Hbits in Hrun. cbn [mbind option_bind] in Hrun.
    destruct (bytes_list_of _) as [bl|]; [|done]. cbn [mbind option_bind] in Hrun.
    destruct (write_bin bl) as [f|] eqn:Hw; [|done].
    injection Hrun as <- <-. by apply write_bin_ints.
  - destruct (lzw_run_spec text_bytes) as (bits & bytes_list & file & Hbits & Hrun & Hpack).
    exists bits, bytes_list, file. split_and!; [done..|].
    unfold lzw_run in Hrun. rewrite Hbits in Hrun. cbn [mbind option_bind] in Hrun.
    destruct (bytes_list_of _) as [bl|]; [|done]. cbn [mbind option_bind] in Hrun.
    destruct (write_bin bl) as [f|] eqn:Hw; [|done].
    injection Hrun as <- <-. by apply write_bin_ints.
  - destruct (arithmetic_bits_total text_bytes) as (bits & Hbits).
    exists bits. split; [done|]. unfold arithmetic_run. rewrite Hbits.
    cbn [mbind option_bind].
    destruct (decide (Forall is_bit bits)) as [Hbit|Hbit].
    + left. split; [done|].
      destruct (bytes_list_of_pad bits Hbit) as (bytes_list & -> & Hpack).
      destruct (write_bin_packing _ _ Hpack) as [file Hfile].
      exists bytes_list, file. cbn [mbind option_bind]. rewrite Hfile.
      split_and!; [done..|]. by apply write_bin_ints.
    + right. split; [done|].
      destruct (bytes_list_of (pad_bits bits)) as [bytes_list|] eqn:Hlist; [|done].
      exfalso. apply Hbit, bytes_list_of_pad_is_bit. by rewrite Hlist.
Qed.

(** C5. On the empty input the three encoders return a record with ratio
    0: no tree and no dictionary entry is built, and nothing is divided.
    [arithmetic_compress] still writes one byte, the single bit of 0. *)
Theorem empty_input_ratio_zero :
  huffman_compress []
    = Some {| original_size := 0; compressed_size := 0; compression_ratio := 0; time := 0 |} ∧
  arithmetic_compress []
    = Some {| original_size := 0; compressed_size := 1; compression_ratio := 0; time := 0 |} ∧
  lzw_compress []
    = Some {| original_size := 0; compressed_size := 0; compression_ratio := 0; time := 0 |}.
Proof. split_and!; by vm_compute. Qed.




Lemma ints_concat_replicate n (block : bytes) :
  ints (concat (replicate n block)) = concat (replicate n (ints block)).
Proof.
  unfold ints. induction n as [|n IH]; [done|].
  cbn [replicate concat]. by rewrite map_app, IH.
Qed.

(** [arithmetic_compress] does not return for every input.  On
    [nines10010] the 1001 leading bytes round [low] up to 1, where [high]
    is, and the rest of the input leaves the interval there; the first bit
    of the expansion is then [int(2)], the bit string is ["2"], and
    [int("20000000", 2)] raises ValueError. *)
Example arithmetic_compress_raises :
  arithmetic_interval nines10010
    = Some (decimal.mk (10 ^ 999) (-999), decimal.mk (10 ^ 999) (-999)) ∧
  arithmetic_bits nines10010 = Some ["2"%char] ∧
  arithmetic_compress nines10010 = None.
Proof.
  assert (arithmetic_interval nines10010
          = Some (decimal.mk (10 ^ 999) (-999), decimal.mk (10 ^ 999) (-999))) as Hint.
  { rewrite <-fast_facts.fast_arithmetic_interval_spec.
    unfold fast.arithmetic_interval.
    let r := eval vm_compute in (fast.build_cum_prob (count_freq (ints nines10010))) in
    lazymatch r with
    | Some ?t =>
        assert (fast.build_cum_prob (count_freq (ints nines10010)) = Some t) as ->
          by (vm_compute; reflexivity);
        cbn [mbind option_bind];
        unfold nines10010, ints; rewrite map_app; fold (ints (replicate 1001 "9"%byte));
        match goal with |- context [map Byte.to_N (concat ?l)] => fold (ints (concat l)) end;
        rewrite ints_concat_replicate, fast_facts.fast_narrow_loop_app;
        let s := eval vm_compute in
          (fast.narrow_loop t (fast.of_int 0, fast.of_int 1) (ints (replicate 1001 "9"%byte))) in
        lazymatch s with
        | Some ?st =>
            assert (fast.narrow_loop t (fast.of_int 0, fast.of_int 1)
                      (ints (replicate 1001 "9"%byte)) = Some st) as ->
              by (vm_compute; reflexivity);
            cbn [mbind option_bind];
            rewrite fast_facts.fast_narrow_loop_fixed by (vm_compute; reflexivity);
            vm_compute; reflexivity
        end
    end. }
  split; [done|].
  unfold arithmetic_compress, arithmetic_run, arithmetic_bits. rewrite Hint.
  split; by vm_compute.
Qed.

(** ** heapq keeps the heap ordered *)

Module heap_order.
Import heapq.

Lemma parent_lt i : (0 < i)%nat → ((i - 1) / 2 < i)%nat.
Proof. intros Hi. apply Nat.Div0.div_lt_upper_bound. lia. Qed.

Lemma node_lt_false a b : node_lt a b = false → node_freq b ≤ node_freq a.
Proof. unfold node_lt. intros H%N.ltb_ge. done. Qed.

Lemma node_lt_true a b : node_lt a b = true → node_freq a < node_freq b.
Proof. unfold node_lt. by intros H%N.ltb_lt. Qed.

(** Putting [item] down at [pos] when its parent is not larger. *)
Lemma place_ordered heap pos item :
  up_inv heap pos item →
  (∀ parent, (0 < pos)%nat → heap !! ((pos - 1) / 2)%nat = Some parent →
             node_freq parent ≤ node_freq item) →
  heap_ordered (<[pos := item]> heap).
Proof.
  intros [Hpos Horder Hskip Hitem] Hparent i parent child Hi Hp Hc.
  destruct (decide (i = pos)) as [->|Hne].
  - rewrite list_lookup_insert_eq in Hc by done. injection Hc as <-.
    rewrite list_lookup_insert_ne in Hp by (pose proof (parent_lt pos Hi); lia).
    by apply Hparent.
  - rewrite list_lookup_insert_ne in Hc by done.
    destruct (decide (((i - 1) / 2)%nat = pos)) as [Heq|Hne'].
    + rewrite Heq, list_lookup_insert_eq in Hp by done. injection Hp as <-.
      destruct (lookup_lt_is_Some_2 heap pos Hpos) as [v Hv].
      transitivity (node_freq v); [by apply Hitem|].
      apply (Horder i v child); [done..| |done]. by rewrite Heq.
    + rewrite list_lookup_insert_ne in Hp by done. by eapply Horder.
Qed.

Lemma siftdown_loop_ordered fuel heap pos item :
  (pos ≤ fuel)%nat → up_inv heap pos item →
  heap_ordered (siftdown_loop fuel heap 0 pos item).
Proof.
  revert heap pos. induction fuel as [|fuel IH]; intros heap pos Hfuel Hinv;
    cbn [siftdown_loop].
  { apply place_ordered; [done|]. intros; lia. }
  case_bool_decide as Hlt; [|apply place_ordered; [done|intros; lia]].
  pose proof (parent_lt pos Hlt) as Hpar.
  destruct Hinv as [Hpos Horder Hskip Hitem].
  destruct (lookup_lt_is_Some_2 heap ((pos - 1) / 2)%nat ltac:(lia)) as [parent Hp].
  rewrite Hp. destruct (node_lt item parent) eqn:Hcmp.
  - apply IH; [lia|]. split.
    + rewrite length_insert. lia.
    + intros i p c Hi Hne Hpi Hci.
      destruct (decide (i = pos)) as [->|Hne1].
      * rewrite list_lookup_insert_eq in Hci by done. injection Hci as <-.
        rewrite list_lookup_insert_ne in Hpi by lia. rewrite Hp in Hpi. by injection Hpi as <-.
      * rewrite list_lookup_insert_ne in Hci by done.
        destruct (decide (((i - 1) / 2)%nat = pos)) as [Heq|Hne2].
        -- rewrite Heq, list_lookup_insert_eq in Hpi by done. injection Hpi as <-.
           by apply (Hskip i parent c).
        -- rewrite list_lookup_insert_ne in Hpi by done. by eapply Horder.
    + intros i above c Hpp Hi Heq Ha Hci.
      rewrite list_lookup_insert_ne in Ha by (pose proof (parent_lt _ Hpp); lia).
      assert (node_freq above ≤ node_freq parent) as Hap.
      { apply (Horder ((pos - 1) / 2)%nat above parent); [done|lia|done..]. }
      destruct (decide (i = pos)) as [->|Hne1].
      * rewrite list_lookup_insert_eq in Hci by done. by injection Hci as <-.
      * rewrite list_lookup_insert_ne in Hci by done.
        transitivity (node_freq parent); [done|].
        apply (Horder i parent c); [done|done| |done]. by rewrite Heq.
    + intros v Hv. rewrite list_lookup_insert_ne in Hv by lia.
      rewrite Hp in Hv. injection Hv as <-. apply node_lt_true in Hcmp. lia.
  - apply place_ordered; [done|]. intros parent' _ Hp'.
    rewrite Hp in Hp'. injection Hp' as <-. by apply node_lt_false.
Qed.


Lemma heappush_ordered heap item :
  heap_ordered heap → heap_ordered (heappush heap item).
Proof.
  intros Hheap. unfold heappush, siftdown.
  rewrite length_app, Nat.add_sub. cbn [length].
  rewrite lookup_app_r, Nat.sub_diag by done. cbn [lookup list_lookup].
  apply siftdown_loop_ordered; [done|]. split.
  - rewrite length_app. simpl. lia.
  - intros i parent child Hi Hne Hp Hc.
    assert (i < length heap)%nat as Hlt.
    { apply lookup_lt_Some in Hc. rewrite length_app in Hc. simpl in Hc. lia. }
    pose proof (parent_lt i Hi).
    rewrite lookup_app_l in Hp, Hc by lia. by eapply Hheap.
  - intros i above child _ Hi Heq _ Hc.
    apply lookup_lt_Some in Hc. rewrite length_app in Hc. simpl in Hc.
    pose proof (parent_lt i Hi). lia.
  - intros v Hv. rewrite lookup_app_r, Nat.sub_diag in Hv by done. by injection Hv as <-.
Qed.

Lemma child_cases i pos :
  (0 < i)%nat → ((i - 1) / 2)%nat = pos → i = (2 * pos + 1)%nat ∨ i = (2 * pos + 1 + 1)%nat.
Proof.
  intros Hi <-. pose proof (Nat.div_mod_eq (i - 1) 2) as Hdm.
  pose proof (Nat.mod_upper_bound (i - 1) 2 ltac:(lia)). lia.
Qed.

Lemma parent_left pos : ((2 * pos + 1 - 1) / 2)%nat = pos.
Proof. rewrite Nat.add_sub, Nat.mul_comm. by apply Nat.div_mul. Qed.

Lemma parent_right pos : ((2 * pos + 1 + 1 - 1) / 2)%nat = pos.
Proof.
  replace (2 * pos + 1 + 1 - 1)%nat with (1 + pos * 2)%nat by lia.
  rewrite Nat.div_add by done. done.
Qed.

Lemma siftup_loop_inv fuel heap pos heap' pos' :
  down_inv heap pos → (pos < length heap)%nat → (length heap ≤ fuel + pos)%nat →
  siftup_loop fuel heap pos = (heap', pos') →
  down_inv heap' pos' ∧ length heap' = length heap ∧
  (pos' < length heap' ≤ 2 * pos' + 1)%nat.
Proof.
  revert heap pos. induction fuel as [|fuel IH]; intros heap pos Hinv Hpos Hfuel;
    cbn [siftup_loop].
  { intros [= <- <-]. split_and!; [done|done|lia..]. }
  case_bool_decide as Hlt; [|intros [= <- <-]; split_and!; [done|done|lia..]].
  destruct (lookup_lt_is_Some_2 heap (2 * pos + 1)%nat Hlt) as [c Hc]. rewrite Hc.
  destruct Hinv as [Horder Hskip].
  set (childpos := match heap !! (2 * pos + 1 + 1)%nat with
                   | Some r => if negb (node_lt c r) then (2 * pos + 1 + 1)%nat
                               else (2 * pos + 1)%nat
                   | None => (2 * pos + 1)%nat
                   end).
  (* the child that moves up, and what it is compared with *)
  assert (∃ child, heap !! childpos = Some child ∧
                   (childpos = (2 * pos + 1)%nat ∨ childpos = (2 * pos + 1 + 1)%nat) ∧
                   ∀ i other, (0 < i)%nat → ((i - 1) / 2)%nat = pos → heap !! i = Some other →
                              node_freq child ≤ node_freq other)
    as (child & Hchild & Hwhich & Hleast).
  { unfold childpos. destruct (heap !! (2 * pos + 1 + 1)%nat) as [r|] eqn:Hr.
    - destruct (node_lt c r) eqn:Hcmp; simpl.
      + exists c. split_and!; [done|by left|]. intros i other Hi Hpar Hother.
        apply node_lt_true in Hcmp.
        destruct (child_cases i pos Hi Hpar) as [->| ->]; simplify_eq; lia.
      + exists r. split_and!; [done|by right|]. intros i other Hi Hpar Hother.
        apply node_lt_false in Hcmp.
        destruct (child_cases i pos Hi Hpar) as [->| ->]; simplify_eq; lia.
    - exists c. split_and!; [done|by left|]. intros i other Hi Hpar Hother.
      destruct (child_cases i pos Hi Hpar) as [->| ->]; simplify_eq; lia. }
  rewrite Hchild. intros Hrec.
  assert (((childpos - 1) / 2)%nat = pos) as Hcp.
  { destruct Hwhich as [-> | ->]; [apply parent_left|apply parent_right]. }
  assert (pos < childpos)%nat as Hgt by (destruct Hwhich; lia).
  apply IH in Hrec as (Hinv' & Hlen' & Hleaf);
    [|split|rewrite length_insert; by eapply lookup_lt_Some|rewrite length_insert; lia].
  - split_and!; [done| |lia..]. by rewrite Hlen', length_insert.
  - intros i parent child' Hi Hne Hnp Hp Hci.
    destruct (decide (i = pos)) as [->|Hne1].
    + rewrite list_lookup_insert_eq in Hci by lia. injection Hci as <-.
      rewrite list_lookup_insert_ne in Hp by (pose proof (parent_lt pos Hi); lia).
      apply (Hskip childpos parent child); [done|lia|done..].
    + rewrite list_lookup_insert_ne in Hci by done.
      destruct (decide (((i - 1) / 2)%nat = pos)) as [Heq|Hne2].
      * rewrite Heq, list_lookup_insert_eq in Hp by lia. injection Hp as <-.
        by apply (Hleast i).
      * rewrite list_lookup_insert_ne in Hp by done. by eapply Horder.
  - intros i above child' _ Hi Heq Ha Hci.
    rewrite Hcp, list_lookup_insert_eq in Ha by lia. injection Ha as <-.
    assert (pos < i)%nat.
    { pose proof (parent_lt i Hi). lia. }
    rewrite list_lookup_insert_ne in Hci by lia.
    apply (Horder i child child'); [done|lia|lia| |done]. by rewrite Heq.
Qed.

Lemma siftup_ordered heap :
  down_inv heap 0 → heap_ordered (siftup heap 0).
Proof.
  intros Hinv. unfold siftup. destruct (heap !! 0%nat) as [newitem|] eqn:Hnew.
  2:{ destruct heap; [|done]. intros i ??? H. by rewrite lookup_nil in H. }
  destruct (siftup_loop (length heap) heap 0) as [heap' pos'] eqn:Hloop.
  apply siftup_loop_inv in Hloop as ([Horder Hskip] & Hlen & Hpos' & Hleaf);
    [|done|by eapply lookup_lt_Some|lia].
  assert (∀ i, (0 < i)%nat → ((i - 1) / 2)%nat = pos' → (length heap' ≤ i)%nat) as Hnochild.
  { intros i Hi Hpar. destruct (child_cases i pos' Hi Hpar); lia. }
  unfold siftdown. rewrite list_lookup_insert_eq by done.
  apply siftdown_loop_ordered; [done|]. split.
  - by rewrite length_insert.
  - intros i parent child Hi Hne Hp Hc.
    rewrite list_lookup_insert_ne in Hc by done.
    destruct (decide (((i - 1) / 2)%nat = pos')) as [Heq|Hne2].
    + apply lookup_lt_Some in Hc. specialize (Hnochild i Hi Heq). lia.
    + rewrite list_lookup_insert_ne in Hp by done. by eapply Horder.
  - intros i above child _ Hi Heq _ Hc.
    apply lookup_lt_Some in Hc. rewrite length_insert in Hc.
    specialize (Hnochild i Hi Heq). lia.
  - intros v Hv. rewrite list_lookup_insert_eq in Hv by done. by injection Hv as <-.
Qed.

(** The item at the root of an ordered heap is a smallest one. *)
Lemma heap_ordered_root heap root :
  heap_ordered heap → heap !! 0%nat = Some root →
  Forall (fun node => node_freq root ≤ node_freq node) heap.
Proof.
  intros Hheap Hroot. apply Forall_lookup. intros i.
  induction i as [i IH] using lt_wf_ind. intros node Hnode.
  destruct (decide (i = 0)%nat) as [->|Hne].
  - rewrite Hroot in Hnode. by injection Hnode as <-.
  - pose proof (parent_lt i ltac:(lia)) as Hpar.
    destruct (lookup_lt_is_Some_2 heap ((i - 1) / 2)%nat) as [parent Hp].
    { apply lookup_lt_Some in Hnode. lia. }
    transitivity (node_freq parent); [by eapply IH|].
    apply (Hheap i); [lia|done..].
Qed.

(** [heappop] hands out a smallest item and leaves an ordered heap. *)
Lemma heappop_ordered heap item heap' :
  heap_ordered heap → heappop heap = Some (item, heap') →
  heap_ordered heap' ∧ Forall (fun node => node_freq item ≤ node_freq node) heap'.
Proof.
  intros Hheap Hpop.
  assert (Forall (fun node => node_freq item ≤ node_freq node) heap) as Hmin.
  { apply heap_ordered_root; [done|]. unfold heappop in Hpop.
    destruct (last heap) as [lastelt|] eqn:Hlast; [|done].
    apply last_Some in Hlast as [rest ->]. rewrite removelast_last in Hpop.
    destruct rest as [|returnitem rest]; by injection Hpop as <- <-. }
  split.
  2:{ apply heapq_facts.heappop_perm in Hpop. rewrite Hpop in Hmin.
      by apply Forall_cons in Hmin as [_ ?]. }
  unfold heappop in Hpop. destruct (last heap) as [lastelt|] eqn:Hlast; [|done].
  apply last_Some in Hlast as [rest ->]. rewrite removelast_last in Hpop.
  destruct rest as [|returnitem rest].
  { injection Hpop as <- <-. intros i ??? H. by rewrite lookup_nil in H. }
  injection Hpop as <- <-. apply siftup_ordered. split.
  - intros i parent child Hi Hne Hnp Hp Hc.
    apply (Hheap i); [done|apply lookup_app_l_Some..].
    + destruct ((i - 1) / 2)%nat; [done|exact Hp].
    + destruct i; [done|exact Hc].
  - intros; lia.
Qed.

End heap_order.

(** ** The Huffman tree: weights and the two least frequent nodes *)

Lemma initial_heap_fold_inv (P : HuffmanNode → Prop) freq heap :
  (∀ byte count, (byte, count) ∈ freq → P (Leaf count byte)) →
  heap_ordered heap → Forall P heap →
  let heap' := fold_left (fun heap '(byte, count) => heapq.heappush heap (Leaf count byte))
                 freq heap in
  heap_ordered heap' ∧ Forall P heap'.
Proof.
  revert heap. induction freq as [|[byte count] freq IH]; intros heap Hleaf Hord Hall; simpl.
  { done. }
  apply IH.
  - intros b c Hin. apply Hleaf. by right.
  - by apply heap_order.heappush_ordered.
  - rewrite heapq_facts.heappush_perm. constructor; [|done]. apply Hleaf. left.
Qed.

Lemma heap_ordered_nil : heap_ordered [].
Proof. intros i ??? H. by rewrite lookup_nil in H. Qed.

Lemma initial_heap_inv (P : HuffmanNode → Prop) freq :
  (∀ byte count, (byte, count) ∈ freq → P (Leaf count byte)) →
  heap_ordered (initial_heap freq) ∧ Forall P (initial_heap freq).
Proof.
  intros Hleaf. apply (initial_heap_fold_inv P freq []); [done|apply heap_ordered_nil|done].
Qed.

(** One round of the merge loop on an ordered heap. *)
Lemma merge_round heap :
  heap_ordered heap → (1 < length heap)%nat →
  ∃ l r heap1 heap2,
    heapq.heappop heap = Some (l, heap1) ∧ heapq.heappop heap1 = Some (r, heap2) ∧
    heap ≡ₚ l :: r :: heap2 ∧
    node_freq l ≤ node_freq r ∧
    Forall (fun node => node_freq r ≤ node_freq node) heap2 ∧
    heap_ordered (heapq.heappush heap2 (Internal (node_freq l + node_freq r) l r)).
Proof.
  intros Hord Hlen.
  destruct (heapq_facts.heappop_is_Some heap) as [[l heap1] Hpop1].
  { intros ->. simpl in Hlen. lia. }
  pose proof (heapq_facts.heappop_perm _ _ _ Hpop1) as Hperm1.
  destruct (heap_order.heappop_ordered _ _ _ Hord Hpop1) as [Hord1 Hmin1].
  destruct (heapq_facts.heappop_is_Some heap1) as [[r heap2] Hpop2].
  { intros ->. rewrite Hperm1 in Hlen. simpl in Hlen. lia. }
  pose proof (heapq_facts.heappop_perm _ _ _ Hpop2) as Hperm2.
  destruct (heap_order.heappop_ordered _ _ _ Hord1 Hpop2) as [Hord2 Hmin2].
  exists l, r, heap1, heap2. split_and!; [done|done| | |done|].
  - by rewrite Hperm1, Hperm2.
  - rewrite Hperm2 in Hmin1. by apply Forall_cons in Hmin1 as [? _].
  - by apply heap_order.heappush_ordered.
Qed.

Lemma merge_loop_inv (P : HuffmanNode → Prop) fuel heap heap' :
  (∀ l r, P l → P r → node_freq l ≤ node_freq r →
          P (Internal (node_freq l + node_freq r) l r)) →
  heap_ordered heap → Forall P heap →
  merge_loop fuel heap = Some heap' →
  heap_ordered heap' ∧ Forall P heap'.
Proof.
  intros Hmerge. revert heap. induction fuel as [|fuel IH]; intros heap Hord Hall;
    cbn [merge_loop].
  { by intros [= <-]. }
  case_bool_decide as Hlen; [|by intros [= <-]].
  destruct (merge_round heap Hord Hlen)
    as (l & r & heap1 & heap2 & -> & Hpop2 & Hperm & Hle & _ & Hord').
  cbn [mbind option_bind]. rewrite Hpop2. cbn [mbind option_bind].
  apply IH; [done|].
  rewrite heapq_facts.heappush_perm. rewrite Hperm in Hall.
  apply Forall_cons in Hall as [Hl Hall]. apply Forall_cons in Hall as [Hr Hall].
  constructor; [by apply Hmerge|done].
Qed.

(** The root, with a property that leaves have and merging keeps. *)
Lemma huffman_root_inv (P : HuffmanNode → Prop) freq root :
  (∀ byte count, (byte, count) ∈ freq → P (Leaf count byte)) →
  (∀ l r, P l → P r → node_freq l ≤ node_freq r →
          P (Internal (node_freq l + node_freq r) l r)) →
  huffman_root freq = Some (Some root) → P root.
Proof.
  intros Hleaf Hmerge. unfold huffman_root.
  destruct (initial_heap_inv P freq Hleaf) as [Hord Hall].
  destruct (merge_loop _ _) as [heap|] eqn:Hloop; [|done]. cbn [mbind option_bind].
  destruct (merge_loop_inv P _ _ _ Hmerge Hord Hall Hloop) as [_ Hall'].
  destruct heap as [|node heap]; [done|].
  destruct (heapq.heappop (node :: heap)) as [[root' rest]|] eqn:Hpop; [|done].
  intros [= <-]. apply heapq_facts.heappop_perm in Hpop.
  rewrite Hpop in Hall'. by apply Forall_cons in Hall' as [? _].
Qed.

Lemma dict_get_elem_NoDup {V} (d : list (N * V)) k v :
  NoDup (dict_keys d) → (k, v) ∈ d → dict_get d k = Some v.
Proof.
  unfold dict_keys. induction d as [|[k0 v0] d IH]; cbn [map fst dict_get].
  { by intros _ ?%elem_of_nil. }
  intros [Hk Hnd]%NoDup_cons [[= -> ->]|Hin]%elem_of_cons.
  - by rewrite N.eqb_refl.
  - destruct (N.eqb_spec k0 k) as [->|_]; [|by apply IH].
    exfalso. apply Hk. apply list_elem_of_fmap. by exists (k, v).
Qed.

Lemma foldr_add_app (l1 l2 : list N) :
  foldr N.add 0 (l1 ++ l2) = foldr N.add 0 l1 + foldr N.add 0 l2.
Proof. induction l1 as [|x l1 IH]; simpl; lia. Qed.

Lemma weights_ok_sum freq node :
  weights_ok freq node →
  node_freq node = foldr N.add 0 (leaf_count freq <$> leaf_bytes node).
Proof.
  induction node as [f byte|f l IHl r IHr]; simpl.
  - unfold leaf_count. intros ->. cbn. lia.
  - intros (-> & Hl & Hr). by rewrite fmap_app, foldr_add_app, IHl, IHr.
Qed.

Lemma foldr_add_perm (l1 l2 : list N) : l1 ≡ₚ l2 → foldr N.add 0 l1 = foldr N.add 0 l2.
Proof. induction 1; simpl; lia. Qed.

Lemma leaf_count_keys_sum (freq : list (N * N)) :
  NoDup (dict_keys freq) →
  foldr N.add 0 (leaf_count freq <$> dict_keys freq) = foldr N.add 0 (dict_values freq).
Proof.
  unfold dict_keys, dict_values.
  induction freq as [|[k v] freq IH]; [done|]. cbn [map fst snd fmap list_fmap foldr].
  intros [Hk Hnd]%NoDup_cons. unfold leaf_count at 1. cbn [dict_get].
  rewrite N.eqb_refl. cbn [default]. f_equal. rewrite <-IH by done. f_equal.
  apply list_fmap_ext. intros i k' Hk'. unfold leaf_count. cbn [dict_get].
  destruct (N.eqb_spec k k') as [->|_]; [|done].
  exfalso. apply Hk. by eapply list_elem_of_lookup_2.
Qed.

(** X3. The tree of a non-empty input: every leaf carries the count of its
    byte value, every internal node the sum of its two subtrees, the left
    subtree is nowhere heavier than the right one, and the root carries
    the length of the input. *)
Theorem huffman_tree_weights (byte : Byte.byte) (rest : bytes) :
  let text_bytes := byte :: rest in
  let freq := count_freq (ints text_bytes) in
  ∃ root,
    huffman_root freq = Some (Some root) ∧
    weights_ok freq root ∧
    lighter_left root ∧
    node_freq root = N.of_nat (length text_bytes).
Proof.
  intros text_bytes freq.
  destruct (huffman_root_spec freq) as (root & Hroot & Hbytes).
  { intros H%count_freq_nil_inv. done. }
  exists root.
  assert (weights_ok freq root ∧ lighter_left root) as [Hw Hl].
  { apply (huffman_root_inv (fun node => weights_ok freq node ∧ lighter_left node) freq);
      [| |done].
    - intros b c Hin. split; [|done]. simpl.
      apply dict_get_elem_NoDup; [apply count_freq_keys_NoDup|done].
    - intros l r [? ?] [? ?] ?. simpl. by split_and!. }
  split_and!; [done..|].
  rewrite (weights_ok_sum freq root Hw), (foldr_add_perm _ _ (fmap_Permutation _ _ _ Hbytes)).
  rewrite leaf_count_keys_sum by apply count_freq_keys_NoDup.
  unfold freq. by rewrite count_freq_total, ints_length.
Qed.
Lemma merge_loop_is_Some fuel heap : is_Some (merge_loop fuel heap).
Proof.
  revert heap. induction fuel as [|fuel IH]; intros heap; cbn [merge_loop]; [done|].
  case_bool_decide as Hlen; [|done].
  destruct (heapq_facts.heappop_is_Some heap) as [[l heap1] Hpop1].
  { intros ->. simpl in Hlen. lia. }
  pose proof (heapq_facts.heappop_length _ _ _ Hpop1) as Hlen1.
  destruct (heapq_facts.heappop_is_Some heap1) as [[r heap2] Hpop2].
  { intros ->. simpl in Hlen1. lia. }
  rewrite Hpop1. cbn [mbind option_bind]. rewrite Hpop2. cbn [mbind option_bind]. apply IH.
Qed.

Lemma merge_loop_unfold fuel heap :
  merge_loop (S fuel) heap
  = if bool_decide (1 < length heap)%nat then
      '(l, heap1) ← heapq.heappop heap;
      '(r, heap2) ← heapq.heappop heap1;
      merge_loop fuel (heapq.heappush heap2 (Internal (node_freq l + node_freq r) l r))
    else Some heap.
Proof. done. Qed.

(** One more round of fuel is one more round of the loop. *)
Lemma merge_loop_S fuel heap :
  merge_loop (S fuel) heap = merge_loop fuel heap ≫= merge_loop 1.
Proof.
  revert heap. induction fuel as [|fuel IH]; intros heap; [done|].
  rewrite (merge_loop_unfold (S fuel) heap), (merge_loop_unfold fuel heap).
  case_bool_decide as Hlen.
  - destruct (heapq.heappop heap) as [[l heap1]|]; [|done]. cbn [mbind option_bind].
    destruct (heapq.heappop heap1) as [[r heap2]|]; [|done]. cbn [mbind option_bind].
    apply IH.
  - cbn [mbind option_bind]. rewrite merge_loop_unfold. by rewrite bool_decide_eq_false_2.
Qed.

(** X2. In every round the merge loop takes the two nodes of least frequency
    out of the heap: the heap after any number of rounds is ordered, the
    first node popped is not heavier than the second, and the second is not
    heavier than any node left. *)
Theorem merge_takes_two_least (freq : list (N * N)) (rounds : nat) :
  ∃ heap,
    merge_loop rounds (initial_heap freq) = Some heap ∧
    heap_ordered heap ∧
    ((1 < length heap)%nat →
     ∃ l r heap1 heap2,
       heapq.heappop heap = Some (l, heap1) ∧
       heapq.heappop heap1 = Some (r, heap2) ∧
       node_freq l ≤ node_freq r ∧
       Forall (fun node => node_freq r ≤ node_freq node) heap2 ∧
       merge_loop (S rounds) (initial_heap freq)
       = Some (heapq.heappush heap2 (Internal (node_freq l + node_freq r) l r))).
Proof.
  destruct (merge_loop_is_Some rounds (initial_heap freq)) as [heap Hloop].
  destruct (initial_heap_inv (fun _ => True) freq) as [Hord0 Hall0]; [done|].
  destruct (merge_loop_inv (fun _ => True) _ _ _ ltac:(done) Hord0 Hall0 Hloop) as [Hord _].
  exists heap. split_and!; [done..|]. intros Hlen.
  destruct (merge_round heap Hord Hlen)
    as (l & r & heap1 & heap2 & Hpop1 & Hpop2 & _ & Hle & Hmin & _).
  exists l, r, heap1, heap2. split_and!; [done..|].
  rewrite merge_loop_S, Hloop. cbn [mbind option_bind]. rewrite merge_loop_unfold.
  rewrite bool_decide_eq_true_2 by done.
  rewrite Hpop1. cbn [mbind option_bind]. by rewrite Hpop2.
Qed.
(** ** The Huffman codes: length, decodability, size of the output *)

Lemma leaf_bytes_length node : (0 < length (leaf_bytes node))%nat.
Proof. induction node; simpl; [lia|]. rewrite length_app. lia. Qed.

(** The code of a leaf is shorter than the tree has leaves. *)
Lemma tree_codes_length node current_code byte code :
  (byte, code) ∈ tree_codes node current_code →
  (length code + 1 ≤ length current_code + length (leaf_bytes node))%nat.
Proof.
  revert current_code. induction node as [f b|f l IHl r IHr]; intros current_code; simpl.
  - intros [= _ ->]%list_elem_of_singleton. lia.
  - pose proof (leaf_bytes_length l) as Hl. pose proof (leaf_bytes_length r) as Hr.
    rewrite length_app.
    intros [H%IHl|H%IHr]%elem_of_app; rewrite length_app in H; simpl in H; lia.
Qed.

Lemma bounded_NoDup_length (l : list N) :
  NoDup l → Forall (fun i => i < 256) l → (length l ≤ 256)%nat.
Proof.
  intros Hnd Hall.
  assert (l ⊆+ (N.of_nat <$> seq 0 256)) as Hsub.
  { apply NoDup_submseteq; [done|]. intros x Hx.
    rewrite Forall_forall in Hall. specialize (Hall x Hx).
    apply list_elem_of_fmap. exists (N.to_nat x). rewrite N2Nat.id. split; [done|].
    apply elem_of_seq. lia. }
  apply submseteq_length in Hsub. by rewrite length_fmap, length_seq in Hsub.
Qed.

(** The tree of a non-empty input has one leaf per entry of the frequency
    table. *)
Lemma huffman_code_table_leaves (byte : Byte.byte) (rest : bytes) :
  let text_bytes := byte :: rest in
  ∃ root, huffman_code_table text_bytes = Some (build_code root [] ∅) ∧
          NoDup (leaf_bytes root) ∧
          (∀ b, b ∈ leaf_bytes root ↔ b ∈ ints text_bytes) ∧
          length (leaf_bytes root) = length (count_freq (ints text_bytes)).
Proof.
  intros text_bytes.
  destruct (huffman_code_table_tree text_bytes) as (root & Htable & Hnd & Hbytes); [done|].
  exists root. split_and!; [done..|].
  rewrite <-(length_fmap fst (count_freq _)). apply Permutation_length.
  apply NoDup_Permutation; [done|apply count_freq_keys_NoDup|].
  intros b. rewrite Hbytes. symmetry. apply count_freq_keys_elem.
Qed.

(** X4. No code is as long as the frequency table has entries, and none is
    longer than 255 bits. *)
Theorem huffman_code_length_bound (text_bytes : bytes) :
  ∃ code_table,
    huffman_code_table text_bytes = Some code_table ∧
    ∀ byte code,
      code_table !! byte = Some code →
      (length code < length (count_freq (ints text_bytes)))%nat ∧
      (length code ≤ 255)%nat.
Proof.
  destruct text_bytes as [|b0 text].
  { exists ∅. split; [apply huffman_code_table_nil|]. intros byte code H.
    by rewrite lookup_empty in H. }
  destruct (huffman_code_table_leaves b0 text) as (root & Htable & Hnd & Hbytes & Hlen).
  exists (build_code root [] ∅). split; [done|]. intros byte code Hlook.
  apply build_code_lookup_inv, tree_codes_length in Hlook; [|done]. simpl in Hlook.
  assert (length (leaf_bytes root) ≤ 256)%nat as Hbound.
  { apply bounded_NoDup_length; [done|]. apply Forall_forall. intros b Hb%Hbytes.
    pose proof (ints_bounded (b0 :: text)) as Hall. rewrite Forall_forall in Hall.
    by apply Hall. }
  lia.
Qed.

Lemma tree_codes_nonempty f l r byte code :
  (byte, code) ∈ tree_codes (Internal f l r) [] → code ≠ [].
Proof.
  simpl. intros [H|H]%elem_of_app; apply tree_codes_prefix in H as [k ->]; done.
Qed.

(** A sequence of codes of a prefix-free table without an empty code can
    be cut into its codes in one way only. *)
Lemma prefix_free_decode (code_table : gmap N str) :
  (∀ b c, code_table !! b = Some c → c ≠ []) →
  (∀ b1 b2 c1 c2, code_table !! b1 = Some c1 → code_table !! b2 = Some c2 →
                  c1 `prefix_of` c2 → b1 = b2) →
  ∀ t1 t2 cs1 cs2,
    mapM (fun byte => code_table !! byte) t1 = Some cs1 →
    mapM (fun byte => code_table !! byte) t2 = Some cs2 →
    concat cs1 = concat cs2 → t1 = t2.
Proof.
  intros Hne Hpf t1. induction t1 as [|b1 t1 IH]; intros t2 cs1 cs2 H1 H2 Hcat.
  - apply mapM_Some in H1. apply Forall2_nil_inv_l in H1 as ->.
    destruct t2 as [|b2 t2]; [done|].
    apply mapM_Some in H2. apply Forall2_cons_inv_l in H2 as (c2 & cs2' & Hc2 & _ & ->).
    apply Hne in Hc2. simpl in Hcat. symmetry in Hcat. by apply app_eq_nil in Hcat as [? _].
  - apply mapM_Some in H1. apply Forall2_cons_inv_l in H1 as (c1 & cs1' & Hc1 & H1 & ->).
    destruct t2 as [|b2 t2].
    { apply mapM_Some in H2. apply Forall2_nil_inv_l in H2 as ->.
      apply Hne in Hc1. simpl in Hcat. by apply app_eq_nil in Hcat as [? _]. }
    apply mapM_Some in H2. apply Forall2_cons_inv_l in H2 as (c2 & cs2' & Hc2 & H2 & ->).
    simpl in Hcat.
    assert (b1 = b2) as <-.
    { destruct (prefix_weak_total c1 c2 (c1 ++ concat cs1')) as [Hp|Hp].
      - by apply prefix_app_r.
      - rewrite Hcat. by apply prefix_app_r.
      - by eapply Hpf.
      - symmetry. by eapply Hpf. }
    assert (c2 = c1) as -> by congruence.
    apply app_inv_head in Hcat. f_equal.
    eapply IH; [by apply mapM_Some| |done]. by apply mapM_Some.
Qed.

(** X5. When the input has two different byte values, every sequence of byte
    values of the table is determined by the concatenation of its codes:
    the bit string can be decoded in one way only. *)
Theorem huffman_code_uniquely_decodable (text_bytes : bytes) :
  ∃ code_table,
    huffman_code_table text_bytes = Some code_table ∧
    ((∃ b1 b2, b1 ∈ ints text_bytes ∧ b2 ∈ ints text_bytes ∧ b1 ≠ b2) →
     ∀ t1 t2 cs1 cs2,
       mapM (fun byte => code_table !! byte) t1 = Some cs1 →
       mapM (fun byte => code_table !! byte) t2 = Some cs2 →
       concat cs1 = concat cs2 → t1 = t2).
Proof.
  destruct text_bytes as [|b0 text].
  { exists ∅. split; [apply huffman_code_table_nil|].
    by intros (b1 & _ & ?%elem_of_nil & _). }
  destruct (huffman_code_table_leaves b0 text) as (root & Htable & Hnd & Hbytes & _).
  exists (build_code root [] ∅). split; [done|].
  intros (b1 & b2 & Hb1%Hbytes & Hb2%Hbytes & Hne).
  destruct root as [f b|f l r].
  { simpl in Hb1, Hb2. apply list_elem_of_singleton in Hb1, Hb2. congruence. }
  apply prefix_free_decode.
  - intros b c Hlook%build_code_lookup_inv; [|done]. by eapply tree_codes_nonempty.
  - intros x1 x2 c1 c2 H1%build_code_lookup_inv H2%build_code_lookup_inv; [|done..].
    by eapply tree_codes_prefix_free.
Qed.
(** The bytes of a packing: one per eight bits, the last eight filled
    up. *)
Lemma is_packing_length bits bytes_list :
  is_packing bits bytes_list → length bytes_list = ((length bits + 7) / 8)%nat.
Proof.
  intros (padding & Hpad & Hlen & _). rewrite length_app, length_replicate in Hlen.
  apply (Nat.div_unique _ _ _ (7 - padding)); lia.
Qed.

Lemma weighted_freq_incr (f : N → nat) freq byte :
  sum_list_with (weighted f) (freq_incr freq byte)
  = (sum_list_with (weighted f) freq + f byte)%nat.
Proof.
  unfold freq_incr. induction freq as [|[k v] freq IH]; cbn [dict_get dict_set].
  - unfold weighted. simpl. lia.
  - destruct (N.eqb_spec k byte) as [->|Hne]; cbn [sum_list_with default].
    + unfold weighted. cbn [fst snd]. rewrite N2Nat.inj_add. change (N.to_nat 1) with 1%nat. unfold id. lia.
    + rewrite IH. lia.
Qed.

Lemma weighted_count_freq (f : N → nat) text :
  sum_list_with (weighted f) (count_freq text) = sum_list_with f text.
Proof.
  induction text as [|byte text IH] using rev_ind; [done|].
  rewrite count_freq_snoc, weighted_freq_incr, IH, sum_list_with_app. simpl. lia.
Qed.

Lemma mapM_concat_length (code_table : gmap N str) text codes :
  mapM (fun byte => code_table !! byte) text = Some codes →
  length (concat codes)
  = sum_list_with (fun byte => length (default [] (code_table !! byte))) text.
Proof.
  intros H%mapM_Some. induction H as [|byte code text codes Hcode _ IH]; [done|].
  simpl. by rewrite length_app, IH, Hcode.
Qed.

(** X6. The size of the output of [huffman_compress]: the bit string has, for
    every entry of the frequency table, the count times the length of the
    code, and is packed into one byte per eight bits, rounded up. *)
Theorem huffman_compressed_size (text_bytes : bytes) :
  ∃ code_table encoded_bits bytes_list file,
    huffman_code_table text_bytes = Some code_table ∧
    huffman_bits text_bytes = Some encoded_bits ∧
    huffman_run text_bytes = Some (bytes_list, file, encode_result text_bytes bytes_list) ∧
    length encoded_bits
    = sum_list_with (weighted (fun byte => length (default [] (code_table !! byte))))
        (count_freq (ints text_bytes)) ∧
    length bytes_list = ((length encoded_bits + 7) / 8)%nat.
Proof.
  destruct (huffman_run_spec text_bytes) as (bits & bytes_list & file & Hbits & Hrun & Hpack).
  unfold huffman_bits in Hbits.
  destruct (huffman_code_table text_bytes) as [code_table|] eqn:Htable; [|done].
  cbn [mbind option_bind] in Hbits.
  destruct (mapM _ (ints text_bytes)) as [codes|] eqn:Hcodes; [|done].
  injection Hbits as <-.
  exists code_table, (concat codes), bytes_list, file. split_and!; [done| |done| |].
  - unfold huffman_bits. rewrite Htable. cbn [mbind option_bind]. by rewrite Hcodes.
  - rewrite (mapM_concat_length _ _ _ Hcodes).
    symmetry. apply (weighted_count_freq (fun byte => length (default [] (code_table !! byte)))).
  - by apply is_packing_length.
Qed.
(** ** The frequency table counts the occurrences *)

(** X1. [freq[byte]] is the number of occurrences of [byte] in the input; a
    byte value that does not occur has no entry.  The entries add up to the
    length of the input. *)
Theorem count_freq_counts (text_bytes : bytes) (byte : N) :
  let occurrences := count_occ N.eq_dec (ints text_bytes) byte in
  dict_get (count_freq (ints text_bytes)) byte
  = (if decide (occurrences = 0%nat) then None else Some (N.of_nat occurrences)) ∧
  foldr N.add 0 (dict_values (count_freq (ints text_bytes))) = N.of_nat (length text_bytes).
Proof.
  cbv zeta. split; [|by rewrite count_freq_total, ints_length].
  induction (ints text_bytes) as [|b text IH] using rev_ind; [done|].
  rewrite count_freq_snoc, count_occ_app. unfold freq_incr. cbn [count_occ].
  destruct (N.eq_dec b byte) as [->|Hne].
  - rewrite dict_get_set_eq, IH.
    case_decide as H0; [rewrite H0|]; (case_decide; [lia|]); f_equal; simpl; lia.
  - by rewrite dict_get_set_ne, IH, Nat.add_0_r.
Qed.

(** ** lzw_compress: the size of the dictionary and of the codes *)

Lemma lzw_size_inv_initial : lzw_size_inv lzw_initial [].
Proof.
  split; unfold lzw_initial; cbn [dictionary next_code s encoded]; done.
Qed.

Lemma lzw_step_size_inv st st' processed byte :
  lzw_inv st processed → lzw_size_inv st processed → byte < 256 →
  lzw_step st byte = Some st' → lzw_size_inv st' (processed ++ [byte]).
Proof.
  intros [Hsingle Hcur Hbound Hinj _] [Hnext Hdict Hcodes Hne Hlen] Hbyte. unfold lzw_step.
  destruct (dictionary st !! (s st ++ [byte])) as [c|] eqn:Hsc.
  - intros [= <-]. split; cbn [dictionary next_code s encoded]; try done.
    + intros _. by destruct (s st).
    + rewrite !length_app. simpl. lia.
  - destruct (dictionary st !! s st) as [code|] eqn:Hcode; [|done].
    cbn [mbind option_bind]. intros [= <-].
    assert (s st ≠ []) as Hs.
    { intros Hs. rewrite Hs in Hsc. simpl in Hsc. by rewrite Hsingle in Hsc. }
    assert (0 < length (s st))%nat by (destruct (s st); [done|simpl; lia]).
    split; cbn [dictionary next_code s encoded].
    + rewrite Hnext, length_app. simpl. lia.
    + rewrite map_size_insert_None by done. rewrite Hdict. lia.
    + intros i c Hi. apply lookup_app_Some in Hi as [Hi|[Hge Hi]]; [by apply Hcodes|].
      apply list_lookup_singleton_Some in Hi as [Hi <-]. apply Hbound in Hcode. lia.
    + done.
    + rewrite !length_app. simpl. lia.
Qed.

Lemma lzw_loop_size_inv st st' processed text :
  lzw_inv st processed → lzw_size_inv st processed → Forall (fun i => i < 256) text →
  lzw_loop st text = Some st' → lzw_size_inv st' (processed ++ text).
Proof.
  intros Hinv Hsize Htext. revert st processed Hinv Hsize.
  induction Htext as [|byte text Hbyte _ IH]; intros st processed Hinv Hsize; simpl.
  - intros [= <-]. by rewrite app_nil_r.
  - destruct (lzw_step_inv st processed byte Hinv Hbyte) as (st1 & Hstep & Hinv1).
    rewrite Hstep. cbn [mbind option_bind]. intros Hloop.
    rewrite cons_middle, (assoc_L app). apply (IH st1); [done| |done].
    by eapply lzw_step_size_inv.
Qed.

(** The end of the encoder, with its sizes. *)
Lemma lzw_encode_sizes (text_bytes : bytes) :
  ∃ st,
    lzw_encode text_bytes = Some st ∧
    (length (encoded st) ≤ length text_bytes)%nat ∧
    (text_bytes = [] ↔ encoded st = []) ∧
    next_code st = 256 + N.of_nat (length (encoded st) - 1) ∧
    size (dictionary st) = N.to_nat (next_code st) ∧
    ∀ i c, encoded st !! i = Some c → c < 256 + N.of_nat i.
Proof.
  unfold lzw_encode.
  destruct (lzw_loop_inv lzw_initial [] (ints text_bytes) lzw_inv_initial
              (ints_bounded text_bytes)) as (st & Hloop & Hinv).
  pose proof (lzw_loop_size_inv _ _ _ _ lzw_inv_initial lzw_size_inv_initial
                (ints_bounded text_bytes) Hloop) as [Hnext Hdict Hcodes Hne Hlen].
  rewrite Hloop. cbn [mbind option_bind]. simpl in Hne, Hlen. rewrite ints_length in Hlen.
  destruct Hinv as [_ Hcur Hbound _ _]. unfold lzw_flush.
  destruct (s st) as [|b0 rest] eqn:Hs.
  - assert (text_bytes = []) as ->.
    { destruct text_bytes; [done|]. by destruct Hne. }
    simpl in Hlen. assert (encoded st = []) as Henc by (destruct (encoded st); [done|simpl in *; lia]).
    exists st. rewrite Henc in *. split_and!; done.
  - destruct Hcur as [code Hcode]; [done|]. rewrite Hcode. cbn [mbind option_bind].
    eexists. split; [done|]. cbn [dictionary next_code s encoded].
    rewrite length_app. simpl in *. split_and!.
    + lia.
    + split; [intros ->; simpl in Hlen; lia|by intros [_ ?]%app_eq_nil].
    + rewrite Hnext. f_equal. lia.
    + done.
    + intros i c Hi. apply lookup_app_Some in Hi as [Hi|[Hge Hi]]; [by apply Hcodes|].
      apply list_lookup_singleton_Some in Hi as [Hi <-]. apply Hbound in Hcode. lia.
Qed.

(** X7. The codes and the dictionary of [lzw_compress]: there are no more codes
    than input bytes and none only for the empty input; the dictionary
    holds [next_code] strings, the 256 single bytes and one for every code
    but the last; and a code is smaller than 256 plus its position. *)
Theorem lzw_codes_and_dictionary_size (text_bytes : bytes) :
  ∃ st,
    lzw_encode text_bytes = Some st ∧
    (length (encoded st) ≤ length text_bytes)%nat ∧
    (text_bytes = [] ↔ encoded st = []) ∧
    next_code st = 256 + N.of_nat (length (encoded st) - 1) ∧
    size (dictionary st) = N.to_nat (next_code st) ∧
    ∀ i c, encoded st !! i = Some c → c < 256 + N.of_nat i.
Proof. apply lzw_encode_sizes. Qed.

(** X8. Up to 3841 codes, and so for every input of at most 3841 bytes, the
    codes are within the twelve bits: every code is below 4096, the bit
    string has twelve characters per code, and the output has three bytes
    for every two codes, rounded up. *)
Theorem lzw_short_input_twelve_bits (text_bytes : bytes) :
  ∃ st bits_str bytes_list file,
    lzw_encode text_bytes = Some st ∧
    lzw_bits text_bytes = Some bits_str ∧
    lzw_run text_bytes = Some (bytes_list, file, encode_result text_bytes bytes_list) ∧
    (length (encoded st) ≤ length text_bytes)%nat ∧
    ((length (encoded st) ≤ 3841)%nat →
     Forall (fun code => code < 4096) (encoded st) ∧
     length bits_str = (12 * length (encoded st))%nat ∧
     length bytes_list = ((3 * length (encoded st) + 1) / 2)%nat).
Proof.
  destruct (lzw_encode_sizes text_bytes) as (st & Hst & Hlen & _ & _ & _ & Hcodes).
  destruct (lzw_run_spec text_bytes) as (bits & bytes_list & file & Hbits & Hrun & Hpack).
  exists st, bits, bytes_list, file. split_and!; [done..|]. intros Hshort.
  assert (Forall (fun code => code < 4096) (encoded st)) as Hall.
  { apply Forall_lookup. intros i c Hi. pose proof (lookup_lt_Some _ _ _ Hi).
    apply Hcodes in Hi. lia. }
  assert (length bits = (12 * length (encoded st))%nat) as Hbitlen.
  { unfold lzw_bits in Hbits. rewrite Hst in Hbits. injection Hbits as <-.
    by apply lzw_bits_of_length. }
  split_and!; [done..|].
  rewrite (is_packing_length _ _ Hpack), Hbitlen.
  generalize (length (encoded st)). intros n.
  pose proof (Nat.div_mod_eq (3 * n + 1) 2). pose proof (Nat.div_mod_eq (12 * n + 7) 8).
  pose proof (Nat.mod_upper_bound (3 * n + 1) 2). pose proof (Nat.mod_upper_bound (12 * n + 7) 8).
  lia.
Qed.
(** ** lzw_compress: the codes determine the input *)

Lemma lzw_decode_loop_snoc d codes code :
  lzw_decode_loop d (codes ++ [code])
  = lzw_decode_loop d codes ≫= fun d' => lzw_decode_step d' code.
Proof. unfold lzw_decode_loop. by rewrite fold_left_app. Qed.

Lemma lzw_sync_initial : lzw_sync lzw_initial [] lzw_decoder_initial.
Proof.
  split; unfold lzw_initial, lzw_decoder_initial;
    cbn [dictionary next_code s encoded table previous output lzw_entries];
    [done..|].
  intros k c. rewrite lzw_initial_dictionary_lookup. split.
  - intros [-> ?]. by left.
  - intros [[? ->]|[_ H]]; [done|]. by rewrite lookup_nil in H.
Qed.

(** The decoder reads the code of the current match as the match. *)
Lemma lzw_sync_decode st processed d code :
  lzw_sync st processed d → s st ≠ [] → dictionary st !! s st = Some code →
  lzw_decode_step d code
  = Some {| table := lzw_entries d (s st); previous := s st; output := output d ++ s st |}.
Proof.
  intros [_ _ Hfirst _ _ Hdict] Hs Hcode. unfold lzw_decode_step.
  assert (lzw_decode_code d code = Some (s st)) as ->; [|done].
  unfold lzw_decode_code. apply Hdict in Hcode as [[Hlt ->]|[Hge Hentry]].
  { apply N.ltb_lt in Hlt. by rewrite Hlt. }
  destruct (N.ltb_spec code 256) as [?|_]; [lia|].
  unfold lzw_entries in Hentry.
  destruct (previous d) as [|p0 p'] eqn:Hprev.
  { rewrite Hfirst in Hentry by done. by rewrite lookup_nil in Hentry. }
  destruct (s st) as [|first rest] eqn:Hst; [done|].
  apply lookup_app_Some in Hentry as [Hentry|[Hge' Hentry]]; [by rewrite Hentry|].
  apply list_lookup_singleton_Some in Hentry as [Hidx Heq].
  rewrite (lookup_ge_None_2 (table d)) by lia.
  assert (code = 256 + N.of_nat (length (table d))) as -> by lia.
  rewrite N.eqb_refl. f_equal. rewrite <-Heq. simpl in Heq. by injection Heq as -> _.
Qed.

Lemma lzw_step_sync st st' processed d byte :
  lzw_inv st processed → lzw_sync st processed d → byte < 256 →
  lzw_step st byte = Some st' →
  ∃ d', lzw_sync st' (processed ++ [byte]) d'.
Proof.
  intros [Hsingle Hcur Hbound _ _] Hsync Hbyte. unfold lzw_step.
  destruct (dictionary st !! (s st ++ [byte])) as [c|] eqn:Hsc.
  - intros [= <-]. exists d. destruct Hsync as [Hdec Hout Hfirst Hcurrent Hnext Hdict].
    assert (lzw_entries d (s st ++ [byte]) = lzw_entries d (s st)) as Hentries.
    { unfold lzw_entries. destruct (previous d) as [|p0 p'] eqn:Hprev; [done|].
      destruct (s st) as [|first rest] eqn:Hst; [|done]. by destruct Hcurrent. }
    split; cbn [dictionary next_code s encoded]; rewrite ?Hentries; try done.
    + by rewrite (assoc_L app), Hout.
    + intros _. by destruct (s st).
  - destruct (dictionary st !! s st) as [code|] eqn:Hcode; [|done].
    cbn [mbind option_bind]. intros [= <-].
    assert (s st ≠ []) as Hs.
    { intros Hs. rewrite Hs in Hsc. simpl in Hsc. by rewrite Hsingle in Hsc. }
    pose proof (lzw_sync_decode _ _ _ _ Hsync Hs Hcode) as Hstep.
    destruct Hsync as [Hdec Hout Hfirst Hcurrent Hnext Hdict].
    set (entries := lzw_entries d (s st)) in *.
    eexists. split; cbn [dictionary next_code s encoded].
    + rewrite lzw_decode_loop_snoc, Hdec. cbn [mbind option_bind]. exact Hstep.
    + cbn [output]. by rewrite Hout.
    + cbn [previous]. intros Hnil. by rewrite Hnil in Hs.
    + done.
    + unfold lzw_entries at 1. cbn [previous table].
      destruct (s st) as [|first rest] eqn:Hst; [done|].
      rewrite length_app, Hnext. simpl. lia.
    + unfold lzw_entries at 1. cbn [previous table].
      destruct (s st) as [|first rest] eqn:Hst; [done|]. rewrite <-Hst in *.
      intros k c. rewrite lookup_insert. case_decide as Hk.
      * subst k. split.
        -- intros [= <-]. right. split; [lia|].
           rewrite Hnext, lookup_app_r by lia.
           replace (N.to_nat (256 + N.of_nat (length entries) - 256) - length entries)%nat
             with 0%nat by lia. done.
        -- intros [[_ Heq]|[Hge Hentry]].
           { destruct (s st) as [|? [|??]]; simplify_eq. }
           apply lookup_app_Some in Hentry as [Hentry|[Hge' Hentry]].
           ++ assert (dictionary st !! (s st ++ [byte]) = Some c) as Habs.
              { apply Hdict. by right. }
              congruence.
           ++ apply list_lookup_singleton_Some in Hentry as [Hidx _]. f_equal. lia.
      * rewrite Hdict. split.
        -- intros [?|[Hge Hentry]]; [by left|]. right. split; [done|].
           by apply lookup_app_l_Some.
        -- intros [?|[Hge Hentry]]; [by left|]. right. split; [done|].
           apply lookup_app_Some in Hentry as [Hentry|[_ Hentry]]; [done|].
           apply list_lookup_singleton_Some in Hentry as [_ ?]. done.
Qed.

Lemma lzw_loop_sync st st' processed d text :
  lzw_inv st processed → lzw_sync st processed d → Forall (fun i => i < 256) text →
  lzw_loop st text = Some st' → ∃ d', lzw_sync st' (processed ++ text) d'.
Proof.
  intros Hinv Hsync Htext. revert st processed d Hinv Hsync.
  induction Htext as [|byte text Hbyte _ IH]; intros st processed d Hinv Hsync; simpl.
  - intros [= <-]. exists d. by rewrite app_nil_r.
  - destruct (lzw_step_inv st processed byte Hinv Hbyte) as (st1 & Hstep & Hinv1).
    rewrite Hstep. cbn [mbind option_bind]. intros Hloop.
    destruct (lzw_step_sync _ _ _ _ _ Hinv Hsync Hbyte Hstep) as [d1 Hsync1].
    rewrite cons_middle, (assoc_L app). by apply (IH st1 _ d1).
Qed.

(** Decoding the codes of an input gives the input back. *)
Lemma lzw_decode_encode (text_bytes : bytes) :
  ∃ st, lzw_encode text_bytes = Some st ∧ lzw_decode (encoded st) = Some (ints text_bytes).
Proof.
  unfold lzw_encode.
  destruct (lzw_loop_inv lzw_initial [] (ints text_bytes) lzw_inv_initial
              (ints_bounded text_bytes)) as (st & Hloop & Hinv).
  destruct (lzw_loop_sync _ _ _ _ _ lzw_inv_initial lzw_sync_initial
              (ints_bounded text_bytes) Hloop) as [d Hsync].
  rewrite Hloop. cbn [mbind option_bind]. simpl in Hsync. unfold lzw_flush.
  destruct (s st) as [|b0 rest] eqn:Hs.
  - exists st. split; [done|]. destruct Hsync as [Hdec Hout _ _ _ _].
    unfold lzw_decode. rewrite Hdec. simpl. rewrite Hs, app_nil_r in Hout. by rewrite Hout.
  - destruct (lzw_inv_current _ _ Hinv) as [code Hcode]; [by rewrite Hs|].
    rewrite Hs in Hcode. rewrite Hcode. cbn [mbind option_bind].
    eexists. split; [done|]. cbn [encoded]. rewrite <-Hs in Hcode.
    unfold lzw_decode. rewrite lzw_decode_loop_snoc, (lzw_sync_decoded _ _ _ Hsync).
    cbn [mbind option_bind].
    rewrite (lzw_sync_decode _ _ _ _ Hsync ltac:(by rewrite Hs) Hcode). simpl.
    by rewrite (lzw_sync_output _ _ _ Hsync).
Qed.

(** X9. The codes of [lzw_compress] can be decoded without its dictionary: the
    decoder that rebuilds the strings from the codes, adding to its table
    the previous string and the first byte of the current one, returns the
    input. *)
Theorem lzw_decode_round_trip (text_bytes : bytes) :
  ∃ st, lzw_encode text_bytes = Some st ∧ lzw_decode (encoded st) = Some (ints text_bytes).
Proof. apply lzw_decode_encode. Qed.

Lemma ints_inj (text1 text2 : bytes) : ints text1 = ints text2 → text1 = text2.
Proof.
  revert text2. induction text1 as [|b1 text1 IH]; intros [|b2 text2]; try done.
  unfold ints. cbn [map]. intros [= Hb Hrest]. f_equal; [|by apply IH].
  pose proof (Byte.of_to_N b1) as H1. rewrite Hb, Byte.of_to_N in H1. by injection H1.
Qed.

(** X10. The code sequence determines the input: two inputs with the same codes
    are the same. *)
Theorem lzw_codes_determine_input (text1 text2 : bytes) :
  encoded <$> lzw_encode text1 = encoded <$> lzw_encode text2 → text1 = text2.
Proof.
  destruct (lzw_decode_encode text1) as (st1 & -> & Hdec1).
  destruct (lzw_decode_encode text2) as (st2 & -> & Hdec2).
  intros [= Heq]. rewrite Heq, Hdec2 in Hdec1. injection Hdec1 as Hints.
  symmetry. by apply ints_inj.
Qed.

Lemma lzw_codes_determine_input_witness :
  ["a"; "b"; "a"; "b"; "a"]%byte = ["a"; "b"; "a"; "b"; "a"]%byte.
Proof.
  apply (lzw_codes_determine_input ["a"; "b"; "a"; "b"; "a"]%byte
           ["a"; "b"; "a"; "b"; "a"]%byte).
  vm_compute. reflexivity.
Defined.
(** ** arithmetic_compress: the lower bound only grows *)

Lemma narrow_step_low cum_prob st byte char_low char_high st' :
  interval_ok st → rounding.is_rounded st.1 → interval_ok (char_low, char_high) →
  dict_get cum_prob byte = Some (char_low, char_high) →
  narrow_step cum_prob st byte = Some st' →
  decimal.le st.1 st'.1 ∧ rounding.is_rounded st'.1.
Proof.
  destruct st as [low high]. intros (Hlow & Hhigh & Hle) Hrnd (Hcl & Hch & Hclh) Hget.
  unfold narrow_step. rewrite Hget. cbn [mbind option_bind]. intros [= <-]. simpl in *.
  pose proof (decimal_ops.sub_nonneg high low Hle) as Hrange.
  pose proof (decimal_ops.mul_nonneg _ _ Hrange Hcl) as Hmul.
  split; [by apply decimal_ops.add_ge_l|by apply decimal_ops.add_is_rounded].
Qed.

Lemma narrow_loop_rounded freq total cum_prob st text :
  0 < total →
  interval_chain freq total (decimal.of_int 0) cum_prob →
  interval_ok st → rounding.is_rounded st.1 →
  Forall (fun byte => byte ∈ dict_keys cum_prob) text →
  ∃ st', narrow_loop cum_prob st text = Some st' ∧ interval_ok st' ∧
         rounding.is_rounded st'.1.
Proof.
  intros Htotal Hchain Hst Hrnd Htext. revert st Hst Hrnd.
  induction Htext as [|byte text Hbyte _ IH]; intros st Hst Hrnd; simpl.
  { by exists st. }
  apply dict_get_is_Some in Hbyte as [[char_low char_high] Hget].
  pose proof (cum_prob_interval_ok _ _ _ _ _ _ Htotal Hchain Hget) as Hchar.
  destruct (narrow_step_ok cum_prob st byte char_low char_high Hst Hchar Hget)
    as (st1 & Hstep & Hst1).
  destruct (narrow_step_low _ _ _ _ _ _ Hst Hrnd Hchar Hget Hstep) as [_ Hrnd1].
  rewrite Hstep. cbn [mbind option_bind]. by apply IH.
Qed.

Lemma le_zero x : (0 ≤ decimal.coef x)%Z → decimal.le (decimal.of_int 0) x.
Proof.
  intros Hx. unfold decimal.le. cbn [decimal.coef decimal.exp decimal.of_int].
  pose proof (decimal_facts.pow10_pos (decimal.exp x - Z.min 0 (decimal.exp x)) ltac:(lia)).
  nia.
Qed.

(** X11. In no round of the narrowing loop does [low] decrease, and it is never
    negative. *)
Theorem narrowing_low_never_decreases (text_bytes : bytes) (rounds : nat) :
  ∃ low high low' high',
    arithmetic_interval_after rounds text_bytes = Some (low, high) ∧
    arithmetic_interval_after (S rounds) text_bytes = Some (low', high') ∧
    decimal.le (decimal.of_int 0) low ∧
    decimal.le low low'.
Proof.
  destruct (build_cum_prob_text text_bytes) as (cum_prob & Hbuild & Hkeys & Hchain).
  unfold arithmetic_interval_after. rewrite Hbuild. cbn [mbind option_bind].
  destruct text_bytes as [|b0 text].
  { change (ints []) with (@nil N). rewrite !take_nil. simpl.
    eexists _, _, _, _. split_and!; [done|done|done|apply rounding_facts.le_refl]. }
  assert (0 < N.of_nat (length (b0 :: text))) as Htotal by (simpl; lia).
  assert (Forall (fun byte => byte ∈ dict_keys cum_prob) (ints (b0 :: text))) as Hall.
  { apply Forall_forall. intros byte Hin. by apply (cum_prob_keys (b0 :: text)). }
  destruct (narrow_loop_rounded _ _ cum_prob narrow_initial (take rounds (ints (b0 :: text)))
              Htotal Hchain interval_ok_initial decimal_ops.is_rounded_zero)
    as ([low high] & Hloop & Hok & Hrnd); [by apply Forall_take|].
  destruct (ints (b0 :: text) !! rounds) as [byte|] eqn:Hbyte.
  - rewrite (take_S_r _ _ _ Hbyte), narrow_loop_snoc, Hloop. cbn [mbind option_bind].
    assert (byte ∈ dict_keys cum_prob) as Hin.
    { rewrite Forall_forall in Hall. apply Hall. by eapply list_elem_of_lookup_2. }
    apply dict_get_is_Some in Hin as [[char_low char_high] Hget].
    pose proof (cum_prob_interval_ok _ _ _ _ _ _ Htotal Hchain Hget) as Hchar.
    destruct (narrow_step_ok cum_prob (low, high) byte char_low char_high Hok Hchar Hget)
      as ([low' high'] & Hstep & _).
    destruct (narrow_step_low _ _ _ _ _ _ Hok Hrnd Hchar Hget Hstep) as [Hle _].
    exists low, high, low', high'. split_and!; [done|done| |done].
    apply le_zero. by destruct Hok.
  - apply lookup_ge_None in Hbyte.
    rewrite (take_ge _ (S rounds)) by lia. rewrite take_ge in Hloop |- * by lia.
    exists low, high, low, high. rewrite Hloop. split_and!; [done|done| |].
    + apply le_zero. by destruct Hok.
    + apply rounding_facts.le_refl.
Qed.
(** ** arithmetic_compress on an input of one byte value *)

Lemma strip_zeros_pow10 (n : nat) (e : Z) :
  decimal.strip_zeros n (10 ^ Z.of_nat n) e (e + Z.of_nat n) = decimal.mk 1 (e + Z.of_nat n).
Proof.
  revert e. induction n as [|n IH]; intros e.
  { cbn [decimal.strip_zeros]. f_equal. simpl. lia. }
  cbn [decimal.strip_zeros].
  assert (10 ^ Z.of_nat (S n) = 10 ^ Z.of_nat n * 10)%Z as Hpow.
  { rewrite Nat2Z.inj_succ, Z.pow_succ_r by lia. lia. }
  destruct (Z.ltb_spec e (e + Z.of_nat (S n))) as [_|?]; [|lia].
  rewrite Hpow, Z.mod_mul by lia. cbn [andb Z.eqb].
  rewrite Z.div_mul by lia.
  replace (e + Z.of_nat (S n))%Z with (e + 1 + Z.of_nat n)%Z by lia. apply IH.
Qed.

(** [Decimal(n) / Decimal(n)] is [Decimal(1)]. *)
Lemma div_self (n : Z) :
  (0 < n)%Z → decimal.div (decimal.of_int n) (decimal.of_int n) = Some (decimal.of_int 1).
Proof.
  intros Hn. unfold decimal.div, decimal.of_int. cbn [decimal.coef decimal.exp].
  destruct (Z.eqb_spec n 0) as [?|_]; [lia|].
  rewrite Z.abs_eq, Z.sgn_pos by lia.
  replace (decimal.ndigits n - decimal.ndigits n + decimal.prec + 1)%Z with
    (Z.of_nat 1001) by (unfold decimal.prec; lia).
  destruct (Z.leb_spec 0 (Z.of_nat 1001)) as [_|?]; [|lia].
  assert (Z.div_eucl (n * 10 ^ Z.of_nat 1001) n = (10 ^ Z.of_nat 1001, 0)%Z) as ->.
  { pose proof (Z_div_mod_full (n * 10 ^ Z.of_nat 1001) n) as Hdm.
    pose proof (Z.div_mul (10 ^ Z.of_nat 1001) n ltac:(lia)) as Hdiv.
    pose proof (Z.mod_mul (10 ^ Z.of_nat 1001) n ltac:(lia)) as Hmod.
    rewrite (Z.mul_comm n) . unfold Z.div, Z.modulo in Hdiv, Hmod.
    destruct (Z.div_eucl (10 ^ Z.of_nat 1001 * n) n) as [q r]. simpl in *. congruence. }
  cbn [Z.eqb]. rewrite Nat2Z.id.
  replace (0 - 0)%Z with (0 - 0 - Z.of_nat 1001 + Z.of_nat 1001)%Z at 2 by lia.
  rewrite strip_zeros_pow10. cbn [decimal.coef decimal.exp].
  replace (0 - 0 - Z.of_nat 1001 + Z.of_nat 1001)%Z with 0%Z by lia.
  by vm_compute.
Qed.

Lemma narrow_loop_single (k : N) (n : nat) :
  narrow_loop [(k, (decimal.of_int 0, decimal.of_int 1))] narrow_initial (replicate n k)
  = Some narrow_initial.
Proof.
  induction n as [|n IH]; [done|]. cbn [replicate narrow_loop].
  assert (narrow_step [(k, (decimal.of_int 0, decimal.of_int 1))] narrow_initial k
          = Some narrow_initial) as ->; [|exact IH].
  unfold narrow_step, narrow_initial. cbn [dict_get]. rewrite N.eqb_refl.
  cbn [mbind option_bind]. by vm_compute.
Qed.

(** X12. Every input that repeats one byte value, however long, is encoded as
    the single byte 0: the only interval of the table is [[0, 1)], the
    loop leaves [(0, 1)] as it is, and the expansion of 0 is one ['0']. *)
Theorem arithmetic_single_symbol_zero_byte (byte : Byte.byte) (n : nat) :
  let text_bytes := replicate (S n) byte in
  arithmetic_interval text_bytes = Some (decimal.of_int 0, decimal.of_int 1) ∧
  arithmetic_bits text_bytes = Some ["0"%char] ∧
  arithmetic_run text_bytes
  = Some ([0], ["000"%byte], encode_result text_bytes [0]).
Proof.
  intros text_bytes.
  assert (arithmetic_interval text_bytes = Some (decimal.of_int 0, decimal.of_int 1)) as Hint.
  { unfold arithmetic_interval, text_bytes.
    rewrite ints_replicate, count_freq_replicate.
    unfold build_cum_prob. cbn [dict_values map snd foldr].
    change (sorted_keys [(Byte.to_N byte, N.of_nat (S n))]) with [Byte.to_N byte].
    cbn [cum_prob_loop dict_get]. rewrite N.eqb_refl. cbn [mbind option_bind].
    rewrite N.add_0_r, div_self by lia. cbn [mbind option_bind dict_set].
    change (decimal.add (decimal.of_int 0) (decimal.of_int 1)) with (decimal.of_int 1).
    apply narrow_loop_single. }
  assert (arithmetic_bits text_bytes = Some ["0"%char]) as Hbits.
  { unfold arithmetic_bits. rewrite Hint. by vm_compute. }
  split_and!; [done..|].
  unfold arithmetic_run. rewrite Hbits. by vm_compute.
Qed.
(** ** arithmetic_compress never writes an empty file *)

Lemma str_of_int_nonempty (n : Z) : str_of_int n ≠ [].
Proof.
  unfold str_of_int, NilZero.string_of_int.
  destruct (Z.to_int n) as [d|d]; [|done].
  unfold NilZero.string_of_uint. by destruct d.
Qed.

Lemma binary_loop_length rounds value binary_str :
  (length binary_str + (rounds `min` 1) ≤ length (binary_loop rounds value binary_str)
   ≤ length binary_str + rounds)%nat.
Proof.
  revert value binary_str. induction rounds as [|rounds IH]; intros value binary_str.
  { simpl. lia. }
  cbn [binary_loop]. cbv zeta. destruct (decimal.is_zero _).
  - rewrite length_app. simpl. lia.
  - match goal with |- context [binary_loop rounds ?v ?acc] => specialize (IH v acc) end.
    rewrite length_app in IH. simpl in IH. lia.
Qed.

Lemma binary_loop_nonempty rounds value binary_str :
  Forall (fun digit => digit ≠ []) binary_str →
  Forall (fun digit => digit ≠ []) (binary_loop rounds value binary_str).
Proof.
  revert value binary_str. induction rounds as [|rounds IH]; intros value binary_str Hall.
  { done. }
  cbn [binary_loop]. cbv zeta.
  assert (Forall (fun digit : str => digit ≠ [])
            (binary_str
             ++ [str_of_int (decimal.to_int (decimal.mul value (decimal.of_int 2)))]))
    as Hall'.
  { apply Forall_app. split; [done|]. apply Forall_singleton, str_of_int_nonempty. }
  destruct (decimal.is_zero _); [done|]. by apply IH.
Qed.

Lemma bytes_list_of_length bits bytes_list :
  bytes_list_of bits = Some bytes_list → length bytes_list = ((length bits + 7) / 8)%nat.
Proof.
  unfold bytes_list_of. intros H%length_mapM. rewrite <-H. unfold range_step.
  rewrite length_map, length_seq. f_equal. lia.
Qed.

Lemma binary_loop_digits rounds value :
  (0 < rounds)%nat →
  (1 ≤ length (binary_loop rounds value []) ≤ rounds)%nat ∧
  Forall (fun digit => digit ≠ []) (binary_loop rounds value []).
Proof.
  intros Hrounds. pose proof (binary_loop_length rounds value []) as Hlen.
  cbn [length] in Hlen. split; [lia|]. by apply binary_loop_nonempty.
Qed.

Lemma packed_digits_nonempty (digits : list str) (bytes_list : list N) :
  (1 ≤ length digits)%nat → Forall (fun digit => digit ≠ []) digits →
  bytes_list_of (pad_bits (concat digits)) = Some bytes_list →
  (1 ≤ length bytes_list)%nat.
Proof.
  intros Hlen Hne Hlist. apply bytes_list_of_length in Hlist. rewrite Hlist.
  assert (1 ≤ length (pad_bits (concat digits)))%nat as Hpad.
  { unfold pad_bits. destruct digits as [|digit rest]; [simpl in Hlen; lia|].
    apply Forall_cons in Hne as [Hdigit _]. destruct digit as [|c digit]; [done|].
    case_bool_decide; rewrite ?length_app; simpl; lia. }
  apply Nat.div_le_lower_bound; lia.
Qed.

Lemma arithmetic_bits_digits (text_bytes : bytes) low high :
  arithmetic_interval text_bytes = Some (low, high) →
  ∃ digits,
    arithmetic_bits text_bytes = Some (concat digits) ∧
    digits = binary_loop 1024 low [].
Proof. intros Hint. eexists. split; [|done]. unfold arithmetic_bits. by rewrite Hint. Qed.

(** X13. The loop over [range(1024)] appends between one and 1024 digits, none
    of them an empty string, so that whatever [arithmetic_compress] returns
    has at least one byte, also for the empty input. *)
Theorem arithmetic_output_never_empty (text_bytes : bytes) :
  ∃ low high,
    arithmetic_interval text_bytes = Some (low, high) ∧
    (1 ≤ length (binary_loop 1024 low []) ≤ 1024)%nat ∧
    Forall (fun digit => digit ≠ []) (binary_loop 1024 low []) ∧
    ∀ result, arithmetic_compress text_bytes = Some result →
              (1 ≤ compressed_size result)%nat.
Proof.
  destruct (arithmetic_interval_total text_bytes) as (low & high & Hint).
  destruct (binary_loop_digits 1024 low) as [Hlen Hne]; [lia|].
  destruct (arithmetic_bits_digits text_bytes low high Hint) as (digits & Hbits & Hdigits).
  exists low, high. rewrite <-Hdigits in *. clear Hdigits.
  split_and!; [done|lia|lia|done|].
  intros result. unfold arithmetic_compress, arithmetic_run. rewrite Hbits.
  cbn [mbind option_bind].
  destruct (bytes_list_of _) as [bytes_list|] eqn:Hlist; [|done]. cbn [mbind option_bind].
  destruct (write_bin _) as [file|]; [|done]. intros [= <-].
  cbn [encode_result compressed_size].
  by eapply packed_digits_nonempty; [| |exact Hlist]; [lia|].
Qed.
(** ** The Huffman code is complete *)

(** The table is the list of the codes of the tree. *)
Lemma build_code_list root current_code :
  NoDup (leaf_bytes root) →
  build_code root current_code ∅ = list_to_map (tree_codes root current_code).
Proof.
  intros Hnd. apply map_eq. intros byte.
  assert (NoDup (tree_codes root current_code).*1) as Hnd'.
  { by rewrite tree_codes_keys. }
  destruct (decide (byte ∈ leaf_bytes root)) as [Hin|Hout].
  - rewrite <-(tree_codes_keys root current_code) in Hin.
    apply list_elem_of_fmap in Hin as ([b c] & -> & Hin). simpl.
    rewrite (build_code_lookup _ _ _ _ _ Hnd Hin). symmetry.
    by apply elem_of_list_to_map_1.
  - rewrite build_code_lookup_other, lookup_empty by done. symmetry.
    apply not_elem_of_list_to_map_1. by rewrite tree_codes_keys.
Qed.

(** The codes below a node fill the code space below its own code: with
    [2 ^ (K - len)] for a code of length [len], they add up to what the
    code of the node stands for. *)
Lemma tree_codes_kraft node current_code (K : N) :
  N.of_nat (length current_code + length (leaf_bytes node)) ≤ K + 1 →
  foldr N.add 0 ((fun entry : N * str => 2 ^ (K - N.of_nat (length entry.2)))
                   <$> tree_codes node current_code)
  = 2 ^ (K - N.of_nat (length current_code)).
Proof.
  revert current_code. induction node as [f b|f l IHl r IHr]; intros current_code HK.
  { simpl. lia. }
  pose proof (leaf_bytes_length l) as Hl. pose proof (leaf_bytes_length r) as Hr.
  cbn [tree_codes leaf_bytes] in *. rewrite length_app in HK.
  rewrite fmap_app, foldr_add_app, IHl, IHr by (rewrite length_app; simpl; lia).
  rewrite !length_app. cbn [length].
  replace (K - N.of_nat (length current_code))
    with (N.succ (K - N.of_nat (length current_code + 1))) by lia.
  rewrite N.pow_succ_r'. lia.
Qed.

(** X14. The code of a non-empty input is complete (Kraft's sum is 1): the
    codes of the table, a code of length [len] weighing [2 ^ (255 - len)],
    weigh [2 ^ 255] together, so that no bit string is left without a byte
    value. *)
Theorem huffman_code_complete (byte : Byte.byte) (rest : bytes) :
  ∃ code_table,
    huffman_code_table (byte :: rest) = Some code_table ∧
    foldr N.add 0 ((fun entry : N * str => 2 ^ (255 - N.of_nat (length entry.2)))
                     <$> map_to_list code_table)
    = 2 ^ 255.
Proof.
  destruct (huffman_code_table_leaves byte rest) as (root & Htable & Hnd & Hbytes & _).
  exists (build_code root [] ∅). split; [done|].
  rewrite build_code_list by done.
  rewrite (foldr_add_perm _
             ((fun entry : N * str => 2 ^ (255 - N.of_nat (length entry.2)))
                <$> tree_codes root [])).
  - rewrite tree_codes_kraft; [done|]. simpl.
    assert (length (leaf_bytes root) ≤ 256)%nat; [|lia].
    apply bounded_NoDup_length; [done|]. apply Forall_forall. intros b Hb%Hbytes.
    pose proof (ints_bounded (byte :: rest)) as Hall. rewrite Forall_forall in Hall.
    by apply Hall.
  - apply fmap_Permutation, map_to_list_to_map. by rewrite tree_codes_keys.
Qed.
(** ** The packed bytes determine the bits *)

Lemma bit_at_le (s : str) j : bit_at s j ≤ 1.
Proof. unfold bit_at. case_decide; lia. Qed.

(** Eight bits with the same place value are the same bits. *)
Lemma place_value_inj (s1 s2 : str) i k :
  place_value s1 i = place_value s2 i → (k < 8)%nat →
  bit_at s1 (8 * i + k) = bit_at s2 (8 * i + k).
Proof.
  unfold place_value. intros Heq Hk.
  pose proof (bit_at_le s1 (8 * i)). pose proof (bit_at_le s2 (8 * i)).
  pose proof (bit_at_le s1 (8 * i + 1)). pose proof (bit_at_le s2 (8 * i + 1)).
  pose proof (bit_at_le s1 (8 * i + 2)). pose proof (bit_at_le s2 (8 * i + 2)).
  pose proof (bit_at_le s1 (8 * i + 3)). pose proof (bit_at_le s2 (8 * i + 3)).
  pose proof (bit_at_le s1 (8 * i + 4)). pose proof (bit_at_le s2 (8 * i + 4)).
  pose proof (bit_at_le s1 (8 * i + 5)). pose proof (bit_at_le s2 (8 * i + 5)).
  pose proof (bit_at_le s1 (8 * i + 6)). pose proof (bit_at_le s2 (8 * i + 6)).
  pose proof (bit_at_le s1 (8 * i + 7)). pose proof (bit_at_le s2 (8 * i + 7)).
  destruct k as [|[|[|[|[|[|[|[|k]]]]]]]]; rewrite ?Nat.add_0_r; lia.
Qed.

Lemma bit_at_char (s1 s2 : str) j c1 c2 :
  s1 !! j = Some c1 → s2 !! j = Some c2 → is_bit c1 → is_bit c2 →
  bit_at s1 j = bit_at s2 j → c1 = c2.
Proof.
  intros H1 H2 Hc1 Hc2. rewrite (bit_at_lookup _ _ _ H1), (bit_at_lookup _ _ _ H2).
  destruct Hc1 as [-> | ->], Hc2 as [-> | ->]; simpl; try done; lia.
Qed.

(** Two bit strings of the same length that are packed into the same
    bytes are the same. *)
Lemma packing_injective (bits1 bits2 : str) (bytes_list : list N) :
  Forall is_bit bits1 → Forall is_bit bits2 → length bits1 = length bits2 →
  is_packing bits1 bytes_list → is_packing bits2 bytes_list → bits1 = bits2.
Proof.
  intros Hb1 Hb2 Hlen (p1 & Hp1 & Hlen1 & Hval1) (p2 & Hp2 & Hlen2 & Hval2).
  assert (p1 = p2) as <-.
  { rewrite length_app, length_replicate in Hlen1, Hlen2. lia. }
  set (padded1 := bits1 ++ replicate p1 "0"%char) in *.
  set (padded2 := bits2 ++ replicate p1 "0"%char) in *.
  assert (Forall is_bit padded1 ∧ Forall is_bit padded2) as [Hpb1 Hpb2].
  { split; (apply Forall_app; split; [done|]); apply Forall_replicate; by left. }
  assert (padded1 = padded2) as Hpadded; [|by apply app_inv_tail in Hpadded].
  apply list_eq_same_length with (8 * length bytes_list)%nat; [done..|].
  intros j c1 c2 Hj H1 H2.
  pose proof (Nat.div_mod_eq j 8) as Hdm.
  pose proof (Nat.mod_upper_bound j 8 ltac:(lia)) as Hr.
  assert (j / 8 < length bytes_list)%nat as Hi by lia.
  assert (place_value padded1 (j / 8) = place_value padded2 (j / 8)) as Hv.
  { pose proof (Hval1 _ Hi) as Hv1. rewrite (Hval2 _ Hi) in Hv1. congruence. }
  rewrite Forall_lookup in Hpb1, Hpb2.
  apply (bit_at_char padded1 padded2 j); [done|done|by eapply Hpb1|by eapply Hpb2|].
  pose proof (place_value_inj padded1 padded2 (j / 8) (j mod 8) Hv Hr) as Hbit.
  by rewrite <-Hdm in Hbit.
Qed.

(** X15. The packing lines lose nothing but the length: the bytes they make of
    a bit string and the length of the string determine the string. *)
Theorem packed_bytes_determine_bits (bits1 bits2 : str) :
  Forall is_bit bits1 → Forall is_bit bits2 → length bits1 = length bits2 →
  bytes_list_of (pad_bits bits1) = bytes_list_of (pad_bits bits2) →
  bits1 = bits2.
Proof.
  intros Hb1 Hb2 Hlen Heq.
  destruct (bytes_list_of_pad bits1 Hb1) as (bytes_list1 & Hlist1 & Hpack1).
  destruct (bytes_list_of_pad bits2 Hb2) as (bytes_list2 & Hlist2 & Hpack2).
  rewrite Hlist1, Hlist2 in Heq. injection Heq as <-.
  by eapply packing_injective.
Qed.

Lemma packed_bytes_determine_bits_witness :
  ["1"; "0"; "1"; "1"; "0"; "0"; "0"; "1"; "1"; "1"]%char
  = ["1"; "0"; "1"; "1"; "0"; "0"; "0"; "1"; "1"; "1"]%char.
Proof.
  apply packed_bytes_determine_bits.
  - repeat constructor; (by left) || (by right).
  - repeat constructor; (by left) || (by right).
  - reflexivity.
  - vm_compute. reflexivity.
Defined.
(** ** lzw_compress: the fields of the bit string and the file *)

Lemma int2_from_app acc (s1 s2 : str) :
  int2_from acc (s1 ++ s2) = int2_from acc s1 ≫= fun acc' => int2_from acc' s2.
Proof.
  revert acc. induction s1 as [|c s1 IH]; intros acc; [done|]. cbn [app int2_from].
  destruct (bit_value c) as [d|]; [|done]. cbn [mbind option_bind]. apply IH.
Qed.

Lemma int2_from_zeros (k : nat) : int2_from 0 (replicate k "0"%char) = Some 0.
Proof. induction k as [|k IH]; [done|]. cbn [replicate int2_from]. exact IH. Qed.

Lemma int2_from_bin_pos p : int2_from 0 (bin_pos p) = Some (Npos p).
Proof.
  induction p as [p IH|p IH|]; cbn [bin_pos]; [| |done];
    rewrite int2_from_app, IH; cbn [mbind option_bind int2_from bit_value]; simpl;
    f_equal; lia.
Qed.

(** [int(format(code, '012b'), 2)] is [code]. *)
Lemma int2_format_012b code : int2 (format_012b code) = Some code.
Proof.
  assert (int2_from 0 (format_012b code) = Some code) as Hfrom.
  { unfold format_012b. rewrite int2_from_app, int2_from_zeros. cbn [mbind option_bind].
    destruct code as [|p]; [done|]. apply int2_from_bin_pos. }
  unfold int2. destruct (format_012b code) eqn:Hf; [|done].
  apply (f_equal length) in Hf. unfold format_012b in Hf. rewrite length_app in Hf.
  destruct code; simpl in Hf; [lia|]. pose proof (bin_pos_length p).
  destruct p; simpl in *; lia.
Qed.

Lemma lzw_bits_of_cons code codes :
  lzw_bits_of (code :: codes) = format_012b code ++ lzw_bits_of codes.
Proof. done. Qed.

(** The field of the code at position [i]. *)
Lemma lzw_bits_of_field codes i code :
  Forall (fun code => code < 4096) codes → codes !! i = Some code →
  slice (lzw_bits_of codes) (12 * i) (12 * i + 12) = format_012b code.
Proof.
  intros Hall. revert i. induction Hall as [|c codes Hc Hall IH]; intros i Hi; [done|].
  rewrite lzw_bits_of_cons. unfold slice in *.
  replace (12 * i + 12 - 12 * i)%nat with 12%nat in * by lia.
  pose proof (format_012b_length c Hc) as Hlen.
  destruct i as [|i].
  - injection Hi as ->. rewrite Nat.mul_0_r, drop_0, take_app_length'; done.
  - simpl in Hi. rewrite drop_app_ge by lia. rewrite Hlen.
    replace (12 * S i - 12)%nat with (12 * i)%nat by lia.
    specialize (IH i Hi). by replace (12 * i + 12 - 12 * i)%nat with 12%nat in IH by lia.
Qed.

Lemma lzw_bits_of_inj codes1 codes2 :
  Forall (fun code => code < 4096) codes1 → Forall (fun code => code < 4096) codes2 →
  lzw_bits_of codes1 = lzw_bits_of codes2 → codes1 = codes2.
Proof.
  intros H1. revert codes2. induction H1 as [|c1 codes1 Hc1 H1 IH]; intros codes2 H2 Heq.
  - destruct H2 as [|c2 codes2 Hc2 H2]; [done|].
    apply (f_equal length) in Heq. rewrite lzw_bits_of_cons, length_app in Heq.
    rewrite format_012b_length in Heq by done. simpl in Heq. lia.
  - destruct H2 as [|c2 codes2 Hc2 H2].
    { apply (f_equal length) in Heq. rewrite lzw_bits_of_cons, length_app in Heq.
      rewrite format_012b_length in Heq by done. simpl in Heq. lia. }
    rewrite !lzw_bits_of_cons in Heq.
    apply app_inj_1 in Heq as [Hf Hrest]; [|by rewrite !format_012b_length].
    f_equal; [|by apply IH].
    pose proof (int2_format_012b c1) as Hi. rewrite Hf, int2_format_012b in Hi. congruence.
Qed.

(** The end of [lzw_compress] for an input of few codes. *)
Lemma lzw_run_short (text_bytes : bytes) :
  ∃ st bytes_list file,
    lzw_encode text_bytes = Some st ∧
    lzw_bits text_bytes = Some (lzw_bits_of (encoded st)) ∧
    lzw_run text_bytes = Some (bytes_list, file, encode_result text_bytes bytes_list) ∧
    is_packing (lzw_bits_of (encoded st)) bytes_list ∧ ints file = bytes_list ∧
    (length (encoded st) ≤ length text_bytes)%nat ∧
    ((length (encoded st) ≤ 3841)%nat → Forall (fun code => code < 4096) (encoded st)).
Proof.
  destruct (lzw_encode_sizes text_bytes) as (st & Hst & Hlen & _ & _ & _ & Hcodes).
  destruct (lzw_run_spec text_bytes) as (bits & bytes_list & file & Hbits & Hrun & Hpack).
  unfold lzw_bits in Hbits. rewrite Hst in Hbits. injection Hbits as <-.
  exists st, bytes_list, file. split_and!; [done| |done|done| |done|].
  - unfold lzw_bits. by rewrite Hst.
  - unfold lzw_run, lzw_bits in Hrun. rewrite Hst in Hrun. cbn [mbind option_bind] in Hrun.
    destruct (bytes_list_of _) as [bl|]; [|done]. cbn [mbind option_bind] in Hrun.
    destruct (write_bin bl) as [f|] eqn:Hf; [|done]. injection Hrun as <- <-.
    by apply write_bin_ints.
  - intros Hshort. apply Forall_lookup. intros i c Hi.
    pose proof (lookup_lt_Some _ _ _ Hi). apply Hcodes in Hi. lia.
Qed.

(** X16. Up to 3841 codes every twelve characters of the bit string read as a
    binary number are a code, in the order of emission. *)
Theorem lzw_fields_parse_back (text_bytes : bytes) :
  ∃ st bits_str,
    lzw_encode text_bytes = Some st ∧
    lzw_bits text_bytes = Some bits_str ∧
    ((length (encoded st) ≤ 3841)%nat →
     ∀ i code, encoded st !! i = Some code →
               int2 (slice bits_str (12 * i) (12 * i + 12)) = Some code).
Proof.
  destruct (lzw_run_short text_bytes)
    as (st & bytes_list & file & Hst & Hbits & _ & _ & _ & _ & Hshort).
  exists st, (lzw_bits_of (encoded st)). split_and!; [done..|].
  intros Hlen i code Hi.
  rewrite (lzw_bits_of_field _ _ _ (Hshort Hlen) Hi). apply int2_format_012b.
Qed.

(** X17. For inputs of at most 3841 bytes the file [lzw_compress] writes
    determines the input: the encoder loses nothing. *)
Theorem lzw_file_determines_input (text1 text2 : bytes) :
  (length text1 ≤ 3841)%nat → (length text2 ≤ 3841)%nat →
  (fun r : list N * bytes * EncodeResult => r.1.2) <$> lzw_run text1
  = (fun r : list N * bytes * EncodeResult => r.1.2) <$> lzw_run text2 →
  text1 = text2.
Proof.
  intros Hlen1 Hlen2.
  destruct (lzw_run_short text1)
    as (st1 & bl1 & file1 & Hst1 & _ & -> & Hpack1 & Hfile1 & Hn1 & Hshort1).
  destruct (lzw_run_short text2)
    as (st2 & bl2 & file2 & Hst2 & _ & -> & Hpack2 & Hfile2 & Hn2 & Hshort2).
  cbn [fmap option_fmap option_map fst snd]. intros [= ->].
  assert (bl1 = bl2) as -> by congruence.
  specialize (Hshort1 ltac:(lia)). specialize (Hshort2 ltac:(lia)).
  assert (length (encoded st1) = length (encoded st2)) as Hcount.
  { destruct Hpack1 as (p1 & Hp1 & Hl1 & _), Hpack2 as (p2 & Hp2 & Hl2 & _).
    rewrite length_app, length_replicate, lzw_bits_of_length in Hl1, Hl2 by done. lia. }
  assert (encoded st1 = encoded st2) as Hcodes.
  { apply lzw_bits_of_inj; [done..|].
    eapply packing_injective; [apply lzw_bits_of_is_bit..| |done|done].
    by rewrite !lzw_bits_of_length, Hcount. }
  destruct (lzw_decode_encode text1) as (st1' & H1' & Hdec1).
  destruct (lzw_decode_encode text2) as (st2' & H2' & Hdec2).
  simplify_eq. rewrite Hcodes, Hdec2 in Hdec1. injection Hdec1 as Hints.
  symmetry. by apply ints_inj.
Qed.

Lemma lzw_file_determines_input_witness :
  ["T"; "O"; "B"; "E"; "O"; "R"; "N"; "O"; "T"; "T"; "O"; "B"; "E"]%byte
  = ["T"; "O"; "B"; "E"; "O"; "R"; "N"; "O"; "T"; "T"; "O"; "B"; "E"]%byte.
Proof.
  apply lzw_file_determines_input.
  - simpl. lia.
  - simpl. lia.
  - vm_compute. reflexivity.
Defined.
(** ** lzw_compress: the strings of the dictionary *)

Lemma prefix_snoc_cases {A} (k l : list A) x :
  k `prefix_of` l ++ [x] → k = l ++ [x] ∨ k `prefix_of` l.
Proof.
  intros [rest Hrest]. destruct rest as [|y rest _] using rev_ind.
  - left. by rewrite app_nil_r in Hrest.
  - right. rewrite (assoc_L app) in Hrest. apply app_inj_tail in Hrest as [-> _].
    by apply prefix_app_r.
Qed.

Lemma lzw_strings_inv_initial : lzw_strings_inv lzw_initial [].
Proof.
  split; unfold lzw_initial; cbn [dictionary s].
  - destruct (lzw_initial_dictionary !! []) as [c|] eqn:H; [|done].
    by apply lzw_initial_dictionary_lookup in H as [? _].
  - intros k k' [c [-> Hc]%lzw_initial_dictionary_lookup] Hpre Hne.
    destruct k' as [|x k']; [done|].
    pose proof (prefix_cons_inv_1 _ _ _ _ Hpre) as ->.
    apply prefix_cons_inv_2, prefix_nil_inv in Hpre as ->.
    exists c. by apply lzw_initial_dictionary_lookup.
  - intros k [c [-> _]%lzw_initial_dictionary_lookup] Hlen. simpl in Hlen. lia.
  - done.
Qed.

Lemma lzw_step_strings_inv st st' processed byte :
  lzw_strings_inv st processed →
  lzw_step st byte = Some st' → lzw_strings_inv st' (processed ++ [byte]).
Proof.
  intros [Hnil Hprefix Hinfix Hcur]. unfold lzw_step.
  destruct (dictionary st !! (s st ++ [byte])) as [c|] eqn:Hsc.
  - intros [= <-]. split; cbn [dictionary s]; [done|done| |by apply suffix_app].
    intros k Hk Hlen. destruct (Hinfix k Hk Hlen) as (before & after & ->).
    exists before, (after ++ [byte]). by rewrite <-!(assoc_L app).
  - destruct (dictionary st !! s st) as [code|] eqn:Hcode; [|done].
    cbn [mbind option_bind]. intros [= <-]. split; cbn [dictionary s].
    + rewrite lookup_insert_ne; [done|]. by destruct (s st).
    + intros k k' Hk Hpre Hne.
      assert (is_Some (dictionary st !! k') ∨ k' = s st ++ [byte]) as [Hold| ->].
      { destruct (decide (k = s st ++ [byte])) as [->|Hother].
        - apply prefix_snoc_cases in Hpre as [->|Hpre]; [by right|]. left.
          apply (Hprefix (s st)); [by rewrite Hcode|done..].
        - rewrite lookup_insert_ne in Hk by done. left. by apply (Hprefix k). }
      * destruct (decide (s st ++ [byte] = k')) as [<-|?];
          [by rewrite lookup_insert_eq|by rewrite lookup_insert_ne].
      * by rewrite lookup_insert_eq.
    + intros k Hk Hlen. destruct (decide (k = s st ++ [byte])) as [->|Hother].
      * destruct Hcur as [before ->]. exists before, []. by rewrite app_nil_r, (assoc_L app).
      * rewrite lookup_insert_ne in Hk by done.
        destruct (Hinfix k Hk Hlen) as (before & after & ->).
        exists before, (after ++ [byte]). by rewrite <-!(assoc_L app).
    + by exists processed.
Qed.

Lemma lzw_loop_strings_inv st st' processed text :
  lzw_strings_inv st processed →
  lzw_loop st text = Some st' → lzw_strings_inv st' (processed ++ text).
Proof.
  revert st processed. induction text as [|byte text IH]; intros st processed Hinv; simpl.
  - intros [= <-]. by rewrite app_nil_r.
  - destruct (lzw_step st byte) as [st1|] eqn:Hstep; [|done]. cbn [mbind option_bind].
    intros Hloop. rewrite cons_middle, (assoc_L app). apply (IH st1); [|done].
    by eapply lzw_step_strings_inv.
Qed.

(** X18. The dictionary of [lzw_compress] is closed under prefixes and made of
    the input: the empty string is no key, every non-empty prefix of a key
    is a key, and every key of two or more bytes occurs in the input as a
    run of consecutive bytes. *)
Theorem lzw_dictionary_strings (text_bytes : bytes) :
  ∃ st,
    lzw_encode text_bytes = Some st ∧
    dictionary st !! [] = None ∧
    (∀ k k', is_Some (dictionary st !! k) → k' `prefix_of` k → k' ≠ [] →
             is_Some (dictionary st !! k')) ∧
    (∀ k, is_Some (dictionary st !! k) → (2 ≤ length k)%nat →
          ∃ before after, ints text_bytes = before ++ k ++ after).
Proof.
  destruct (lzw_encode_spec text_bytes) as (st & Hst & _).
  exists st. split; [done|]. unfold lzw_encode in Hst.
  destruct (lzw_loop lzw_initial (ints text_bytes)) as [st0|] eqn:Hloop; [|done].
  cbn [mbind option_bind] in Hst.
  pose proof (lzw_loop_strings_inv _ _ _ _ lzw_strings_inv_initial Hloop)
    as [Hnil Hprefix Hinfix _].
  assert (dictionary st = dictionary st0) as ->; [|done].
  unfold lzw_flush in Hst. destruct (s st0); [by injection Hst as <-|].
  destruct (dictionary st0 !! _); [|done]. by injection Hst as <-.
Qed.
(** ** Code lengths and Kraft's sum *)

Module code_lengths.

Lemma pair_cost_cons w d pairs : pair_cost ((w, d) :: pairs) = w * N.of_nat d + pair_cost pairs.
Proof. done. Qed.

Lemma pair_cost_perm pairs1 pairs2 : pairs1 ≡ₚ pairs2 → pair_cost pairs1 = pair_cost pairs2.
Proof. intros H. unfold pair_cost. apply foldr_add_perm. by rewrite H. Qed.

Lemma kraft_cons M d lengths : kraft M (d :: lengths) = 2 ^ N.of_nat (M - d) + kraft M lengths.
Proof. done. Qed.

Lemma kraft_perm M lengths1 lengths2 :
  lengths1 ≡ₚ lengths2 → kraft M lengths1 = kraft M lengths2.
Proof. intros H. unfold kraft. apply foldr_add_perm. by rewrite H. Qed.

Lemma pow2_split (M D : nat) :
  (D ≤ M)%nat → 2 ^ N.of_nat M = 2 ^ N.of_nat D * 2 ^ N.of_nat (M - D).
Proof. intros H. rewrite <-N.pow_add_r. f_equal. lia. Qed.

(** Lengths of at most [D] make a multiple of [2 ^ (M - D)]. *)
Lemma kraft_multiple M D lengths :
  (D ≤ M)%nat → Forall (fun d => (d ≤ D)%nat) lengths →
  ∃ q, kraft M lengths = q * 2 ^ N.of_nat (M - D).
Proof.
  intros HD. induction 1 as [|d lengths Hd _ (q & Hq)].
  { exists 0. done. }
  exists (2 ^ N.of_nat (D - d) + q). rewrite kraft_cons, Hq.
  replace (M - d)%nat with ((D - d) + (M - D))%nat by lia.
  rewrite Nat2N.inj_add, N.pow_add_r. lia.
Qed.

(** The longest code can be made as short as the second longest. *)
Lemma kraft_raise M D Dx lengths :
  (D ≤ Dx ≤ M)%nat → Forall (fun d => (d ≤ D)%nat) lengths →
  kraft M (Dx :: lengths) ≤ 2 ^ N.of_nat M → kraft M (D :: lengths) ≤ 2 ^ N.of_nat M.
Proof.
  intros HD Hall. rewrite !kraft_cons.
  destruct (decide (Dx = D)) as [->|Hne]; [done|].
  destruct (kraft_multiple M D lengths ltac:(lia) Hall) as (q & ->).
  rewrite (pow2_split M D) by lia.
  set (u := 2 ^ N.of_nat (M - D)). intros Hsum.
  assert (0 < 2 ^ N.of_nat (M - Dx)) as Hpos.
  { apply N.neq_0_lt_0, N.pow_nonzero. lia. }
  assert (0 < u) as Hu.
  { apply N.neq_0_lt_0, N.pow_nonzero. lia. }
  assert (q < 2 ^ N.of_nat D) as Hq by nia. nia.
Qed.

(** A pair of greatest length first. *)
Lemma longest_first (pairs : list (N * nat)) :
  pairs ≠ [] →
  ∃ w d rest, pairs ≡ₚ (w, d) :: rest ∧ Forall (fun pair => (pair.2 ≤ d)%nat) rest.
Proof.
  induction pairs as [|[w d] pairs IH]; [done|]. intros _.
  destruct pairs as [|pair pairs].
  { exists w, d, []. split; [done|constructor]. }
  destruct IH as (w' & d' & rest & Hperm & Hall); [done|].
  destruct (decide (d ≤ d')%nat) as [Hle|Hgt].
  - exists w', d', ((w, d) :: rest). split.
    + rewrite Hperm. apply perm_swap.
    + by constructor.
  - exists w, d, ((w', d') :: rest). split.
    + by rewrite Hperm.
    + constructor; [simpl; lia|]. eapply Forall_impl; [done|]. simpl. intros; lia.
Qed.

(** Two codes of the greatest length, at no cost. *)
Lemma two_longest M (pairs : list (N * nat)) :
  (2 ≤ length pairs)%nat →
  Forall (fun d => (d ≤ M)%nat) pairs.*2 → kraft M pairs.*2 ≤ 2 ^ N.of_nat M →
  ∃ x y D rest,
    (1 ≤ D ≤ M)%nat ∧
    x :: y :: rest.*1 ≡ₚ pairs.*1 ∧
    Forall (fun pair => (pair.2 ≤ D)%nat) rest ∧
    kraft M (D :: D :: rest.*2) ≤ 2 ^ N.of_nat M ∧
    pair_cost ((x, D) :: (y, D) :: rest) ≤ pair_cost pairs.
Proof.
  intros Hlen HM Hkraft.
  destruct (longest_first pairs) as (x & Dx & pairs' & Hperm & Hall).
  { intros ->. simpl in Hlen. lia. }
  destruct (longest_first pairs') as (y & D & rest & Hperm' & Hall').
  { intros ->. rewrite Hperm in Hlen. simpl in Hlen. lia. }
  rewrite Hperm' in Hperm, Hall. apply Forall_cons in Hall as [HDx Hall]. simpl in HDx.
  rewrite Hperm in HM. rewrite (kraft_perm M _ _ (fmap_Permutation snd _ _ Hperm)) in Hkraft.
  cbn [fmap list_fmap snd] in HM, Hkraft.
  apply Forall_cons in HM as [HMx HM]. apply Forall_cons in HM as [HMD HM].
  assert (Forall (fun d => (d ≤ D)%nat) (D :: rest.*2)) as Hothers.
  { constructor; [done|]. by apply Forall_fmap. }
  pose proof (kraft_raise M D Dx _ ltac:(lia) Hothers Hkraft) as Hkraft'.
  exists x, y, D, rest. split_and!; [|lia|by rewrite Hperm|done|done|].
  - destruct D as [|D]; [|lia]. rewrite !kraft_cons, Nat.sub_0_r in Hkraft'.
    assert (0 < 2 ^ N.of_nat M) by (apply N.neq_0_lt_0, N.pow_nonzero; lia). lia.
  - rewrite (pair_cost_perm _ _ Hperm), !pair_cost_cons. nia.
Qed.

(** A least weight can be given a greatest length, at no cost. *)
Lemma least_longest (pairs : list (N * nat)) (a : N) (D : nat) :
  D ∈ pairs.*2 → Forall (fun pair => (pair.2 ≤ D)%nat) pairs →
  a ∈ pairs.*1 → Forall (fun pair => a ≤ pair.1) pairs →
  ∃ rest,
    a :: rest.*1 ≡ₚ pairs.*1 ∧ D :: rest.*2 ≡ₚ pairs.*2 ∧
    a * N.of_nat D + pair_cost rest ≤ pair_cost pairs.
Proof.
  intros HD Hall Ha Hmin.
  apply list_elem_of_fmap in HD as ([x D'] & -> & HxD). simpl in *.
  apply elem_of_Permutation in HxD as [pairs' Hperm].
  destruct (decide (x = a)) as [->|Hne].
  { exists pairs'. split_and!; [by rewrite Hperm..|].
    by rewrite (pair_cost_perm _ _ Hperm), pair_cost_cons. }
  rewrite Hperm in Ha, Hall, Hmin. cbn [fmap list_fmap fst] in Ha.
  apply elem_of_cons in Ha as [?|Ha]; [done|].
  apply list_elem_of_fmap in Ha as ([a' d] & -> & Had). simpl in *.
  apply elem_of_Permutation in Had as [pairs'' Hperm'].
  rewrite Hperm' in Hperm, Hall, Hmin.
  apply Forall_cons in Hall as [_ Hall]. apply Forall_cons in Hall as [Hd _].
  apply Forall_cons in Hmin as [Hx _]. simpl in *.
  exists ((x, d) :: pairs''). split_and!.
  - rewrite Hperm. apply perm_swap.
  - by rewrite Hperm.
  - rewrite (pair_cost_perm _ _ Hperm), !pair_cost_cons. nia.
Qed.

(** The exchange step of Huffman's algorithm, on code lengths: lengths for
    weights of which [a] and [b] are the two least give lengths for the
    weights with [a + b] in their place, at a cost lower by [a + b]. *)
Lemma merge_two_least M (pairs : list (N * nat)) (a b : N) (weights : list N) :
  pairs.*1 ≡ₚ a :: b :: weights → a ≤ b → Forall (fun w => b ≤ w) weights →
  Forall (fun d => (d ≤ M)%nat) pairs.*2 → kraft M pairs.*2 ≤ 2 ^ N.of_nat M →
  ∃ pairs',
    pairs'.*1 ≡ₚ (a + b) :: weights ∧
    Forall (fun d => (d ≤ M)%nat) pairs'.*2 ∧ kraft M pairs'.*2 ≤ 2 ^ N.of_nat M ∧
    pair_cost pairs' + a + b ≤ pair_cost pairs.
Proof.
  intros Hweights Hab Hb HM Hkraft.
  destruct (two_longest M pairs) as (x & y & D & rest & HD & Hperm & Hall & Hkraft1 & Hcost1);
    [|done|done|].
  { rewrite <-(length_fmap fst), Hweights. simpl. lia. }
  set (pairs1 := (x, D) :: (y, D) :: rest) in *.
  assert (pairs1.*1 ≡ₚ a :: b :: weights) as Hweights1 by (by rewrite <-Hweights, <-Hperm).
  assert (Forall (fun pair : N * nat => (pair.2 ≤ D)%nat) pairs1) as Hall1.
  { by repeat constructor. }
  (* [a] to the greatest length *)
  destruct (least_longest pairs1 a D) as (rest1 & Hw1 & Hd1 & Hc1); [left|done| | |].
  { rewrite Hweights1. left. }
  { apply Forall_fmap with (f := fst) (P := fun w => a ≤ w). rewrite Hweights1.
    apply Forall_cons. split; [lia|]. apply Forall_cons. split; [lia|].
    eapply Forall_impl; [done|]. simpl. intros; lia. }
  assert (rest1.*1 ≡ₚ b :: weights) as Hweights2.
  { rewrite Hweights1 in Hw1. by apply (inj (cons a)) in Hw1. }
  assert (rest1.*2 ≡ₚ D :: rest.*2) as Hdepths2.
  { cbn [fmap list_fmap snd] in Hd1. by apply (inj (cons D)) in Hd1. }
  (* [b] to the greatest length *)
  destruct (least_longest rest1 b D) as (rest2 & Hw2 & Hd2 & Hc2).
  { rewrite Hdepths2. left. }
  { apply Forall_fmap with (f := snd) (P := fun d => (d ≤ D)%nat). rewrite Hdepths2.
    constructor; [done|]. by apply Forall_fmap. }
  { rewrite Hweights2. left. }
  { apply Forall_fmap with (f := fst) (P := fun w => b ≤ w). rewrite Hweights2.
    by constructor. }
  assert (rest2.*1 ≡ₚ weights) as Hweights3.
  { rewrite Hweights2 in Hw2. by apply (inj (cons b)) in Hw2. }
  assert (rest2.*2 ≡ₚ rest.*2) as Hdepths3.
  { rewrite Hdepths2 in Hd2. by apply (inj (cons D)) in Hd2. }
  (* the two become one, one bit shorter *)
  exists ((a + b, (D - 1)%nat) :: rest2). cbn [fmap list_fmap fst snd].
  split_and!.
  - by rewrite Hweights3.
  - constructor; [lia|]. rewrite Hdepths3.
    apply Forall_fmap. eapply Forall_impl; [exact Hall|]. simpl. intros; lia.
  - rewrite kraft_cons, (kraft_perm _ _ _ Hdepths3). rewrite !kraft_cons in Hkraft1.
    replace (M - (D - 1))%nat with (S (M - D)) by lia.
    rewrite Nat2N.inj_succ, N.pow_succ_r'. lia.
  - rewrite pair_cost_cons. nia.
Qed.

End code_lengths.
(** ** huffman_compress spends the fewest bits *)

Lemma forest_internal_perm heap heap' :
  heap ≡ₚ heap' → forest_internal heap = forest_internal heap'.
Proof. intros H. unfold forest_internal. apply foldr_add_perm. by rewrite H. Qed.

(** What the rounds of the merge loop add to the internal nodes is no more
    than any code lengths for the frequencies of the heap cost. *)
Lemma merge_loop_greedy fuel heap heap' M (pairs : list (N * nat)) :
  heap_ordered heap → merge_loop fuel heap = Some heap' →
  pairs.*1 ≡ₚ node_freq <$> heap →
  Forall (fun d => (d ≤ M)%nat) pairs.*2 → kraft M pairs.*2 ≤ 2 ^ N.of_nat M →
  forest_internal heap' ≤ forest_internal heap + pair_cost pairs.
Proof.
  revert heap pairs. induction fuel as [|fuel IH]; intros heap pairs Hord Hloop Hw HM Hk.
  { injection Hloop as <-. lia. }
  rewrite merge_loop_unfold in Hloop. case_bool_decide as Hlen; [|injection Hloop as <-; lia].
  destruct (merge_round heap Hord Hlen)
    as (l & r & heap1 & heap2 & Hpop1 & Hpop2 & Hperm & Hle & Hmin & Hord').
  rewrite Hpop1 in Hloop. cbn [mbind option_bind] in Hloop.
  rewrite Hpop2 in Hloop. cbn [mbind option_bind] in Hloop.
  set (merged := Internal (node_freq l + node_freq r) l r) in *.
  destruct (code_lengths.merge_two_least M pairs (node_freq l) (node_freq r)
              (node_freq <$> heap2)) as (pairs' & Hw' & HM' & Hk' & Hcost);
    [by rewrite Hw, Hperm|done|by apply Forall_fmap|done|done|].
  assert (heapq.heappush heap2 merged ≡ₚ merged :: heap2) as Hpush
    by apply heapq_facts.heappush_perm.
  specialize (IH _ pairs' Hord' Hloop).
  rewrite (forest_internal_perm _ _ Hpush) in IH.
  rewrite (forest_internal_perm _ _ Hperm).
  unfold forest_internal in *. cbn [fmap list_fmap foldr internal_sum merged] in *.
  assert (pairs'.*1 ≡ₚ node_freq <$> heapq.heappush heap2 merged) as Hw''.
  { by rewrite Hpush, Hw'. }
  specialize (IH Hw'' HM' Hk'). lia.
Qed.

Lemma initial_heap_freqs freq : node_freq <$> initial_heap freq ≡ₚ dict_values freq.
Proof.
  unfold initial_heap.
  assert (∀ heap,
            node_freq <$> fold_left (fun heap '(byte, count) =>
                                       heapq.heappush heap (Leaf count byte)) freq heap
            ≡ₚ (node_freq <$> heap) ++ dict_values freq) as Hgen; [|apply (Hgen [])].
  induction freq as [|[byte count] freq IH]; intros heap; simpl.
  { by rewrite app_nil_r. }
  rewrite IH, heapq_facts.heappush_perm. simpl. by rewrite Permutation_middle.
Qed.

Lemma initial_heap_internal freq : forest_internal (initial_heap freq) = 0.
Proof.
  destruct (initial_heap_inv (fun node => internal_sum node = 0) freq) as [_ Hall]; [done|].
  unfold forest_internal. induction Hall as [|node heap Hnode _ IH]; [done|].
  cbn [fmap list_fmap foldr]. by rewrite Hnode, IH.
Qed.

(** The internal nodes of the tree of [huffman_compress] add up to no more
    than any code lengths for the counts cost. *)
Lemma huffman_root_greedy freq root M (pairs : list (N * nat)) :
  huffman_root freq = Some (Some root) →
  pairs.*1 ≡ₚ dict_values freq →
  Forall (fun d => (d ≤ M)%nat) pairs.*2 → kraft M pairs.*2 ≤ 2 ^ N.of_nat M →
  internal_sum root ≤ pair_cost pairs.
Proof.
  intros Hroot Hw HM Hk. unfold huffman_root in Hroot.
  destruct (merge_loop _ _) as [heap|] eqn:Hloop; [|done]. cbn [mbind option_bind] in Hroot.
  destruct (merge_loop_spec _ _ (Nat.le_refl (length (initial_heap freq))))
    as (heap0 & Hloop0 & _ & Hlen).
  rewrite Hloop in Hloop0. injection Hloop0 as <-.
  destruct heap as [|node [|??]]; [done| |simpl in Hlen; lia].
  cbn in Hroot. injection Hroot as ->.
  destruct (initial_heap_inv (fun _ => True) freq) as [Hord _]; [done|].
  pose proof (merge_loop_greedy _ _ _ M pairs Hord Hloop) as Hgreedy.
  rewrite initial_heap_freqs, initial_heap_internal in Hgreedy.
  specialize (Hgreedy Hw HM Hk). unfold forest_internal in Hgreedy. simpl in Hgreedy. lia.
Qed.

(** The bits a tree spends: every leaf its count times the length of its
    code. *)
Lemma tree_codes_cost freq node current_code :
  weights_ok freq node →
  foldr N.add 0 ((fun entry : N * str => leaf_count freq entry.1 * N.of_nat (length entry.2))
                   <$> tree_codes node current_code)
  = internal_sum node + node_freq node * N.of_nat (length current_code).
Proof.
  revert current_code. induction node as [f b|f l IHl r IHr]; intros current_code; simpl.
  - unfold leaf_count. intros ->. simpl. lia.
  - intros (-> & Hl & Hr). rewrite fmap_app, foldr_add_app, IHl, IHr by done.
    rewrite !length_app. simpl. lia.
Qed.

(** The tree of a non-empty input, with its weights and its leaves. *)
Lemma huffman_tree_shape (byte : Byte.byte) (rest : bytes) :
  let freq := count_freq (ints (byte :: rest)) in
  ∃ root,
    huffman_root freq = Some (Some root) ∧ weights_ok freq root ∧
    NoDup (leaf_bytes root) ∧ leaf_bytes root ≡ₚ dict_keys freq.
Proof.
  intros freq.
  destruct (huffman_root_spec freq) as (root & Hroot & Hbytes).
  { by intros H%count_freq_nil_inv. }
  exists root. split_and!; [done| |by rewrite Hbytes; apply count_freq_keys_NoDup|done].
  apply (huffman_root_inv (weights_ok freq) freq); [| |done].
  - intros b c Hin. simpl. apply dict_get_elem_NoDup; [apply count_freq_keys_NoDup|done].
  - intros l r ? ? ?. simpl. by split_and!.
Qed.

Lemma sum_list_with_N {A} (f : A → nat) (l : list A) :
  N.of_nat (sum_list_with f l) = foldr N.add 0 ((fun x => N.of_nat (f x)) <$> l).
Proof.
  induction l as [|x l IH]; [done|]. cbn [sum_list_with fmap list_fmap foldr].
  rewrite <-IH. lia.
Qed.

(** The sum over the entries of a dict is the sum over its keys. *)
Lemma entries_keys_sum (freq : list (N * N)) (g : N → N) :
  NoDup (dict_keys freq) →
  foldr N.add 0 ((fun entry : N * N => entry.2 * g entry.1) <$> freq)
  = foldr N.add 0 ((fun byte => leaf_count freq byte * g byte) <$> dict_keys freq).
Proof.
  unfold dict_keys.
  induction freq as [|[k v] freq IH]; [done|]. cbn [map fst snd fmap list_fmap foldr].
  intros [Hk Hnd]%NoDup_cons. unfold leaf_count at 1. cbn [dict_get].
  rewrite N.eqb_refl. cbn [default]. f_equal. rewrite IH by done. f_equal.
  apply list_fmap_ext. intros i k' Hk'. unfold leaf_count. cbn [dict_get].
  destruct (N.eqb_spec k k') as [->|_]; [|done].
  exfalso. apply Hk. by eapply list_elem_of_lookup_2.
Qed.

(** The bit string of a non-empty input has as many bits as the internal
    nodes of the tree add up to. *)
Lemma huffman_bits_internal (byte : Byte.byte) (rest : bytes) :
  let text_bytes := byte :: rest in
  ∃ root encoded_bits,
    huffman_root (count_freq (ints text_bytes)) = Some (Some root) ∧
    huffman_bits text_bytes = Some encoded_bits ∧
    N.of_nat (length encoded_bits) = internal_sum root.
Proof.
  intros text_bytes.
  destruct (huffman_tree_shape byte rest) as (root & Hroot & Hw & Hnd & Hperm).
  fold text_bytes in Hroot, Hw, Hperm. set (freq := count_freq (ints text_bytes)) in *.
  assert (huffman_code_table text_bytes = Some (build_code root [] ∅)) as Htable.
  { unfold huffman_code_table. fold freq. by rewrite Hroot. }
  destruct (huffman_bits_spec text_bytes) as (bits & Hbits & _).
  exists root, bits. split_and!; [done..|].
  unfold huffman_bits in Hbits. rewrite Htable in Hbits. cbn [mbind option_bind] in Hbits.
  destruct (mapM _ (ints text_bytes)) as [codes|] eqn:Hcodes; [|done]. injection Hbits as <-.
  set (len := fun b : N => length (default [] (build_code root [] ∅ !! b))).
  rewrite (mapM_concat_length _ _ _ Hcodes). fold len.
  rewrite <-(weighted_count_freq len (ints text_bytes)). fold freq.
  rewrite sum_list_with_N.
  assert ((fun entry => N.of_nat (weighted len entry)) <$> freq
          = (fun entry : N * N => entry.2 * N.of_nat (len entry.1)) <$> freq) as ->.
  { apply list_fmap_ext. intros i [b c] _. unfold weighted. simpl. lia. }
  rewrite (entries_keys_sum freq (fun b => N.of_nat (len b))) by apply count_freq_keys_NoDup.
  rewrite <-(foldr_add_perm _ _ (fmap_Permutation _ _ _ Hperm)).
  rewrite <-(tree_codes_keys root []), <-list_fmap_compose.
  assert ((fun byte => leaf_count freq byte * N.of_nat (len byte)) ∘ fst <$> tree_codes root []
          = (fun entry : N * str => leaf_count freq entry.1 * N.of_nat (length entry.2))
              <$> tree_codes root []) as ->.
  { apply list_fmap_ext. intros i [b code] Hi. simpl. unfold len.
    by rewrite (build_code_lookup root [] ∅ b code Hnd (list_elem_of_lookup_2 _ _ _ Hi)). }
  rewrite (tree_codes_cost freq root [] Hw). simpl. lia.
Qed.

Lemma kraft_constant M {A} (l : list A) :
  kraft M ((fun _ => M) <$> l) = N.of_nat (length l).
Proof.
  induction l as [|x l IH]; [done|]. cbn [fmap list_fmap length].
  rewrite code_lengths.kraft_cons, IH, Nat.sub_diag. simpl. lia.
Qed.

Lemma sum_list_with_constant {A} (c : nat) (l : list A) :
  sum_list_with (fun _ => c) l = (c * length l)%nat.
Proof. induction l as [|x l IH]; simpl; lia. Qed.

Lemma huffman_bits_minimal_aux (text_bytes : bytes) (M : nat) (len : N → nat) :
  let freq := count_freq (ints text_bytes) in
  ∃ encoded_bits,
    huffman_bits text_bytes = Some encoded_bits ∧
    (Forall (fun byte => (len byte ≤ M)%nat) (dict_keys freq) →
     kraft M (len <$> dict_keys freq) ≤ 2 ^ N.of_nat M →
     (length encoded_bits ≤ sum_list_with (weighted len) freq)%nat).
Proof.
  intros freq. destruct text_bytes as [|byte rest].
  { exists []. split; [by vm_compute|]. simpl. lia. }
  destruct (huffman_bits_internal byte rest) as (root & bits & Hroot & Hbits & Hlen).
  fold freq in Hroot. exists bits. split; [done|]. intros HM Hkraft.
  set (pairs := (fun entry : N * N => (entry.2, len entry.1)) <$> freq).
  assert (pairs.*1 = dict_values freq) as Hw.
  { unfold pairs. rewrite <-list_fmap_compose. done. }
  assert (pairs.*2 = len <$> dict_keys freq) as Hd.
  { unfold pairs, dict_keys. rewrite <-list_fmap_compose.
    change (map fst freq) with (fst <$> freq). by rewrite <-list_fmap_compose. }
  assert (pair_cost pairs = N.of_nat (sum_list_with (weighted len) freq)) as Hcost.
  { unfold pair_cost, pairs. rewrite <-list_fmap_compose, sum_list_with_N. f_equal.
    apply list_fmap_ext. intros i [b c] _. unfold weighted. simpl. lia. }
  pose proof (huffman_root_greedy freq root M pairs Hroot) as Hgreedy.
  rewrite Hw, Hd, Hcost in Hgreedy.
  specialize (Hgreedy ltac:(done) ltac:(by apply Forall_fmap) Hkraft). lia.
Qed.

(** X19. No code lengths that satisfy Kraft's inequality, as the lengths of
    every prefix-free code do, cost fewer bits than the codes of
    [huffman_compress]: with [len byte] bits for every occurrence of
    [byte], where [len] has [sum 2^(M - len byte) <= 2^M] over the byte
    values of the input, the input costs at least [len(encoded_bits)]
    bits. *)
Theorem huffman_bits_minimal (text_bytes : bytes) (M : nat) (len : N → nat) :
  let freq := count_freq (ints text_bytes) in
  ∃ encoded_bits,
    huffman_bits text_bytes = Some encoded_bits ∧
    (Forall (fun byte => (len byte ≤ M)%nat) (dict_keys freq) →
     kraft M (len <$> dict_keys freq) ≤ 2 ^ N.of_nat M →
     (length encoded_bits ≤ sum_list_with (weighted len) freq)%nat).
Proof. apply huffman_bits_minimal_aux. Qed.

(** X20. [huffman_compress] never makes the input longer: it spends at most
    eight bits on a byte, so that compressed_size is at most original_size
    and the ratio at most 1. *)
Theorem huffman_never_expands (text_bytes : bytes) :
  ∃ encoded_bits bytes_list file,
    huffman_bits text_bytes = Some encoded_bits ∧
    huffman_run text_bytes = Some (bytes_list, file, encode_result text_bytes bytes_list) ∧
    (length encoded_bits ≤ 8 * length text_bytes)%nat ∧
    (compressed_size (encode_result text_bytes bytes_list)
     ≤ original_size (encode_result text_bytes bytes_list))%nat ∧
    (compression_ratio (encode_result text_bytes bytes_list) <= 1)%Q.
Proof.
  destruct (huffman_run_spec text_bytes) as (bits & bytes_list & file & Hbits & Hrun & Hpack).
  exists bits, bytes_list, file.
  assert (length bits ≤ 8 * length text_bytes)%nat as Hlen.
  { set (freq := count_freq (ints text_bytes)).
    destruct (huffman_bits_minimal_aux text_bytes 8 (fun _ => 8%nat)) as (bits' & Hbits' & Hmin).
    rewrite Hbits in Hbits'. injection Hbits' as <-.
    rewrite weighted_count_freq, sum_list_with_constant, ints_length in Hmin. apply Hmin.
    - apply Forall_forall. intros; lia.
    - rewrite kraft_constant.
      assert (length (dict_keys (count_freq (ints text_bytes))) ≤ 256)%nat; [|lia].
      apply bounded_NoDup_length; [apply count_freq_keys_NoDup|].
      apply Forall_forall. intros b Hb. apply (proj1 (count_freq_keys_elem _ _)) in Hb.
      pose proof (ints_bounded text_bytes) as Hall. rewrite Forall_forall in Hall.
      by apply Hall. }
  assert (length bytes_list ≤ length text_bytes)%nat as Hsize.
  { rewrite (is_packing_length _ _ Hpack).
    pose proof (Nat.div_mod_eq (length bits + 7) 8).
    pose proof (Nat.mod_upper_bound (length bits + 7) 8). lia. }
  split_and!; [done..|].
  unfold encode_result. cbn [compression_ratio]. destruct text_bytes as [|b0 text]; [done|].
  unfold Qle. cbn [Qnum Qden length] in *. rewrite <-Pos.of_nat_succ. lia.
Qed.
(** ** Kraft's inequality for prefix-free codes *)

Lemma codes_after_elem bit code' codes :
  code' ∈ codes_after bit codes ↔ bit :: code' ∈ codes.
Proof.
  unfold codes_after. rewrite list_elem_of_omap. split.
  - intros (code & Hin & Heq). destruct code as [|first code]; [done|].
    destruct (decide (first = bit)) as [->|?]; [|done]. by injection Heq as ->.
  - intros Hin. exists (bit :: code'). split; [done|]. by rewrite decide_True.
Qed.

Lemma codes_after_cons bit code codes :
  codes_after bit (code :: codes)
  = match code with
    | first :: code' =>
        if decide (first = bit) then code' :: codes_after bit codes
        else codes_after bit codes
    | [] => codes_after bit codes
    end.
Proof. destruct code as [|first code']; [done|]. unfold codes_after. simpl. by case_decide. Qed.

Lemma codes_after_prefix_free bit codes :
  prefix_free codes → prefix_free (codes_after bit codes).
Proof.
  induction codes as [|code codes IH]; [done|]. intros [Hcode Hfree].
  rewrite codes_after_cons.
  destruct code as [|first code]; [by apply IH|].
  case_decide as Hbit; [|by apply IH]. subst first. split; [|by apply IH].
  intros code' Hin%codes_after_elem. destruct (Hcode _ Hin) as [H1 H2].
  split; intros Hpre; [apply H1|apply H2]; by apply prefix_cons.
Qed.

Lemma kraft_codes_split M codes :
  Forall (fun code => Forall is_bit code ∧ code ≠ []) codes →
  kraft (S M) (length <$> codes)
  = kraft M (length <$> codes_after "0" codes) + kraft M (length <$> codes_after "1" codes).
Proof.
  induction 1 as [|code codes [Hbits Hne] _ IH]; [done|].
  destruct code as [|first code]; [done|]. apply Forall_cons in Hbits as [Hfirst _].
  rewrite !codes_after_cons. cbn [fmap list_fmap length].
  rewrite code_lengths.kraft_cons, IH. cbn [Nat.sub].
  destruct Hfirst as [-> | ->].
  - rewrite decide_True, decide_False by done. cbn [fmap list_fmap length].
    rewrite code_lengths.kraft_cons. lia.
  - rewrite decide_False, decide_True by done. cbn [fmap list_fmap length].
    rewrite code_lengths.kraft_cons. lia.
Qed.

Lemma prefix_free_nil_elem codes : prefix_free codes → [] ∈ codes → codes = [[]].
Proof.
  destruct codes as [|code codes]; [by intros _ ?%elem_of_nil|].
  intros [Hcode _] [<-|Hin]%elem_of_cons.
  - destruct codes as [|code' codes]; [done|].
    destruct (Hcode code') as [H _]; [left|]. destruct H. apply prefix_nil.
  - destruct (Hcode [] Hin) as [_ H]. destruct H. apply prefix_nil.
Qed.

(** Kraft's inequality: prefix-free bit strings of at most [M] bits have
    [sum 2^(M - len) <= 2^M]. *)
Lemma kraft_prefix_free M codes :
  prefix_free codes → Forall (Forall is_bit) codes →
  Forall (fun code => (length code ≤ M)%nat) codes →
  kraft M (length <$> codes) ≤ 2 ^ N.of_nat M.
Proof.
  revert codes. induction M as [|M IH]; intros codes Hfree Hbits Hlen.
  - destruct codes as [|code codes]; [done|].
    assert ([] ∈ code :: codes) as Hnil.
    { apply Forall_cons in Hlen as [Hc _]. destruct code; [left|simpl in Hc; lia]. }
    by rewrite (prefix_free_nil_elem _ Hfree Hnil).
  - destruct (decide ([] ∈ codes)) as [Hnil|Hnonil].
    { rewrite (prefix_free_nil_elem _ Hfree Hnil). cbn. lia. }
    rewrite kraft_codes_split.
    2:{ rewrite Forall_forall in Hbits. apply Forall_forall. intros code Hin.
        split; [by apply Hbits|]. by intros ->. }
    assert (∀ bit, kraft M (length <$> codes_after bit codes) ≤ 2 ^ N.of_nat M) as Hhalf.
    { intros bit. apply IH; [by apply codes_after_prefix_free|..];
        apply Forall_forall; intros code' Hin%codes_after_elem.
      - rewrite Forall_forall in Hbits. specialize (Hbits _ Hin).
        by apply Forall_cons in Hbits as [_ ?].
      - rewrite Forall_forall in Hlen. specialize (Hlen _ Hin). simpl in Hlen. lia. }
    pose proof (Hhalf "0"%char). pose proof (Hhalf "1"%char).
    rewrite Nat2N.inj_succ, N.pow_succ_r'. lia.
Qed.

(** The codes of different keys, none a prefix of another, make a
    prefix-free list. *)
Lemma prefix_free_keys (other : N → str) (keys : list N) :
  NoDup keys →
  (∀ b1 b2, b1 ∈ keys → b2 ∈ keys → b1 ≠ b2 → ¬ other b1 `prefix_of` other b2) →
  prefix_free (other <$> keys).
Proof.
  induction 1 as [|key keys Hkey Hnd IH]; [done|]. intros Hother.
  cbn [fmap list_fmap prefix_free]. split.
  - intros code' (key' & -> & Hin)%list_elem_of_fmap.
    assert (key ≠ key') by (by intros ->).
    split; apply Hother; try done; by (left || right).
  - apply IH. intros b1 b2 H1 H2. apply Hother; by right.
Qed.

(** X21. No prefix-free code does better than [huffman_compress]: a code that
    gives every byte value of the input a string of ['0'] and ['1'], none a
    prefix of the string of another byte value, spends at least
    [len(encoded_bits)] bits on the input. *)
Theorem huffman_beats_prefix_codes (text_bytes : bytes) (other : N → str) :
  let freq := count_freq (ints text_bytes) in
  ∃ encoded_bits,
    huffman_bits text_bytes = Some encoded_bits ∧
    ((∀ byte, byte ∈ ints text_bytes → Forall is_bit (other byte)) →
     (∀ b1 b2, b1 ∈ ints text_bytes → b2 ∈ ints text_bytes → b1 ≠ b2 →
               ¬ other b1 `prefix_of` other b2) →
     (length encoded_bits
      ≤ sum_list_with (weighted (fun byte => length (other byte))) freq)%nat).
Proof.
  intros freq. subst freq. set (freq := count_freq (ints text_bytes)).
  set (M := max_list (length ∘ other <$> dict_keys freq)).
  destruct (huffman_bits_minimal_aux text_bytes M (fun byte => length (other byte)))
    as (bits & Hbits & Hmin).
  fold freq in Hmin. exists bits. split; [done|]. intros Hbit Hfree. apply Hmin.
  - apply Forall_forall. intros byte Hin.
    apply max_list_elem_of_le, list_elem_of_fmap. by exists byte.
  - assert ((fun byte => length (other byte)) <$> dict_keys freq
            = length <$> (other <$> dict_keys freq)) as ->
      by (by rewrite <-list_fmap_compose).
    apply kraft_prefix_free.
    + apply prefix_free_keys; [apply count_freq_keys_NoDup|].
      intros b1 b2 H1 H2. apply Hfree; by apply count_freq_keys_elem.
    + apply Forall_fmap, Forall_forall. intros byte Hin. simpl.
      by apply Hbit, count_freq_keys_elem.
    + apply Forall_fmap, Forall_forall. intros byte Hin. simpl.
      apply max_list_elem_of_le, list_elem_of_fmap. by exists byte.
Qed.
